(** * data_helper.py: the bAbI pre-processing pipeline

    A shallow embedding of [src/data_helper.py] and the properties of its
    stages: [tokenize], [parse_stories], [truncate_stories], [get_tokenizer],
    [tokenize_stories], [pad_stories], [parse_data] and [get_data].

    Conventions of the embedding.
    - A Python [str] is a [string]; its characters are the 8-bit [ascii]
      codes (the bAbI files are ASCII, on which [bytes.decode('utf-8')] is
      the identity, so a line is modelled after decoding).  Codes above 127
      are neither word characters nor white space and have no case.
    - A Python [int] is a [Z]; [%] is [Z.modulo] (sign of the divisor).
    - An exception is a value of [exn]; a call that can raise returns a
      [result].
    - The interpreter is CPython 3.6, which the module is written for
      ([tf.python_io] is TensorFlow 1.x, the lines of the archive are
      [bytes]): [map] is lazy, [int] takes an underscore between two
      digits, and in [re.split] a match of the empty string does not split
      (from 3.7 on it does, [SPLIT_RE] then yields [None] groups, and
      [tokenize] raises on them).
    - A [dict] is a [gmap]; a list comprehension is [map]/[filter].
    - [pad_stories] appends to the lists it is given.  It is written twice:
      on values, and in place on a store of list objects ([InPlace]); the
      two are shown to agree on examples made of lists of their own. *)

From Stdlib Require Import ZArith Ascii String List Lia.
From stdpp Require Import base list gmap strings sorting.

Local Open Scope Z_scope.

(** ** Exceptions *)

Inductive exn : Set :=
| ValueError
| IndexError
| KeyError
| AssertionError
| ZeroDivisionError.

Inductive result (A : Type) : Type :=
| OK (a : A)
| Raise (e : exn).
Arguments OK {A} a.
Arguments Raise {A} e.

Definition bind {A B} (r : result A) (k : A → result B) : result B :=
  match r with
  | OK a => k a
  | Raise e => Raise e
  end.

Notation "'let*' x ':=' r 'in' k" := (bind r (fun x => k))
  (at level 10, x pattern, r at level 200, k at level 200,
   format "'[v' 'let*'  x  ':='  r  'in' '/' k ']'").

(** [[f(x) for x in l]] where [f] may raise: left to right, first error wins. *)
Fixpoint mapM {A B} (f : A → result B) (l : list A) : result (list B) :=
  match l with
  | [] => OK []
  | x :: l' =>
      let* y := f x in
      let* ys := mapM f l' in
      OK (y :: ys)
  end.

(** ** Characters and the [str] methods the module calls *)

Module Py.

Definition code (c : ascii) : N := N_of_ascii c.

Definition between (lo hi c : ascii) : bool :=
  ((code lo <=? code c) && (code c <=? code hi))%N.

Definition is_upper (c : ascii) : bool := between "A" "Z" c.
Definition is_digit (c : ascii) : bool := between "0" "9" c.

(** [\w]: letters, digits and the underscore. *)
Definition is_word (c : ascii) : bool :=
  between "a" "z" c || is_upper c || is_digit c || Ascii.eqb c "_".

(** White space of [str.strip()] and [str.split()]: TAB, LF, VT, FF, CR,
    the separators FS, GS, RS, US and the space. *)
Definition is_space (c : ascii) : bool :=
  between "009" "013" c || between "028" "031" c || Ascii.eqb c " ".

Definition lower_char (c : ascii) : ascii :=
  if is_upper c then ascii_of_N (code c + 32) else c.

Definition chars : string → list ascii := list_ascii_of_string.
Definition str : list ascii → string := string_of_list_ascii.

Fixpoint lstrip (s : list ascii) : list ascii :=
  match s with
  | c :: s' => if is_space c then lstrip s' else s
  | [] => []
  end.

Definition rstrip (s : list ascii) : list ascii := rev (lstrip (rev s)).

(** [s.strip()] *)
Definition strip (s : string) : string := str (rstrip (lstrip (chars s))).

(** [s.lower()] *)
Definition lower (s : string) : string := str (map lower_char (chars s)).

(** Truth value of a [str]: non-empty. *)
Definition truthy (s : string) : bool :=
  match s with EmptyString => false | _ => true end.

(** [re.split(r'(\W+)?', s)]: the scanner looks for a match at each
    position; an empty one moves on by one character, a run of non-word
    characters ends the current piece and is itself returned (it is the
    capture group), and the piece after the last run closes the list,
    also when it is empty.  [word_run] reads a piece, [sep_run] a run;
    both carry what they have read so far, in reverse. *)
Fixpoint word_run (acc s : list ascii) : list (list ascii) :=
  match s with
  | [] => [rev acc]
  | c :: s' =>
      if is_word c then word_run (c :: acc) s'
      else rev acc :: sep_run [c] s'
  end
with sep_run (acc s : list ascii) : list (list ascii) :=
  match s with
  | [] => [rev acc; []]
  | c :: s' =>
      if is_word c then rev acc :: word_run [c] s'
      else sep_run (c :: acc) s'
  end.

Definition re_split (s : string) : list string :=
  map str (word_run [] (chars s)).

Definition TAB : ascii := "009".

(** [c in s] for a one-character [c]. *)
Definition contains (c : ascii) (s : string) : bool :=
  existsb (Ascii.eqb c) (chars s).

(** [s.split(sep)] for a one-character [sep]: cuts at every [sep]. *)
Fixpoint split_go (sep : ascii) (acc s : list ascii) : list (list ascii) :=
  match s with
  | [] => [rev acc]
  | c :: s' =>
      if Ascii.eqb c sep then rev acc :: split_go sep [] s'
      else split_go sep (c :: acc) s'
  end.

Definition split (sep : ascii) (s : string) : list string :=
  map str (split_go sep [] (chars s)).

(** [s.split(sep, 1)]: cuts at the first [sep] only. *)
Fixpoint split1_go (sep : ascii) (acc s : list ascii) : list (list ascii) :=
  match s with
  | [] => [rev acc]
  | c :: s' =>
      if Ascii.eqb c sep then [rev acc; s']
      else split1_go sep (c :: acc) s'
  end.

Definition split1 (sep : ascii) (s : string) : list string :=
  map str (split1_go sep [] (chars s)).

(** [s.split()]: the maximal runs of characters that are not white space. *)
Fixpoint words_go (cur s : list ascii) : list (list ascii) :=
  match s with
  | [] => match cur with [] => [] | _ => [rev cur] end
  | c :: s' =>
      if is_space c then
        match cur with
        | [] => words_go [] s'
        | _ => rev cur :: words_go [] s'
        end
      else words_go (c :: cur) s'
  end.

Definition words (s : string) : list string :=
  map str (words_go [] (chars s)).

(** [a, b = l] and [a, b, c = l] *)
Definition unpack2 {A} (l : list A) : result (A * A) :=
  match l with
  | [a; b] => OK (a, b)
  | _ => Raise ValueError
  end.

Definition unpack3 {A} (l : list A) : result (A * A * A) :=
  match l with
  | [a; b; c] => OK (a, b, c)
  | _ => Raise ValueError
  end.

(** [int(s)]: white space around, a sign, then decimal digits, where one
    underscore may stand between two digits. *)
Definition digit_value (c : ascii) : Z := Z.of_N (code c) - 48.

Fixpoint digits (acc : Z) (after_digit : bool) (s : list ascii) : result Z :=
  match s with
  | [] => if after_digit then OK acc else Raise ValueError
  | c :: s' =>
      if is_digit c then digits (10 * acc + digit_value c) true s'
      else if Ascii.eqb c "_" && after_digit then digits acc false s'
      else Raise ValueError
  end.

Definition int (s : string) : result Z :=
  match rstrip (lstrip (chars s)) with
  | "+"%char :: t => digits 0 false t
  | "-"%char :: t => let* n := digits 0 false t in OK (- n)
  | t => digits 0 false t
  end.

(** [l[i]]: a negative index counts from the end. *)
Definition getitem {A} (l : list A) (i : Z) : result A :=
  let n := Z.of_nat (length l) in
  let j := if i <? 0 then i + n else i in
  if (j <? 0) || (n <=? j) then Raise IndexError
  else match l !! Z.to_nat j with
       | Some x => OK x
       | None => Raise IndexError
       end.

(** [l[-n:]]: the slice from index [-n], where [-0] is [0] and an index
    before the start is the start. *)
Definition slice_from {A} (i : Z) (l : list A) : list A :=
  let n := Z.of_nat (length l) in
  let j := if i <? 0 then Z.max 0 (i + n) else Z.min i n in
  drop (Z.to_nat j) l.

(** [l[:k]]: a negative [k] counts from the end. *)
Definition slice_to {A} (k : Z) (l : list A) : list A :=
  let n := Z.of_nat (length l) in
  let j := if k <? 0 then Z.max 0 (k + n) else Z.min k n in
  take (Z.to_nat j) l.

End Py.

(** ** Shapes of strings and of [re.split] results, for the statements *)

Module PyShape.
Import Py.

(** A string with no white space at its front. *)
Definition no_lead (s : list ascii) : Prop :=
  match s with
  | c :: _ => is_space c = false
  | [] => True
  end.

(** The shape of the pieces: word pieces and runs of non-word characters
    take turns, starting and ending with a word piece; a run is never
    empty, and neither is a word piece between two runs. *)
Inductive pieces : list (list ascii) → Prop :=
| pieces_last w :
    forallb is_word w = true → pieces [w]
| pieces_run w sep rest :
    forallb is_word w = true →
    sep ≠ [] → forallb (fun c => negb (is_word c)) sep = true →
    pieces rest →
    (∀ w' sep' rest', rest = w' :: sep' :: rest' → w' ≠ []) →
    pieces (w :: sep :: rest).

End PyShape.

(** ** Module constants *)

Definition PAD_TOKEN : string := "_PAD".
Definition PAD_ID : Z := 0.

(** ** [tokenize] *)

Definition tokenize (sentence : string) : list string :=
  map (fun token => Py.lower (Py.strip token))
      (filter (fun token => Py.truthy (Py.strip token))
              (Py.re_split sentence)).

(** ** [parse_stories] *)

(** An entry of the story history: the list of tokens of a narrative line,
    or the [''] that [story.append('')] leaves after a question. *)
Inductive entry : Set :=
| Blank
| Words (tokens : list string).

(** Truth value of an entry ([if x]): an empty string and an empty list
    are false. *)
Definition entry_truthy (x : entry) : bool :=
  match x with
  | Blank => false
  | Words [] => false
  | Words (_ :: _) => true
  end.

(** [for token in sentence], [len(sentence)] *)
Definition entry_tokens (x : entry) : list string :=
  match x with
  | Blank => []
  | Words tokens => tokens
  end.

(** An entry that is the non-empty token list of a narrative line. *)
Definition sentence_entry (x : entry) : Prop :=
  ∃ tokens, x = Words tokens ∧ tokens ≠ [].

(** What [parse_stories] appends to [stories]: (substory, query, answer). *)
Definition example : Set := list entry * list string * string.

(** Lines 32-34: strip the line, cut the number off, read it. *)
Definition line_number (line : string) : result (Z * string) :=
  let line := Py.strip line in
  let* (nid, line) := Py.unpack2 (Py.split1 " " line) in
  let* nid := Py.int nid in
  OK (nid, line).

(** The entry a line leaves in the history: [''] for a question, its
    tokens for a narrative line. *)
Definition line_entry (line : string) : result entry :=
  let* (_, rest) := line_number line in
  OK (if Py.contains Py.TAB rest then Blank else Words (tokenize rest)).

(** A line that does not start a new story. *)
Definition continues (line : string) : Prop :=
  ∃ nid rest, line_number line = OK (nid, rest) ∧ nid ≠ 1.

(** Lines 35-36: a line numbered 1 starts a new story. *)
Definition restart (nid : Z) (story : list entry) : list entry :=
  if nid =? 1 then [] else story.

(** Lines 41-47.  [map] is lazy, so each index is read and used in turn. *)
Definition select (only_supporting : bool) (story : list entry)
    (supporting : string) : result (list entry) :=
  if only_supporting then
    mapM (fun i => let* i := Py.int i in Py.getitem story (i - 1))
         (Py.words supporting)
  else
    OK (filter (fun x => entry_truthy x) story).

(** The body of the loop, on the pair ([stories], [story]). *)
Definition parse_line (only_supporting : bool)
    (st : list example * list entry) (line : string)
    : result (list example * list entry) :=
  let '(stories, story) := st in
  let* (nid, line) := line_number line in
  let story := restart nid story in
  if Py.contains Py.TAB line then
    let* (query, answer, supporting) := Py.unpack3 (Py.split Py.TAB line) in
    let query := tokenize query in
    let* substory := select only_supporting story supporting in
    OK (stories ++ [(substory, query, answer)], story ++ [Blank])
  else
    let sentence := tokenize line in
    OK (stories, story ++ [Words sentence]).

Fixpoint parse_loop (only_supporting : bool)
    (st : list example * list entry) (lines : list string)
    : result (list example * list entry) :=
  match lines with
  | [] => OK st
  | line :: lines' =>
      let* st' := parse_line only_supporting st line in
      parse_loop only_supporting st' lines'
  end.

Definition parse_stories (lines : list string) (only_supporting : bool)
    : result (list example) :=
  let* (stories, _) := parse_loop only_supporting ([], []) lines in
  OK stories.

Definition tab (a b : string) : string := a +:+ String Py.TAB b.

Definition sample_lines : list string :=
  [ "1 Mary moved to the bathroom.";
    "2 John went to the hallway.";
    tab "3 Where is Mary?" (tab "bathroom" "1") ].

(** A block with two questions; the second one points at line 3. *)
Definition two_questions : list string :=
  [ "1 Mary moved to the bathroom.";
    tab "2 Where is Mary?" (tab "bathroom" "1");
    "3 John went to the hallway.";
    tab "4 Where is John?" (tab "hallway" "3") ].

(** A line as [readlines()] returns it. *)
Definition with_newline (line : string) : string := line +:+ String "010" "".


(** ** [truncate_stories] *)

Definition truncate_stories {S Q A : Type}
    (stories : list (list S * Q * A)) (max_length : Z)
    : list (list S * Q * A) :=
  map (fun '(story, query, answer) =>
         let story_truncated := Py.slice_from (- max_length) story in
         (story_truncated, query, answer))
      stories.

(** ** [get_tokenizer] *)

(** Line 99: the tokens one example adds to [tokens_all]. *)
Definition example_tokens (ex : example) : list string :=
  let '(story, query, answer) := ex in
  concat (map entry_tokens story) ++ query ++ [answer].

Definition tokens_all (stories : list example) : list string :=
  concat (map example_tokens stories).

(** [sorted(set(l))]: the elements of the set, in the order of the
    strings (code point by code point). *)
Definition sorted_set (l : list string) : list string :=
  merge_sort String.le (elements (list_to_set l : gset string)).

(** [enumerate(l)] *)
Definition enumerate {A} (l : list A) : list (Z * A) :=
  zip (seqZ 0 (Z.of_nat (length l))) l.

(** [{token: i for i, token in enumerate(vocab)}]: the entries are stored
    one after the other, a later one replacing an earlier one of the same
    key. *)
Definition dict_of_enumerate (vocab : list string) : gmap string Z :=
  foldl (fun d '(i, token) => <[token := i]> d) ∅ (enumerate vocab).

Definition get_tokenizer (stories : list example)
    : list string * gmap string Z :=
  let vocab := PAD_TOKEN :: sorted_set (tokens_all stories) in
  let token_to_id := dict_of_enumerate vocab in
  (vocab, token_to_id).

(** ** [tokenize_stories] *)

(** An example after encoding: (story, query, answer) as ids. *)
Definition encoded : Set := list (list Z) * list Z * Z.

(** [token_to_id[token]] *)
Definition getkey (token_to_id : gmap string Z) (token : string) : result Z :=
  match token_to_id !! token with
  | Some i => OK i
  | None => Raise KeyError
  end.

(** The body of the loop of [tokenize_stories]. *)
Definition tokenize_story (token_to_id : gmap string Z) (ex : example)
    : result encoded :=
  let '(story, query, answer) := ex in
  let* story :=
    mapM (fun sentence => mapM (getkey token_to_id) (entry_tokens sentence))
         story in
  let* query := mapM (getkey token_to_id) query in
  let* answer := getkey token_to_id answer in
  OK (story, query, answer).

Definition tokenize_stories (stories : list example)
    (token_to_id : gmap string Z) : result (list encoded) :=
  mapM (tokenize_story token_to_id) stories.

(** ** [pad_stories] *)

(** [len(l)] *)
Definition len {A} (l : list A) : Z := Z.of_nat (length l).

(** [for _ in range(n): l.append(x)]; [range(n)] is empty for [n <= 0]. *)
Fixpoint append_times {A} (n : nat) (x : A) (l : list A) : list A :=
  match n with
  | O => l
  | S n' => append_times n' x (l ++ [x])
  end.

Definition pad_to {A} (target : Z) (x : A) (l : list A) : list A :=
  append_times (Z.to_nat (target - len l)) x l.

Definition assert (b : bool) : result unit :=
  if b then OK tt else Raise AssertionError.

(** Lines 107-110. *)
Definition pad_sentence (max_sentence_length : Z) (sentence : list Z)
    : result (list Z) :=
  let sentence := pad_to max_sentence_length PAD_ID sentence in
  let* _ := assert (len sentence =? max_sentence_length) in
  OK sentence.

(** The body of the outer loop.  The lists are updated in place; each
    example [tokenize_stories] returns is made of lists of its own, and the
    update is written here on the values. *)
Definition pad_story (max_sentence_length max_story_length max_query_length : Z)
    (ex : encoded) : result encoded :=
  let '(story, query, answer) := ex in
  let* story := mapM (pad_sentence max_sentence_length) story in
  let story :=
    pad_to max_story_length
      (replicate (Z.to_nat max_sentence_length) PAD_ID) story in
  let query := pad_to max_query_length PAD_ID query in
  let* _ := assert (len story =? max_story_length) in
  let* _ := assert (len query =? max_query_length) in
  OK (story, query, answer).

Definition pad_stories (stories : list encoded)
    (max_sentence_length max_story_length max_query_length : Z)
    : result (list encoded) :=
  mapM (pad_story max_sentence_length max_story_length max_query_length)
       stories.

(** ** [pad_stories], in place *)

(** The lists [pad_stories] appends to are objects of the caller.  The
    store holds them by address: the lists of ids (sentences and queries),
    and the lists of sentences (stories), whose elements are addresses of
    lists of ids.  An example is then the address of its story, the
    address of its query, and its answer. *)
Module InPlace.

Record heap : Set := {
  ids : list (list Z);
  sentences : list (list nat)
}.

Definition example_ref : Set := nat * nat * Z.

(** [l.append(x)] on the list of ids at address [r]. *)
Definition append_id (r : nat) (x : Z) (h : heap) : heap :=
  {| ids := alter (fun l => l ++ [x]) r (ids h);
     sentences := sentences h |}.

(** [for _ in range(n): l.append(PAD_ID)] *)
Fixpoint append_pad_times (n : nat) (r : nat) (h : heap) : heap :=
  match n with
  | O => h
  | S n' => append_pad_times n' r (append_id r PAD_ID h)
  end.

Definition pad_ids (target : Z) (r : nat) (h : heap) : heap :=
  append_pad_times (Z.to_nat (target - len (ids h !!! r))) r h.

(** Lines 107-110: the loop over the sentences of the story. *)
Fixpoint pad_sentences (max_sentence_length : Z) (story : list nat)
    (h : heap) : result heap :=
  match story with
  | [] => OK h
  | sentence :: story' =>
      let h := pad_ids max_sentence_length sentence h in
      let* _ := assert (len (ids h !!! sentence) =? max_sentence_length) in
      pad_sentences max_sentence_length story' h
  end.

(** [story.append([PAD_ID for _ in range(max_sentence_length)])]: the
    list appended is a new object. *)
Definition append_sentence (story : nat) (max_sentence_length : Z)
    (h : heap) : heap :=
  {| ids := ids h ++ [replicate (Z.to_nat max_sentence_length) PAD_ID];
     sentences := alter (fun l => l ++ [length (ids h)]) story (sentences h) |}.

Fixpoint append_sentence_times (n : nat) (story : nat)
    (max_sentence_length : Z) (h : heap) : heap :=
  match n with
  | O => h
  | S n' =>
      append_sentence_times n' story max_sentence_length
        (append_sentence story max_sentence_length h)
  end.

(** The body of the outer loop. *)
Definition pad_example
    (max_sentence_length max_story_length max_query_length : Z)
    (ex : example_ref) (h : heap) : result heap :=
  let '(story, query, _) := ex in
  let* h := pad_sentences max_sentence_length (sentences h !!! story) h in
  let h :=
    append_sentence_times
      (Z.to_nat (max_story_length - len (sentences h !!! story)))
      story max_sentence_length h in
  let h := pad_ids max_query_length query h in
  let* _ := assert (len (sentences h !!! story) =? max_story_length) in
  let* _ := assert (len (ids h !!! query) =? max_query_length) in
  OK h.

(** [pad_stories] returns the list it was given; the result here is the
    store it leaves. *)
Fixpoint pad_stories (stories : list example_ref)
    (max_sentence_length max_story_length max_query_length : Z)
    (h : heap) : result heap :=
  match stories with
  | [] => OK h
  | ex :: stories' =>
      let* h :=
        pad_example max_sentence_length max_story_length max_query_length
          ex h in
      pad_stories stories'
        max_sentence_length max_story_length max_query_length h
  end.

(** The value of an example in the store. *)
Definition read (h : heap) (ex : example_ref) : encoded :=
  let '(story, query, answer) := ex in
  ((fun sentence => ids h !!! sentence) <$> (sentences h !!! story),
   ids h !!! query, answer).

(** The lists of ids an example is made of. *)
Definition cells (h : heap) (ex : example_ref) : list nat :=
  (sentences h !!! ex.1.1) ++ [ex.1.2].

(** No list is part of two examples, or twice part of one; every address
    is one of the store. *)
Definition separated (h : heap) (stories : list example_ref) : Prop :=
  NoDup ((fun ex : example_ref => ex.1.1) <$> stories) ∧
  Forall (fun ex : example_ref => (ex.1.1 < length (sentences h))%nat)
         stories ∧
  NoDup (concat (cells h <$> stories)) ∧
  Forall (fun a => (a < length (ids h))%nat) (concat (cells h <$> stories)).

(** An example built from lists of its own, as the comprehensions of
    [tokenize_stories] build it. *)
Definition store (ex : encoded) (h : heap) : heap * example_ref :=
  let '(story, query, answer) := ex in
  let base := length (ids h) in
  ({| ids := ids h ++ story ++ [query];
      sentences := sentences h ++ [seq base (length story)] |},
   (length (sentences h), (base + length story)%nat, answer)).

Fixpoint store_all (stories : list encoded) (h : heap)
    : heap * list example_ref :=
  match stories with
  | [] => (h, [])
  | ex :: stories' =>
      let '(h, r) := store ex h in
      let '(h, rs) := store_all stories' h in
      (h, r :: rs)
  end.

Definition empty : heap := {| ids := []; sentences := [] |}.

(** One list used as the sentence of the story and as the query. *)
Definition shared : heap := {| ids := [[7; 8]]; sentences := [[0%nat]] |}.

End InPlace.

(** ** [parse_data] *)

(** The flags [parse_data] reads.  [source] stands for the archive at
    [FLAGS.source_path]: the lines of each member, by member name. *)
Record flags : Type := {
  dataset_id : string;
  only_1k : bool;
  source : string → option (list string)
}.

Record params : Set := {
  max_sentence_length : Z;
  story_maxlen : Z;
  query_maxlen : Z;
  vocab_size : Z
}.

Definition task_names : list string :=
  [ "qa1_single-supporting-fact"; "qa2_two-supporting-facts";
    "qa3_three-supporting-facts"; "qa4_two-arg-relations";
    "qa5_three-arg-relations"; "qa6_yes-no-questions"; "qa7_counting";
    "qa8_lists-sets"; "qa9_simple-negation"; "qa10_indefinite-knowledge";
    "qa11_basic-coreference"; "qa12_conjunction";
    "qa13_compound-coreference"; "qa14_time-reasoning";
    "qa15_basic-deduction"; "qa16_basic-induction";
    "qa17_positional-reasoning"; "qa18_size-reasoning"; "qa19_path-finding";
    "qa20_agents-motivations" ].

Definition task_ids : list string :=
  [ "qa1"; "qa2"; "qa3"; "qa4"; "qa5"; "qa6"; "qa7"; "qa8"; "qa9"; "qa10";
    "qa11"; "qa12"; "qa13"; "qa14"; "qa15"; "qa16"; "qa17"; "qa18"; "qa19";
    "qa20" ].

(** [dict(zip(task_ids, task_names))] *)
Definition task_names_dict : gmap string string :=
  list_to_map (zip task_ids task_names).

(** [tar.extractfile(path).readlines()] *)
Definition extractfile (FLAGS : flags) (path : string)
    : result (list string) :=
  match source FLAGS path with
  | Some lines => OK lines
  | None => Raise KeyError
  end.

(** [max(l)]: raises on the empty list. *)
Definition py_max (l : list Z) : result Z :=
  match l with
  | [] => Raise ValueError
  | x :: l' => OK (foldl Z.max x l')
  end.

Definition parse_data (FLAGS : flags)
    : result (list encoded * list encoded * params) :=
  let task_id := dataset_id FLAGS in
  let* task_name :=
    match task_names_dict !! task_id with
    | Some name => OK name
    | None => Raise KeyError
    end in
  let dir :=
    if only_1k FLAGS then "tasks_1-20_v1-2/en/" else "tasks_1-20_v1-2/en-10k/" in
  let stories_path_train := dir +:+ task_name +:+ "_train.txt" in
  let stories_path_test := dir +:+ task_name +:+ "_test.txt" in
  let truncated_story_length :=
    if String.eqb task_id "qa3" then 130 else 70 in
  let* f_train := extractfile FLAGS stories_path_train in
  let* f_test := extractfile FLAGS stories_path_test in
  let* stories_train := parse_stories f_train false in
  let* stories_test := parse_stories f_test false in
  let stories_train := truncate_stories stories_train truncated_story_length in
  let stories_test := truncate_stories stories_test truncated_story_length in
  let '(vocab, token_to_id) := get_tokenizer (stories_train ++ stories_test) in
  let vocab_size := len vocab in
  let* stories_token_train := tokenize_stories stories_train token_to_id in
  let* stories_token_test := tokenize_stories stories_test token_to_id in
  let stories_token_all := stories_token_train ++ stories_token_test in
  let story_lengths :=
    concat (map (fun '(story, _, _) => map len story) stories_token_all) in
  let* max_sentence_length := py_max story_lengths in
  let* max_story_length :=
    py_max (map (fun '(story, _, _) => len story) stories_token_all) in
  let* max_query_length :=
    py_max (map (fun '(_, query, _) => len query) stories_token_all) in
  let params :=
    {| max_sentence_length := max_sentence_length;
       story_maxlen := max_story_length;
       query_maxlen := max_query_length;
       vocab_size := vocab_size |} in
  let* stories_pad_train :=
    pad_stories stories_token_train
      max_sentence_length max_story_length max_query_length in
  let* stories_pad_test :=
    pad_stories stories_token_test
      max_sentence_length max_story_length max_query_length in
  OK (stories_pad_train, stories_pad_test, params).

(** ** [get_data] *)

(** [a % b] *)
Definition py_mod (a b : Z) : result Z :=
  if b =? 0 then Raise ZeroDivisionError else OK (a mod b).

(** The three arrays of a split: stories, queries, answers. *)
Definition arrays : Set := list (list (list Z)) * list (list Z) * list Z.

(** Lines 272-276 and 284-289, for one split; [np.array] keeps the
    elements and their order. *)
Definition split_arrays (stories : list encoded) (batch_size : Z)
    : result arrays :=
  let x := map (fun '(story, _, _) => story) stories in
  let xq := map (fun '(_, query, _) => query) stories in
  let y := map (fun '(_, _, answer) => answer) stories in
  let dataset_size := len x in
  let* buffer := py_mod dataset_size batch_size in
  let updated_shape := dataset_size - buffer in
  OK (Py.slice_to updated_shape x,
      Py.slice_to updated_shape xq,
      Py.slice_to updated_shape y).

Definition get_data (FLAGS : flags) (batch_size : Z)
    : result (arrays * arrays * params) :=
  let* (train, test, params) := parse_data FLAGS in
  let* train_arrays := split_arrays train batch_size in
  let* test_arrays := split_arrays test batch_size in
  OK (train_arrays, test_arrays, params).

(** A small archive, for the examples. *)
Definition sample_flags : flags :=
  {| dataset_id := "qa1";
     only_1k := true;
     source := fun path =>
       if String.eqb path "tasks_1-20_v1-2/en/qa1_single-supporting-fact_train.txt"
       then Some (sample_lines ++ sample_lines ++ sample_lines)
       else if String.eqb path "tasks_1-20_v1-2/en/qa1_single-supporting-fact_test.txt"
       then Some sample_lines
       else None |}.


(** ** Relations between inputs and outputs, for the statements *)

(** Every token is a key of the dictionary. *)
Definition all_known (token_to_id : gmap string Z) (tokens : list string)
    : Prop :=
  Forall (fun token => is_Some (token_to_id !! token)) tokens.

(** [ids] is [tokens] with each token replaced by its id. *)
Definition ids_of (token_to_id : gmap string Z)
    (tokens : list string) (ids : list Z) : Prop :=
  Forall2 (fun token i => token_to_id !! token = Some i) tokens ids.

(** [out] is [ex] with each token replaced by its id. *)
Definition encodes (token_to_id : gmap string Z) (ex : example)
    (out : encoded) : Prop :=
  let '(story, query, answer) := ex in
  let '(story_ids, query_ids, answer_id) := out in
  Forall2 (fun sentence ids => ids_of token_to_id (entry_tokens sentence) ids)
          story story_ids ∧
  ids_of token_to_id query query_ids ∧
  token_to_id !! answer = Some answer_id.

(** [out] has the shape of [ex]: as many sentences, each as long, and a
    query as long. *)
Definition same_shape (ex : example) (out : encoded) : Prop :=
  let '(story, query, _) := ex in
  let '(story_ids, query_ids, _) := out in
  length story_ids = length story ∧
  Forall2 (fun sentence ids => length ids = length (entry_tokens sentence))
          story story_ids ∧
  length query_ids = length query.

(** The three arrays of a list of examples, untrimmed. *)
Definition arrays_of (stories : list encoded) : arrays :=
  (map (fun '(story, _, _) => story) stories,
   map (fun '(_, query, _) => query) stories,
   map (fun '(_, _, answer) => answer) stories).

(** The first [n - n mod batch_size] of the [n] examples. *)
Definition first_batches (batch_size : Z) (stories : list encoded)
    : list encoded :=
  take (Z.to_nat (len stories - len stories mod batch_size)) stories.

(** An archive whose training file holds 105 questions. *)
Definition flags_105 : flags :=
  {| dataset_id := "qa1";
     only_1k := true;
     source := fun path =>
       if String.eqb path "tasks_1-20_v1-2/en/qa1_single-supporting-fact_train.txt"
       then Some (concat (replicate 105 sample_lines))
       else if String.eqb path "tasks_1-20_v1-2/en/qa1_single-supporting-fact_test.txt"
       then Some sample_lines
       else None |}.

(** The number of unique tokens other than the pad token. *)
Definition unique_non_pad (tokens : list string) : nat :=
  size (list_to_set (filter (fun token => token ≠ PAD_TOKEN) tokens)
          : gset string).

(** The number of unique tokens. *)
Definition unique_tokens (tokens : list string) : nat :=
  size (list_to_set tokens : gset string).

(** An answer that is the pad token itself. *)
Definition pad_answer : list example := [([], [], "_PAD")].

(** No sentence, story or query of the example is longer than its target. *)
Definition fits (max_sentence_length max_story_length max_query_length : Z)
    (ex : encoded) : Prop :=
  let '(story, query, _) := ex in
  Forall (fun sentence => len sentence ≤ max_sentence_length) story ∧
  len story ≤ max_story_length ∧
  len query ≤ max_query_length.

(** [out] is [ex] with pad ids after each sentence, all-pad sentences
    after the story and pad ids after the query, up to the targets. *)
Definition padded (max_sentence_length max_story_length max_query_length : Z)
    (ex out : encoded) : Prop :=
  let '(story, query, answer) := ex in
  let '(story', query', answer') := out in
  story'
    = ((fun sentence =>
          sentence
            ++ replicate (Z.to_nat (max_sentence_length - len sentence)) PAD_ID)
         <$> story)
      ++ replicate (Z.to_nat (max_story_length - len story))
           (replicate (Z.to_nat max_sentence_length) PAD_ID) ∧
  query' = query ++ replicate (Z.to_nat (max_query_length - len query)) PAD_ID ∧
  answer' = answer.

(** Every length of the example is its target. *)
Definition uniform (max_sentence_length max_story_length max_query_length : Z)
    (out : encoded) : Prop :=
  let '(story, query, _) := out in
  Forall (fun sentence => len sentence = max_sentence_length) story ∧
  len story = max_story_length ∧
  len query = max_query_length.

(** ** Further shapes, for the statements on the rest of the module *)


(** A string whose last character is not white space. *)
Definition ends_solid (s : string) : Prop :=
  ∃ front c, Py.chars s = front ++ [c] ∧ Py.is_space c = false.

(** A line that is a question: it parses up to its number, and what
    follows the number holds a TAB. *)
Definition is_question (line : string) : bool :=
  match line_number line with
  | OK (_, rest) => Py.contains Py.TAB rest
  | Raise _ => false
  end.

(** An entry that is a list of tokens, not the [''] of a question. *)
Definition is_words (x : entry) : bool :=
  match x with
  | Blank => false
  | Words _ => true
  end.

(** The ids of an encoded example: those of its sentences, of its query,
    and its answer. *)
Definition encoded_ids (out : encoded) : list Z :=
  let '(story, query, answer) := out in
  concat story ++ query ++ [answer].

(** A store with one example (story 0, query at 2) and a list of ids,
    at 0, that is no part of it. *)
Definition spare_store : InPlace.heap :=
  {| InPlace.ids := [[9]; [7; 8]; [5]];
     InPlace.sentences := [[1%nat]] |}.

(** The pieces of [parse_data], for the statements: the bound on the
    stories, the names of the two members of the archive, and what
    [parse_data] does with the two parsed splits (lines 240-267). *)
Definition truncated_story_length (task_id : string) : Z :=
  if String.eqb task_id "qa3" then 130 else 70.

Definition stories_path (FLAGS : flags) (task_name split : string) : string :=
  (if only_1k FLAGS then "tasks_1-20_v1-2/en/" else "tasks_1-20_v1-2/en-10k/")
  +:+ task_name +:+ split.

Definition assemble (bound : Z) (stories_train stories_test : list example)
    : result (list encoded * list encoded * params) :=
  let stories_train := truncate_stories stories_train bound in
  let stories_test := truncate_stories stories_test bound in
  let '(vocab, token_to_id) := get_tokenizer (stories_train ++ stories_test) in
  let vocab_size := len vocab in
  let* stories_token_train := tokenize_stories stories_train token_to_id in
  let* stories_token_test := tokenize_stories stories_test token_to_id in
  let stories_token_all := stories_token_train ++ stories_token_test in
  let story_lengths :=
    concat (map (fun '(story, _, _) => map len story) stories_token_all) in
  let* max_sentence_length := py_max story_lengths in
  let* max_story_length :=
    py_max (map (fun '(story, _, _) => len story) stories_token_all) in
  let* max_query_length :=
    py_max (map (fun '(_, query, _) => len query) stories_token_all) in
  let params :=
    {| max_sentence_length := max_sentence_length;
       story_maxlen := max_story_length;
       query_maxlen := max_query_length;
       vocab_size := vocab_size |} in
  let* stories_pad_train :=
    pad_stories stories_token_train
      max_sentence_length max_story_length max_query_length in
  let* stories_pad_test :=
    pad_stories stories_token_test
      max_sentence_length max_story_length max_query_length in
  OK (stories_pad_train, stories_pad_test, params).

(** ** [save_dataset] *)

(** The [features] dictionary of one example (lines 69-79): the story
    flattened to one list of ids, the query, and the answer as a list of
    one id. *)
Definition example_features (ex : encoded) : gmap string (list Z) :=
  let '(story, query, answer) := ex in
  let story_flat := concat story in
  let story_feature := story_flat in
  let query_feature := query in
  let answer_feature := [answer] in
  <["answer" := answer_feature]>
    (<["query" := query_feature]> (<["story" := story_feature]> ∅)).

(** The records [save_dataset] hands to the writer, in the order of the
    loop.  Their serialization and the file are TensorFlow's, and the
    [print]s go to the console: the records are kept here as the
    dictionaries they are built from. *)
Definition save_dataset (stories : list encoded)
    : list (gmap string (list Z)) :=
  map example_features stories.

(** A flat list cut into [count] rows of [width] ids. *)
Fixpoint rows (width count : nat) (flat : list Z) : list (list Z) :=
  match count with
  | O => []
  | S count' => take width flat :: rows width count' (drop width flat)
  end.

(** The query and the answer of an example. *)
Definition asked (ex : example) : list string * string :=
  let '(_, query, answer) := ex in (query, answer).

(* ================================================================= *)
(** * Properties *)

(** ** Properties of the string primitives *)

Module PyFacts.
Import Py PyShape.

Lemma chars_str l : chars (str l) = l.
Proof. apply list_ascii_of_string_of_list_ascii. Qed.

Lemma str_chars s : str (chars s) = s.
Proof. apply string_of_list_ascii_of_string. Qed.

Lemma is_space_lower c : is_space (lower_char c) = is_space c.
Proof. destruct c as [[] [] [] [] [] [] [] []]; reflexivity. Qed.

Lemma lower_char_idem c : lower_char (lower_char c) = lower_char c.
Proof. destruct c as [[] [] [] [] [] [] [] []]; reflexivity. Qed.

Lemma is_upper_lower c : is_upper (lower_char c) = false.
Proof. destruct c as [[] [] [] [] [] [] [] []]; reflexivity. Qed.

Lemma space_not_word c : is_space c = true → is_word c = false.
Proof. destruct c as [[] [] [] [] [] [] [] []]; vm_compute; congruence. Qed.

Lemma lstrip_no_lead s : no_lead (lstrip s).
Proof.
  induction s as [|c s IH]; simpl; [done|].
  destruct (is_space c) eqn:E; simpl; auto.
Qed.

Lemma lstrip_fix s : no_lead s → lstrip s = s.
Proof. destruct s as [|c s]; simpl; [done|]. by intros ->. Qed.

Lemma lstrip_idem s : lstrip (lstrip s) = lstrip s.
Proof. apply lstrip_fix, lstrip_no_lead. Qed.

Lemma lstrip_snoc s c :
  is_space c = false → lstrip (s ++ [c]) = lstrip s ++ [c].
Proof.
  intros Hc. induction s as [|d s IH]; simpl.
  - by rewrite Hc.
  - destruct (is_space d); [exact IH | done].
Qed.

Lemma rstrip_cons c s : is_space c = false → rstrip (c :: s) = c :: rstrip s.
Proof.
  intros Hc. unfold rstrip. simpl.
  by rewrite lstrip_snoc, rev_app_distr.
Qed.

Lemma rstrip_no_lead s : no_lead s → no_lead (rstrip s).
Proof.
  destruct s as [|c s]; simpl; [done|].
  intros Hc. by rewrite rstrip_cons.
Qed.

Lemma rstrip_idem s : rstrip (rstrip s) = rstrip s.
Proof. unfold rstrip. by rewrite rev_involutive, lstrip_idem. Qed.

Lemma strip_idem s : strip (strip s) = strip s.
Proof.
  unfold strip. rewrite chars_str.
  rewrite (lstrip_fix (rstrip _)) by apply rstrip_no_lead, lstrip_no_lead.
  by rewrite rstrip_idem.
Qed.

Lemma lstrip_lower s : lstrip (map lower_char s) = map lower_char (lstrip s).
Proof.
  induction s as [|c s IH]; simpl; [done|].
  rewrite is_space_lower. by destruct (is_space c).
Qed.

Lemma rstrip_lower s : rstrip (map lower_char s) = map lower_char (rstrip s).
Proof. unfold rstrip. by rewrite <- map_rev, lstrip_lower, map_rev. Qed.

Lemma strip_lower s : strip (lower s) = lower (strip s).
Proof.
  unfold strip, lower. rewrite !chars_str.
  by rewrite lstrip_lower, rstrip_lower.
Qed.

Lemma lower_idem s : lower (lower s) = lower s.
Proof.
  unfold lower. rewrite chars_str, map_map. f_equal.
  apply map_ext. intros c. apply lower_char_idem.
Qed.

Lemma truthy_spec s : truthy s ↔ s ≠ "".
Proof. destruct s; simpl; split; done. Qed.

Lemma truthy_lower s : truthy (lower s) = truthy s.
Proof. destruct s; reflexivity. Qed.

(** The pieces of [re.split], put back together, are the input. *)
Lemma concat_runs s :
  ∀ acc,
    concat (word_run acc s) = rev acc ++ s ∧
    concat (sep_run acc s) = rev acc ++ s.
Proof.
  induction s as [|c s IH]; intros acc; simpl.
  - by rewrite !app_nil_r.
  - destruct (is_word c); simpl.
    + destruct (IH (c :: acc)) as [-> _]. destruct (IH [c]) as [-> _].
      simpl. by rewrite <- !app_assoc.
    + destruct (IH (c :: acc)) as [_ ->]. destruct (IH [c]) as [_ ->].
      simpl. by rewrite <- !app_assoc.
Qed.

Lemma forallb_rev {A} (f : A → bool) l : forallb f (rev l) = forallb f l.
Proof.
  induction l as [|x l IH]; simpl; [done|].
  rewrite forallb_app, IH. simpl. rewrite andb_true_r. apply andb_comm.
Qed.

Lemma rev_not_nil {A} (l : list A) : l ≠ [] → rev l ≠ [].
Proof. intros Hne E. apply Hne. by rewrite <- (rev_involutive l), E. Qed.

Lemma word_run_head s :
  ∀ acc w rest, acc ≠ [] → word_run acc s = w :: rest → w ≠ [].
Proof.
  induction s as [|c s IH]; intros acc w rest Hne; simpl.
  - intros [= <- _]. by apply rev_not_nil.
  - destruct (is_word c).
    + by apply IH.
    + intros [= <- _]. by apply rev_not_nil.
Qed.

Lemma pieces_runs s :
  ∀ acc,
    (forallb is_word acc = true → pieces (word_run acc s)) ∧
    (acc ≠ [] → forallb (fun c => negb (is_word c)) acc = true →
     ∃ sep rest, sep_run acc s = sep :: rest ∧ sep ≠ [] ∧
       forallb (fun c => negb (is_word c)) sep = true ∧ pieces rest ∧
       (∀ w' sep' rest', rest = w' :: sep' :: rest' → w' ≠ [])).
Proof.
  induction s as [|c s IH]; intros acc; simpl.
  - split.
    + intros Hw. constructor. by rewrite forallb_rev.
    + intros Hne Hs. exists (rev acc), [[]]. repeat split.
      * by apply rev_not_nil.
      * by rewrite forallb_rev.
      * by constructor.
      * intros ??? [=].
  - destruct (is_word c) eqn:Ec.
    + split.
      * intros Hw. apply IH. simpl. by rewrite Ec.
      * intros Hne Hs. exists (rev acc), (word_run [c] s). repeat split.
        -- by apply rev_not_nil.
        -- by rewrite forallb_rev.
        -- apply IH. simpl. by rewrite Ec.
        -- intros w' sep' rest' E. by eapply word_run_head in E.
    + split.
      * intros Hw.
        destruct (proj2 (IH [c])) as (sep & rest & -> & ? & ? & ? & ?);
          [done | by simpl; rewrite Ec |].
        constructor; auto. by rewrite forallb_rev.
      * intros Hne Hs. apply IH; [done|]. simpl. by rewrite Ec.
Qed.

Lemma string_app_cons c (a b : string) :
  (String c a +:+ b)%string = String c (a +:+ b).
Proof. reflexivity. Qed.

Lemma string_app_nil_r (s : string) : (s +:+ "")%string = s.
Proof.
  induction s as [|c t IH]; [done|]. by rewrite string_app_cons, IH.
Qed.

Lemma str_app a b : str (a ++ b) = (str a +:+ str b)%string.
Proof.
  induction a as [|c a IH]; simpl; [done|].
  by rewrite string_app_cons, IH.
Qed.

Lemma concat_str l : String.concat "" (map str l) = str (concat l).
Proof.
  induction l as [|x l IH]; [done|].
  change (concat (x :: l)) with (x ++ concat l). rewrite str_app, <- IH.
  destruct l as [|y l]; simpl; [|done].
  by rewrite string_app_nil_r.
Qed.

Lemma re_split_concat s : String.concat "" (re_split s) = s.
Proof.
  unfold re_split. rewrite concat_str.
  destruct (concat_runs (chars s) []) as [-> _]. simpl.
  apply str_chars.
Qed.

Lemma re_split_pieces s : pieces (map chars (re_split s)).
Proof.
  unfold re_split. rewrite map_map.
  rewrite (map_ext _ id) by (intros; apply chars_str).
  rewrite map_id. by apply pieces_runs.
Qed.

End PyFacts.

(** ** Properties of [tokenize] *)

Lemma tokenize_token s t :
  t ∈ tokenize s →
  t ≠ "" ∧ Py.strip t = t ∧ Py.lower t = t ∧
  ∃ piece, piece ∈ Py.re_split s ∧ t = Py.lower (Py.strip piece).
Proof.
  unfold tokenize. intros (piece & -> & Hin)%list_elem_of_fmap.
  apply list_elem_of_filter in Hin as [Hne Hin].
  repeat split.
  - apply PyFacts.truthy_spec. by rewrite PyFacts.truthy_lower.
  - by rewrite PyFacts.strip_lower, PyFacts.strip_idem.
  - apply PyFacts.lower_idem.
  - by exists piece.
Qed.

(** C6: [tokenize] on the sentence of the specification, on the empty
    string, and in general: the pieces [re.split] cuts the string into are
    the alternating word pieces and runs of non-word characters of the
    input, in order; the tokens are the pieces that are not blank, stripped
    and in lower case. *)
Theorem tokenize_spec :
  tokenize "Mary went, to? the hall"
    = ["mary"; "went"; ","; "to"; "?"; "the"; "hall"] ∧
  tokenize "" = [] ∧
  (∀ s, String.concat "" (Py.re_split s) = s ∧
        PyShape.pieces (map Py.chars (Py.re_split s))) ∧
  (∀ s, tokenize s
        = map (fun piece => Py.lower (Py.strip piece))
            (filter (fun piece => Py.strip piece ≠ "") (Py.re_split s))) ∧
  (∀ s t, t ∈ tokenize s → t ≠ "" ∧ Py.strip t = t ∧ Py.lower t = t).
Proof.
  split; [by vm_compute|]. split; [by vm_compute|].
  split; [|split].
  - intros s. split; [apply PyFacts.re_split_concat | apply PyFacts.re_split_pieces].
  - intros s. unfold tokenize. f_equal.
    apply list_filter_iff. intros piece. apply PyFacts.truthy_spec.
  - intros s t Hin. destruct (tokenize_token s t Hin) as (? & ? & ? & _). done.
Qed.

(** ** Properties of [parse_stories] *)

(** C3: the three lines of the specification parse to one example, with
    the whole story, or with the supporting sentence only; the end of line
    that [readlines()] keeps makes no difference. *)
Theorem parse_stories_sample :
  parse_stories sample_lines false
    = OK [ ([ Words ["mary"; "moved"; "to"; "the"; "bathroom"; "."];
              Words ["john"; "went"; "to"; "the"; "hallway"; "."] ],
            ["where"; "is"; "mary"; "?"], "bathroom") ] ∧
  parse_stories sample_lines true
    = OK [ ([ Words ["mary"; "moved"; "to"; "the"; "bathroom"; "."] ],
            ["where"; "is"; "mary"; "?"], "bathroom") ] ∧
  parse_stories (map with_newline sample_lines) false
    = parse_stories sample_lines false ∧
  parse_stories (map with_newline sample_lines) true
    = parse_stories sample_lines true.
Proof. repeat split; vm_compute; reflexivity. Qed.

Lemma bind_assoc {A B C} (r : result A) (f : A → result B) (g : B → result C) :
  bind (bind r f) g = bind r (fun a => bind (f a) g).
Proof. by destruct r. Qed.

Lemma parse_loop_app only st l1 l2 :
  parse_loop only st (l1 ++ l2)
  = let* st' := parse_loop only st l1 in parse_loop only st' l2.
Proof.
  revert st. induction l1 as [|line l1 IH]; intros st; simpl; [done|].
  destruct (parse_line only st line) as [st'|e]; simpl; [apply IH | done].
Qed.

(** The examples already emitted play no part in a step. *)
Lemma parse_line_stories only stories story line :
  parse_line only (stories, story) line
  = let* (out, story') := parse_line only ([], story) line in
    OK (stories ++ out, story').
Proof.
  unfold parse_line.
  destruct (line_number line) as [[nid rest]|e]; simpl; [|done].
  destruct (Py.contains Py.TAB rest); simpl; [|by rewrite app_nil_r].
  destruct (Py.unpack3 _) as [[[query answer] supporting]|e]; simpl; [|done].
  destruct (select only _ supporting) as [substory|e]; simpl; done.
Qed.

Lemma parse_loop_stories only stories story lines :
  parse_loop only (stories, story) lines
  = let* (out, story') := parse_loop only ([], story) lines in
    OK (stories ++ out, story').
Proof.
  revert stories story.
  induction lines as [|line lines IH]; intros stories story;
    cbn [parse_loop bind].
  - by rewrite app_nil_r.
  - rewrite (parse_line_stories only stories).
    destruct (parse_line only ([], story) line) as [[out story']|e];
      simpl; [|done].
    rewrite (IH out), (IH (stories ++ out)).
    destruct (parse_loop only ([], story') lines) as [[out' story'']|e];
      simpl; [|done].
    by rewrite app_assoc.
Qed.

(** A line numbered 1: the step does not look at the history. *)
Lemma parse_line_restart only stories story line rest :
  line_number line = OK (1, rest) →
  parse_line only (stories, story) line = parse_line only (stories, []) line.
Proof. intros H. unfold parse_line. by rewrite H. Qed.

(** Each line takes one position of the history. *)
Lemma parse_line_history only stories story line stories' story' :
  parse_line only (stories, story) line = OK (stories', story') →
  ∃ nid rest x,
    line_number line = OK (nid, rest) ∧
    story' = restart nid story ++ [x] ∧
    x = (if Py.contains Py.TAB rest then Blank else Words (tokenize rest)).
Proof.
  unfold parse_line.
  destruct (line_number line) as [[nid rest]|e]; simpl; [|done].
  destruct (Py.contains Py.TAB rest) eqn:Htab; simpl.
  - destruct (Py.unpack3 _) as [[[query answer] supporting]|e]; simpl; [|done].
    destruct (select only _ supporting) as [substory|e]; simpl; [|done].
    intros [= <- <-]. exists nid, rest, Blank. by rewrite Htab.
  - intros [= <- <-]. eexists nid, rest, _. by rewrite Htab.
Qed.

(** C4: a line numbered 1 empties the history, whatever it held: after
    the line the history is that line alone, the rest of the run does not
    depend on what came before, and the examples emitted from that line on
    are those of parsing the lines from it on their own. *)
Theorem parse_stories_restart only line rest :
  line_number line = OK (1, rest) →
  (∀ story, restart 1 story = []) ∧
  (∀ stories story stories' story',
     parse_line only (stories, story) line = OK (stories', story') →
     length story' = 1%nat) ∧
  (∀ stories story post,
     parse_loop only (stories, story) (line :: post)
     = parse_loop only (stories, []) (line :: post)) ∧
  (∀ pre post emitted story,
     parse_loop only ([], []) pre = OK (emitted, story) →
     parse_stories (pre ++ line :: post) only
     = let* later := parse_stories (line :: post) only in
       OK (emitted ++ later)).
Proof.
  intros Hline. split; [done|]. split; [|split].
  - intros stories story stories' story' Hstep.
    apply parse_line_history in Hstep as (nid & rest' & x & Hn & -> & _).
    rewrite Hline in Hn. by injection Hn as <- <-.
  - intros stories story post. cbn [parse_loop].
    by rewrite (parse_line_restart only stories story line rest).
  - intros pre post emitted story Hpre.
    unfold parse_stories. rewrite parse_loop_app, Hpre.
    cbn [bind parse_loop].
    rewrite (parse_line_restart only emitted story line rest) by done.
    rewrite (parse_line_stories only emitted).
    destruct (parse_line only ([], []) line) as [[out story']|e];
      simpl; [|done].
    rewrite (parse_loop_stories only (emitted ++ out)).
    rewrite (parse_loop_stories only out).
    destruct (parse_loop only ([], story') post) as [[out' story'']|e];
      simpl; [|done].
    by rewrite app_assoc.
Qed.

Lemma parse_stories_restart_witness :
  line_number "1 Mary moved to the bathroom."
    = OK (1, "Mary moved to the bathroom.") ∧
  parse_loop false ([], [Blank; Blank; Blank])
    ["1 Mary moved to the bathroom."]
  = parse_loop false ([], []) ["1 Mary moved to the bathroom."].
Proof.
  split; [reflexivity|].
  apply (parse_stories_restart false "1 Mary moved to the bathroom."
           "Mary moved to the bathroom.").
  reflexivity.
Defined.

Lemma entry_truthy_sentence x : entry_truthy x → sentence_entry x.
Proof. destruct x as [|[|t l]]; simpl; try done. intros _. by eexists. Qed.

Lemma parse_line_full_story stories story line stories' story' :
  parse_line false (stories, story) line = OK (stories', story') →
  Forall (fun ex : example => Forall sentence_entry ex.1.1) stories →
  Forall (fun ex : example => Forall sentence_entry ex.1.1) stories'.
Proof.
  unfold parse_line.
  destruct (line_number line) as [[nid rest]|e]; simpl; [|done].
  destruct (Py.contains Py.TAB rest); simpl.
  - destruct (Py.unpack3 _) as [[[query answer] supporting]|e]; simpl; [|done].
    intros [= <- <-] Hall. apply Forall_app. split; [done|].
    constructor; [|done]. simpl.
    apply Forall_forall. intros x [Hx _]%list_elem_of_filter.
    by apply entry_truthy_sentence.
  - by intros [= <- <-].
Qed.

Lemma parse_loop_full_story lines :
  ∀ stories story stories' story',
    parse_loop false (stories, story) lines = OK (stories', story') →
    Forall (fun ex : example => Forall sentence_entry ex.1.1) stories →
    Forall (fun ex : example => Forall sentence_entry ex.1.1) stories'.
Proof.
  induction lines as [|line lines IH]; intros stories story stories' story';
    cbn [parse_loop].
  - by intros [= <- <-].
  - destruct (parse_line false (stories, story) line) as [[s1 h1]|e] eqn:E;
      simpl; [|done].
    intros Hloop Hall. eapply IH; [exact Hloop|].
    by eapply parse_line_full_story.
Qed.

(** Within a block the history grows by the entry of each line, in order:
    its i-th entry is the one of the i-th line of the block. *)
Lemma parse_loop_history only lines :
  ∀ stories story stories' story',
    parse_loop only (stories, story) lines = OK (stories', story') →
    Forall continues lines →
    ∃ entries, mapM line_entry lines = OK entries ∧
               story' = story ++ entries.
Proof.
  induction lines as [|line lines IH]; intros stories story stories' story';
    cbn [parse_loop mapM].
  - intros [= <- <-] _. exists []. by rewrite app_nil_r.
  - destruct (parse_line only (stories, story) line) as [[s1 h1]|e] eqn:E;
      simpl; [|done].
    intros Hloop [(nid & rest & Hn & Hne) Hall]%Forall_cons_1.
    apply parse_line_history in E as (nid' & rest' & x & Hn' & -> & ->).
    rewrite Hn in Hn'. injection Hn' as <- <-.
    destruct (IH _ _ _ _ Hloop Hall) as (entries & -> & ->).
    unfold line_entry at 1. rewrite Hn. simpl.
    eexists. split; [done|].
    unfold restart. destruct (Z.eqb_spec nid 1) as [?|_]; [done|].
    by rewrite <- app_assoc.
Qed.

(** A 1-based index within the history selects the entry at that place. *)
Lemma getitem_one_based {A} (l : list A) (i : Z) :
  1 ≤ i ≤ Z.of_nat (length l) →
  ∃ x, Py.getitem l (i - 1) = OK x ∧ l !! Z.to_nat (i - 1) = Some x.
Proof.
  intros Hi. unfold Py.getitem.
  destruct (Z.ltb_spec (i - 1) 0) as [?|_]; [lia|].
  destruct (Z.ltb_spec (i - 1) 0) as [?|_]; [lia|].
  destruct (Z.leb_spec (Z.of_nat (length l)) (i - 1)) as [?|_]; [lia|].
  simpl. destruct (l !! Z.to_nat (i - 1)) as [x|] eqn:E; [by exists x|].
  apply lookup_ge_None in E. lia.
Qed.

(** C5: a question line leaves [''] as its entry of the history, so every
    line, question or not, takes one position and the 1-based indices of
    later questions count the questions before them; without the filter
    on supporting facts the story of the example is the history without
    its empty entries, and no example of [parse_stories] holds a ['']. *)
Theorem parse_stories_sentinel :
  (∀ only stories story line nid rest stories' story',
     line_number line = OK (nid, rest) →
     Py.contains Py.TAB rest = true →
     parse_line only (stories, story) line = OK (stories', story') →
     story' = restart nid story ++ [Blank] ∧
     ∃ substory query answer,
       stories' = stories ++ [(substory, query, answer)] ∧
       (only = false →
        substory = filter (fun x => entry_truthy x) (restart nid story))) ∧
  (∀ only stories story line nid rest stories' story',
     line_number line = OK (nid, rest) →
     parse_line only (stories, story) line = OK (stories', story') →
     length story' = S (length (restart nid story))) ∧
  (∀ only stories story lines stories' story',
     parse_loop only (stories, story) lines = OK (stories', story') →
     Forall continues lines →
     ∃ entries, mapM line_entry lines = OK entries ∧
                story' = story ++ entries) ∧
  (∀ (story : list entry) i,
     1 ≤ i ≤ Z.of_nat (length story) →
     ∃ x, Py.getitem story (i - 1) = OK x ∧
          story !! Z.to_nat (i - 1) = Some x) ∧
  (∀ lines stories,
     parse_stories lines false = OK stories →
     ∀ story query answer,
       (story, query, answer) ∈ stories →
       (Blank ∉ story) ∧ Forall sentence_entry story) ∧
  parse_stories two_questions true
    = OK [ ([ Words ["mary"; "moved"; "to"; "the"; "bathroom"; "."] ],
            ["where"; "is"; "mary"; "?"], "bathroom");
           ([ Words ["john"; "went"; "to"; "the"; "hallway"; "."] ],
            ["where"; "is"; "john"; "?"], "hallway") ] ∧
  parse_stories two_questions false
    = OK [ ([ Words ["mary"; "moved"; "to"; "the"; "bathroom"; "."] ],
            ["where"; "is"; "mary"; "?"], "bathroom");
           ([ Words ["mary"; "moved"; "to"; "the"; "bathroom"; "."];
              Words ["john"; "went"; "to"; "the"; "hallway"; "."] ],
            ["where"; "is"; "john"; "?"], "hallway") ].
Proof.
  split; [|split; [|split; [|split; [|split; [|split]]]]].
  - intros only stories story line nid rest stories' story' Hn Htab.
    unfold parse_line. rewrite Hn. simpl. rewrite Htab.
    destruct (Py.unpack3 _) as [[[query answer] supporting]|e]; simpl; [|done].
    destruct (select only _ supporting) as [substory|e] eqn:Hsel; simpl; [|done].
    intros [= <- <-]. split; [done|].
    exists substory, (tokenize query), answer. split; [done|].
    intros ->. simpl in Hsel. by injection Hsel as <-.
  - intros only stories story line nid rest stories' story' Hn Hstep.
    apply parse_line_history in Hstep as (nid' & rest' & x & Hn' & -> & _).
    rewrite Hn in Hn'. injection Hn' as <- <-.
    rewrite length_app. simpl. lia.
  - intros only stories story lines stories' story'.
    apply parse_loop_history.
  - intros story i. apply getitem_one_based.
  - intros lines stories. unfold parse_stories.
    destruct (parse_loop false ([], []) lines) as [[out h]|e] eqn:E;
      simpl; [|done].
    intros [= <-] story query answer Hin.
    apply parse_loop_full_story in E; [|done].
    rewrite Forall_forall in E. specialize (E _ Hin). simpl in E.
    split; [|done].
    intros HB. rewrite Forall_forall in E. destruct (E _ HB) as (? & ? & _).
    done.
  - by vm_compute.
  - by vm_compute.
Qed.

(** ** [mapM] *)

Lemma mapM_OK {A B} (f : A → result B) l out :
  mapM f l = OK out ↔ Forall2 (fun x y => f x = OK y) l out.
Proof.
  revert out. induction l as [|x l IH]; intros out; simpl.
  - split; [by intros [= <-]; constructor | by inversion 1].
  - destruct (f x) as [y|e] eqn:Ex; simpl.
    + destruct (mapM f l) as [ys|e] eqn:El; simpl.
      * split.
        -- intros [= <-]. constructor; [done|]. by apply IH.
        -- inversion 1 as [|? y' ? ys' Hy Hys]; subst.
           rewrite Ex in Hy. injection Hy as <-.
           apply IH in Hys. by injection Hys as <-.
      * split; [done|].
        inversion 1 as [|? y' ? ys' Hy Hys]; subst. by apply IH in Hys.
    + split; [done|].
      inversion 1 as [|? y' ? ys' Hy Hys]; subst. by rewrite Ex in Hy.
Qed.

Lemma mapM_Raise {A B} (f : A → result B) l e :
  mapM f l = Raise e → ∃ x, x ∈ l ∧ f x = Raise e.
Proof.
  induction l as [|x l IH]; simpl; [done|].
  destruct (f x) as [y|e'] eqn:Ex; simpl.
  - destruct (mapM f l) as [ys|e'']; simpl; [done|].
    intros [= ->]. destruct IH as (x' & ? & ?); [done|].
    exists x'. split; [by right | done].
  - intros [= ->]. exists x. split; [by left | done].
Qed.

Lemma mapM_total {A B} (f : A → result B) l :
  Forall (fun x => ∃ y, f x = OK y) l → ∃ out, mapM f l = OK out.
Proof.
  induction 1 as [|x l [y Hy] _ [ys Hys]]; simpl; [by eexists|].
  rewrite Hy, Hys. by eexists.
Qed.

Lemma mapM_length {A B} (f : A → result B) l out :
  mapM f l = OK out → length out = length l.
Proof. intros H%mapM_OK. symmetry. exact (Forall2_length _ _ _ H). Qed.

(** ** Properties of [truncate_stories] *)

Lemma slice_from_last {A} (n : Z) (l : list A) :
  0 < n →
  Py.slice_from (- n) l = drop (length l - Z.to_nat n) l.
Proof.
  intros Hn. unfold Py.slice_from.
  destruct (Z.ltb_spec (- n) 0) as [_|?]; [|lia].
  f_equal. lia.
Qed.

Lemma slice_from_zero {A} (l : list A) : Py.slice_from (- 0) l = l.
Proof. unfold Py.slice_from. simpl. by rewrite Z.min_l, drop_0 by lia. Qed.

(** For a bound of at least 1 the story is cut to its last sentences. *)
Lemma truncate_stories_positive {S Q A : Type}
    (stories : list (list S * Q * A)) (max_length : Z) :
  0 < max_length →
  Forall2 (fun ex out =>
             let '(story, query, answer) := ex in
             let '(story', query', answer') := out in
             query' = query ∧ answer' = answer ∧
             story' = drop (length story - Z.to_nat max_length) story ∧
             len story' = Z.min (len story) max_length ∧
             ∃ dropped, story = dropped ++ story')
          stories (truncate_stories stories max_length).
Proof.
  intros Hn. unfold truncate_stories.
  induction stories as [|[[story query] answer] stories IH]; simpl;
    constructor; [|done].
  rewrite slice_from_last by done. repeat split.
  - unfold len. rewrite length_drop. lia.
  - exists (take (length story - Z.to_nat max_length) story).
    by rewrite take_drop.
Qed.

(** A story of 200 sentences cut at 70 keeps its last 70. *)
Lemma truncate_stories_200_70 {S Q A : Type}
    (story : list S) (query : Q) (answer : A) :
  length story = 200%nat →
  truncate_stories [(story, query, answer)] 70
    = [(drop 130 story, query, answer)] ∧
  length (drop 130 story) = 70%nat.
Proof.
  intros Hlen. unfold truncate_stories. simpl.
  rewrite slice_from_last by lia. rewrite Hlen. split; [done|].
  rewrite length_drop. lia.
Qed.

(** C7: with the bound 0, [story[-0:]] is [story[0:]]: [truncate_stories]
    returns every story whole, where a bound of 0 sentences asks for the
    empty story. *)
Theorem truncate_stories_zero :
  (∀ (S Q A : Type) (stories : list (list S * Q * A)),
     truncate_stories stories 0 = stories) ∧
  truncate_stories [([["a"]; ["b"]], ["q"], "x")] 0
    = [([["a"]; ["b"]], ["q"], "x")].
Proof.
  split; [|reflexivity].
  intros S Q A stories. unfold truncate_stories.
  induction stories as [|[[story query] answer] stories IH]; simpl; [done|].
  by rewrite IH, (slice_from_zero story).
Qed.

(** ** Properties of [tokenize_stories] *)

Lemma getkey_OK d token i : getkey d token = OK i ↔ d !! token = Some i.
Proof.
  unfold getkey. destruct (d !! token) as [j|]; split; try done.
  - by intros [= ->].
  - by intros [= ->].
Qed.

Lemma getkey_Raise d token e : getkey d token = Raise e → e = KeyError.
Proof.
  unfold getkey. destruct (d !! token) as [j|]; [done|]. by intros [= <-].
Qed.

Lemma getkey_known d token : is_Some (d !! token) ↔ ∃ i, getkey d token = OK i.
Proof.
  unfold getkey. destruct (d !! token) as [i|]; split.
  - intros _. by exists i.
  - intros _. by exists i.
  - by intros [? ?].
  - by intros [? ?].
Qed.

Lemma mapM_getkey_OK d tokens ids :
  mapM (getkey d) tokens = OK ids ↔ ids_of d tokens ids.
Proof.
  rewrite mapM_OK. unfold ids_of.
  split; intros H; (eapply Forall2_impl; [exact H|]);
    intros ??; apply getkey_OK.
Qed.

Lemma mapM_getkey_Raise d tokens e :
  mapM (getkey d) tokens = Raise e → e = KeyError.
Proof. intros (x & _ & H)%mapM_Raise. by eapply getkey_Raise. Qed.

Lemma mapM_getkey_total d tokens :
  all_known d tokens → ∃ ids, mapM (getkey d) tokens = OK ids.
Proof.
  intros H. apply mapM_total. eapply Forall_impl; [exact H|].
  intros token. apply getkey_known.
Qed.

Lemma ids_of_known d tokens ids : ids_of d tokens ids → all_known d tokens.
Proof. induction 1; constructor; [by eexists | done]. Qed.

Lemma tokenize_story_OK d ex out :
  tokenize_story d ex = OK out ↔ encodes d ex out.
Proof.
  destruct ex as [[story query] answer], out as [[story' query'] answer'].
  unfold tokenize_story, encodes.
  destruct (mapM _ story) as [s1|e] eqn:Es; simpl.
  - apply mapM_OK in Es.
    assert (Hs : Forall2 (fun sentence ids =>
                   ids_of d (entry_tokens sentence) ids) story s1).
    { eapply Forall2_impl; [exact Es|]. intros ??. apply mapM_getkey_OK. }
    assert (Huniq : ∀ s2, Forall2 (fun sentence ids =>
                   ids_of d (entry_tokens sentence) ids) story s2 → s2 = s1).
    { intros s2 H2.
      assert (H2' : Forall2 (fun sentence ids =>
                mapM (getkey d) (entry_tokens sentence) = OK ids) story s2).
      { eapply Forall2_impl; [exact H2|]. intros ??. apply mapM_getkey_OK. }
      apply mapM_OK in H2', Es. rewrite H2' in Es. by injection Es. }
    destruct (mapM (getkey d) query) as [q1|e] eqn:Eq; simpl.
    + destruct (getkey d answer) as [a1|e] eqn:Ea; simpl.
      * apply getkey_OK in Ea. apply mapM_getkey_OK in Eq. split.
        -- by intros [= <- <- <-].
        -- intros (H1 & H2 & H3). apply Huniq in H1 as ->.
           apply mapM_getkey_OK in H2, Eq. rewrite H2 in Eq.
           injection Eq as ->. rewrite H3 in Ea. by injection Ea as ->.
      * split; [done|]. intros (_ & _ & H3).
        apply getkey_OK in H3. congruence.
    + split; [done|]. intros (_ & H2 & _).
      apply mapM_getkey_OK in H2. congruence.
  - split; [done|]. intros (H1 & _ & _).
    assert (H1' : Forall2 (fun sentence ids =>
              mapM (getkey d) (entry_tokens sentence) = OK ids) story story').
    { eapply Forall2_impl; [exact H1|]. intros ??. apply mapM_getkey_OK. }
    apply mapM_OK in H1'. congruence.
Qed.

Lemma tokenize_story_Raise d ex e :
  tokenize_story d ex = Raise e → e = KeyError.
Proof.
  destruct ex as [[story query] answer]. unfold tokenize_story.
  destruct (mapM _ story) as [s1|e1] eqn:Es; simpl.
  - destruct (mapM (getkey d) query) as [q1|e1] eqn:Eq; simpl.
    + destruct (getkey d answer) as [a1|e1] eqn:Ea; simpl; [done|].
      intros [= <-]. by eapply getkey_Raise.
    + intros [= <-]. by eapply mapM_getkey_Raise.
  - intros [= <-]. apply mapM_Raise in Es as (x & _ & Hx).
    by eapply mapM_getkey_Raise.
Qed.

Lemma encodes_known d ex out :
  encodes d ex out → all_known d (example_tokens ex).
Proof.
  destruct ex as [[story query] answer], out as [[story' query'] answer'].
  intros (H1 & H2 & H3). unfold example_tokens, all_known.
  rewrite !Forall_app. repeat split.
  - clear -H1. induction H1 as [|x y l k Hxy _ IH]; simpl; [done|].
    apply Forall_app. split; [by eapply ids_of_known | done].
  - by eapply ids_of_known.
  - constructor; [by eexists | done].
Qed.

Lemma tokenize_story_total d ex :
  all_known d (example_tokens ex) → ∃ out, tokenize_story d ex = OK out.
Proof.
  destruct ex as [[story query] answer]. unfold example_tokens, all_known.
  rewrite !Forall_app. intros (H1 & H2 & H3).
  unfold tokenize_story.
  destruct (mapM_total
              (fun sentence => mapM (getkey d) (entry_tokens sentence)) story)
    as [s1 ->].
  { clear -H1. induction story as [|x story IH]; simpl in *; [done|].
    apply Forall_app in H1 as [Hx Hs].
    constructor; [by apply mapM_getkey_total | by apply IH]. }
  destruct (mapM_getkey_total d query H2) as [q1 ->].
  apply Forall_cons_1 in H3 as [[a1 Ha]%getkey_known _]. rewrite Ha.
  by eexists.
Qed.

Lemma tokenize_stories_OK stories d out :
  tokenize_stories stories d = OK out ↔ Forall2 (encodes d) stories out.
Proof.
  unfold tokenize_stories. rewrite mapM_OK.
  split; intros H; (eapply Forall2_impl; [exact H|]);
    intros ??; apply tokenize_story_OK.
Qed.

Lemma tokenize_stories_total stories d :
  all_known d (tokens_all stories) →
  ∃ out, tokenize_stories stories d = OK out.
Proof.
  intros H. apply mapM_total. unfold all_known, tokens_all in H.
  induction stories as [|ex stories IH]; simpl in *; [done|].
  apply Forall_app in H as [Hex Hs].
  constructor; [by apply tokenize_story_total | by apply IH].
Qed.

Lemma tokenize_stories_known stories d out :
  tokenize_stories stories d = OK out → all_known d (tokens_all stories).
Proof.
  intros H%tokenize_stories_OK. unfold all_known, tokens_all.
  induction H as [|ex o l k Hex _ IH]; simpl; [done|].
  apply Forall_app. split; [by eapply encodes_known | done].
Qed.

Lemma tokenize_stories_Raise stories d e :
  tokenize_stories stories d = Raise e → e = KeyError.
Proof.
  intros (ex & _ & H)%mapM_Raise. by eapply tokenize_story_Raise.
Qed.

(** Two runs: every token known, and one token missing. *)
Lemma tokenize_stories_sample :
  tokenize_stories [([Words ["a"; "b"]; Blank], ["a"; "?"], "b")]
    {[ "a" := 1; "?" := 2; "b" := 3 ]}
  = OK [([[1; 3]; []], [1; 2], 3)] ∧
  tokenize_stories [([Words ["a"; "b"]; Blank], ["a"; "?"], "b")]
    {[ "a" := 1; "b" := 3 ]}
  = Raise KeyError.
Proof. split; reflexivity. Qed.

(** C8: when every token of the examples is a key of [token_to_id], the
    result holds the examples with each token replaced by its id, in every
    sentence, query and answer; when some token is not, the call raises
    [KeyError] and returns nothing. *)
Theorem tokenize_stories_lookup (stories : list example)
    (token_to_id : gmap string Z) :
  (all_known token_to_id (tokens_all stories) →
   ∃ out, tokenize_stories stories token_to_id = OK out ∧
          Forall2 (encodes token_to_id) stories out) ∧
  (¬ all_known token_to_id (tokens_all stories) →
   tokenize_stories stories token_to_id = Raise KeyError).
Proof.
  split.
  - intros [out Hout]%tokenize_stories_total.
    exists out. split; [done|]. by apply tokenize_stories_OK.
  - intros Hnot.
    destruct (tokenize_stories stories token_to_id) as [out|e] eqn:E.
    + destruct Hnot. by eapply tokenize_stories_known.
    + by apply tokenize_stories_Raise in E as ->.
Qed.

Lemma encodes_same_shape d ex out : encodes d ex out → same_shape ex out.
Proof.
  destruct ex as [[story query] answer], out as [[story' query'] answer'].
  intros (H1 & H2 & _). unfold ids_of in *. repeat split.
  - symmetry. exact (Forall2_length _ _ _ H1).
  - eapply Forall2_impl; [exact H1|]. intros sentence ids H.
    symmetry. exact (Forall2_length _ _ _ H).
  - symmetry. exact (Forall2_length _ _ _ H2).
Qed.

(** C10: [tokenize_stories] keeps the shape: as many examples, in the
    same order, each story with as many sentences, each sentence and each
    query with as many elements; the elements are the ids of the tokens at
    the same positions. *)
Theorem tokenize_stories_shape (stories : list example)
    (token_to_id : gmap string Z) :
  all_known token_to_id (tokens_all stories) →
  ∃ out, tokenize_stories stories token_to_id = OK out ∧
         length out = length stories ∧
         Forall2 same_shape stories out ∧
         Forall2 (encodes token_to_id) stories out.
Proof.
  intros [out Hout]%tokenize_stories_total. exists out.
  pose proof (proj1 (tokenize_stories_OK _ _ _) Hout) as Henc.
  repeat split; [done| |  |done].
  - symmetry. exact (Forall2_length _ _ _ Henc).
  - eapply Forall2_impl; [exact Henc|]. apply encodes_same_shape.
Qed.

Lemma tokenize_stories_shape_witness :
  all_known {[ "a" := 1; "?" := 2; "b" := 3 ]}
    (tokens_all [([Words ["a"; "b"]; Blank], ["a"; "?"], "b")]) ∧
  ∃ out,
    tokenize_stories [([Words ["a"; "b"]; Blank], ["a"; "?"], "b")]
      {[ "a" := 1; "?" := 2; "b" := 3 ]} = OK out ∧
    length out = 1%nat ∧
    Forall2 same_shape [([Words ["a"; "b"]; Blank], ["a"; "?"], "b")] out ∧
    Forall2 (encodes {[ "a" := 1; "?" := 2; "b" := 3 ]})
      [([Words ["a"; "b"]; Blank], ["a"; "?"], "b")] out.
Proof.
  assert (H : all_known {[ "a" := 1; "?" := 2; "b" := 3 ]}
    (tokens_all [([Words ["a"; "b"]; Blank], ["a"; "?"], "b")])).
  { repeat constructor; by eexists. }
  split; [exact H|].
  exact (tokenize_stories_shape _ _ H).
Defined.

(** ** Properties of [get_data] *)

Lemma len_nonneg {A} (l : list A) : 0 ≤ len l.
Proof. unfold len. lia. Qed.

Lemma len_fmap {A B} (f : A → B) (l : list A) : len (f <$> l) = len l.
Proof. unfold len. by rewrite length_fmap. Qed.

Lemma trim_bounds (n b : Z) :
  0 ≤ n → 0 < b → 0 ≤ n - n mod b ≤ n ∧ n - b < n - n mod b.
Proof.
  intros Hn Hb. pose proof (Z.mod_pos_bound n b Hb).
  pose proof (Z.mod_le n b Hn Hb). lia.
Qed.

Lemma slice_to_take {A} (k : Z) (l : list A) :
  0 ≤ k ≤ len l → Py.slice_to k l = take (Z.to_nat k) l.
Proof.
  intros Hk. unfold Py.slice_to. fold (len l).
  destruct (Z.ltb_spec k 0) as [?|_]; [lia|]. by rewrite Z.min_l by lia.
Qed.

Lemma split_arrays_trim stories batch_size :
  0 < batch_size →
  split_arrays stories batch_size
    = OK (arrays_of (first_batches batch_size stories)).
Proof.
  intros Hb. unfold split_arrays, py_mod.
  destruct (Z.eqb_spec batch_size 0) as [?|_]; [lia|]. simpl.
  rewrite len_fmap.
  pose proof (trim_bounds (len stories) batch_size (len_nonneg _) Hb) as [Hk _].
  unfold arrays_of, first_batches.
  rewrite !slice_to_take by (by rewrite len_fmap).
  by rewrite !fmap_take.
Qed.

Lemma first_batches_len stories batch_size :
  0 < batch_size →
  len (first_batches batch_size stories)
    = len stories - len stories mod batch_size.
Proof.
  intros Hb.
  pose proof (trim_bounds (len stories) batch_size (len_nonneg _) Hb) as [Hk _].
  unfold first_batches, len in *. rewrite length_take. lia.
Qed.

(** The whole pipeline on the small archive: three training examples and
    one test example, already of the maximal lengths. *)
Lemma parse_data_sample :
  parse_data sample_flags
  = OK ([ ([[7; 8; 10; 9; 3; 1]; [6; 11; 10; 9; 4; 1]], [12; 5; 7; 2], 3);
          ([[7; 8; 10; 9; 3; 1]; [6; 11; 10; 9; 4; 1]], [12; 5; 7; 2], 3);
          ([[7; 8; 10; 9; 3; 1]; [6; 11; 10; 9; 4; 1]], [12; 5; 7; 2], 3) ],
        [ ([[7; 8; 10; 9; 3; 1]; [6; 11; 10; 9; 4; 1]], [12; 5; 7; 2], 3) ],
        {| max_sentence_length := 6; story_maxlen := 2;
           query_maxlen := 4; vocab_size := 13 |}) ∧
  get_data sample_flags 0 = Raise ZeroDivisionError.
Proof. split; by vm_compute. Qed.

(** C9: for a batch size of at least 1, [get_data] returns, for each
    split, the arrays of the first [n - n mod batch_size] of the [n]
    examples [parse_data] returns, in their order: the largest multiple of
    the batch size that is at most [n]; of 105 examples with batches of
    32, 96 are kept. *)
Theorem get_data_trim (FLAGS : flags) (batch_size : Z)
    (train test : list encoded) (p : params) :
  0 < batch_size →
  parse_data FLAGS = OK (train, test, p) →
  get_data FLAGS batch_size
    = OK (arrays_of (first_batches batch_size train),
          arrays_of (first_batches batch_size test), p) ∧
  (∀ stories,
     first_batches batch_size stories `prefix_of` stories ∧
     len (first_batches batch_size stories)
       = len stories - len stories mod batch_size ∧
     len (first_batches batch_size stories) mod batch_size = 0 ∧
     len stories - batch_size < len (first_batches batch_size stories)
       ≤ len stories) ∧
  (batch_size = 32 → len train = 105 →
   len (first_batches batch_size train) = 96).
Proof.
  intros Hb Hparse. split; [|split].
  - unfold get_data. rewrite Hparse. simpl.
    by rewrite !split_arrays_trim.
  - intros stories.
    pose proof (trim_bounds (len stories) batch_size (len_nonneg _) Hb).
    rewrite first_batches_len by done. repeat split; try lia.
    + apply prefix_take.
    + rewrite Zminus_mod_idemp_r, Z.sub_diag. by apply Z.mod_0_l; lia.
  - intros -> Hlen. rewrite first_batches_len, Hlen by done. reflexivity.
Qed.

Lemma get_data_trim_witness :
  ∃ train test p,
    0 < 32 ∧
    parse_data flags_105 = OK (train, test, p) ∧
    len train = 105 ∧
    get_data flags_105 32
      = OK (arrays_of (first_batches 32 train),
            arrays_of (first_batches 32 test), p) ∧
    len (first_batches 32 train) = 96.
Proof.
  assert (H : ∃ train test p,
             parse_data flags_105 = OK (train, test, p) ∧ len train = 105).
  { eexists _, _, _. split; [vm_compute; reflexivity | reflexivity]. }
  destruct H as (train & test & p & E & Hlen).
  exists train, test, p.
  destruct (get_data_trim flags_105 32 train test p) as (H1 & _ & H3);
    [lia | exact E |].
  split; [lia|]. split; [exact E|]. split; [exact Hlen|]. split; [exact H1|].
  by apply H3.
Defined.

(** ** Properties of [get_tokenizer] *)

Lemma sorted_set_elem l t : t ∈ sorted_set l ↔ t ∈ l.
Proof.
  unfold sorted_set.
  by rewrite merge_sort_Permutation, elem_of_elements, elem_of_list_to_set.
Qed.

Lemma sorted_set_NoDup l : NoDup (sorted_set l).
Proof.
  unfold sorted_set. rewrite merge_sort_Permutation. apply NoDup_elements.
Qed.

Lemma sorted_set_sorted l : StronglySorted String.le (sorted_set l).
Proof. unfold sorted_set. apply StronglySorted_merge_sort; apply _. Qed.

Lemma sorted_set_length l : length (sorted_set l) = unique_tokens l.
Proof.
  unfold sorted_set, unique_tokens. by rewrite merge_sort_Permutation.
Qed.

(** The set decides the result: neither the order nor the number of
    occurrences of the tokens matters. *)
Lemma sorted_set_ext l1 l2 :
  (∀ t, t ∈ l1 ↔ t ∈ l2) → sorted_set l1 = sorted_set l2.
Proof.
  intros H. unfold sorted_set. do 2 f_equal.
  apply set_eq. intros t. by rewrite !elem_of_list_to_set.
Qed.

(** In whatever order the elements of the set come, sorting gives the
    same list. *)
Lemma sorted_set_any_order l k :
  NoDup k → (∀ t, t ∈ k ↔ t ∈ l) → merge_sort String.le k = sorted_set l.
Proof.
  intros Hk Hkl. apply (StronglySorted_unique String.le).
  - apply StronglySorted_merge_sort; apply _.
  - apply sorted_set_sorted.
  - rewrite merge_sort_Permutation. apply NoDup_Permutation.
    + done.
    + apply sorted_set_NoDup.
    + intros t. by rewrite sorted_set_elem.
Qed.

Lemma enumerate_cons {A} start (x : A) (l : list A) :
  zip (seqZ start (Z.of_nat (length (x :: l)))) (x :: l)
  = (start, x) :: zip (seqZ (Z.succ start) (Z.of_nat (length l))) l.
Proof.
  rewrite seqZ_cons by (simpl; lia). simpl. do 3 f_equal. lia.
Qed.

(** The dictionary built from an enumeration: a key that does not occur
    keeps its old entry; a key gets the index of its last occurrence. *)
Lemma dict_fold_lookup (l : list string) :
  ∀ (d0 : gmap string Z) (start : Z),
    let d := foldl (fun d '(i, token) => <[token := i]> d) d0
               (zip (seqZ start (Z.of_nat (length l))) l) in
    (∀ t, t ∉ l → d !! t = d0 !! t) ∧
    (∀ j t, l !! j = Some t → t ∉ drop (S j) l →
            d !! t = Some (start + Z.of_nat j)).
Proof.
  induction l as [|x l IH]; intros d0 start.
  - simpl. split; [done|]. intros j t. by rewrite lookup_nil.
  - cbv zeta. rewrite enumerate_cons. cbn [foldl].
    destruct (IH (<[x:=start]> d0) (Z.succ start)) as [IH1 IH2].
    split.
    + intros t [Hne Ht]%not_elem_of_cons.
      rewrite IH1 by done. by rewrite lookup_insert_ne.
    + intros [|j] t Hj Hlast; simpl in *.
      * injection Hj as ->. rewrite drop_0 in Hlast.
        rewrite IH1 by done. rewrite lookup_insert_eq. f_equal. lia.
      * rewrite (IH2 j t) by done. f_equal. lia.
Qed.

Lemma NoDup_not_in_drop {A} (l : list A) j t :
  NoDup l → l !! j = Some t → t ∉ drop (S j) l.
Proof.
  intros Hnd Hj [k Hk]%list_elem_of_lookup_1.
  rewrite lookup_drop in Hk.
  pose proof (NoDup_lookup l _ _ _ Hnd Hj Hk). lia.
Qed.

Lemma dict_of_enumerate_rest rest j t :
  NoDup rest → rest !! j = Some t →
  dict_of_enumerate (PAD_TOKEN :: rest) !! t = Some (Z.of_nat j + 1).
Proof.
  intros Hnd Hj. unfold dict_of_enumerate, enumerate.
  destruct (dict_fold_lookup (PAD_TOKEN :: rest) ∅ 0) as [_ H].
  rewrite (H (S j) t); [f_equal; lia | done |].
  simpl. by apply NoDup_not_in_drop.
Qed.

Lemma dict_of_enumerate_pad rest :
  PAD_TOKEN ∉ rest → dict_of_enumerate (PAD_TOKEN :: rest) !! PAD_TOKEN = Some 0.
Proof.
  intros Hpad. unfold dict_of_enumerate, enumerate.
  destruct (dict_fold_lookup (PAD_TOKEN :: rest) ∅ 0) as [_ H].
  rewrite (H 0%nat PAD_TOKEN); [done | done |].
  simpl. by rewrite drop_0.
Qed.

Lemma unique_non_pad_absent tokens :
  PAD_TOKEN ∉ tokens → unique_non_pad tokens = unique_tokens tokens.
Proof.
  intros Hpad. unfold unique_non_pad, unique_tokens. f_equal.
  apply set_eq. intros t.
  rewrite !elem_of_list_to_set, list_elem_of_filter. split.
  - by intros [_ Ht].
  - intros Ht. split; [|done]. by intros ->.
Qed.

Lemma unique_non_pad_present tokens :
  PAD_TOKEN ∈ tokens → unique_tokens tokens = S (unique_non_pad tokens).
Proof.
  intros Hpad. unfold unique_non_pad, unique_tokens.
  assert (E : (list_to_set tokens : gset string)
              = {[PAD_TOKEN]} ∪ list_to_set
                  (filter (fun token => token ≠ PAD_TOKEN) tokens)).
  { apply set_eq. intros t.
    rewrite elem_of_union, elem_of_singleton, !elem_of_list_to_set,
      list_elem_of_filter.
    destruct (decide (t = PAD_TOKEN)) as [->|Hne].
    - split; [by left | done].
    - split; [by right | by intros [?|[_ ?]]]. }
  rewrite E, size_union, size_singleton; [done|].
  intros t Ht1%elem_of_singleton.
  rewrite elem_of_list_to_set, list_elem_of_filter. by intros [Hne _].
Qed.

(** C2, as far as it holds on every population of tokens: the result
    depends on the set of tokens only; the vocabulary is the pad token
    followed by the unique tokens in increasing order; the token at
    position [i] of the sorted part has the id [i + 1]; the length of the
    vocabulary is 1 plus the number of unique tokens, which is the number
    of unique tokens other than the pad token when the pad token is not
    itself among the tokens (and one more when it is); every token has an
    id between 1 and the vocabulary size minus 1, and no two tokens have
    the same id. *)
Theorem get_tokenizer_vocabulary (stories : list example) :
  let tokens := tokens_all stories in
  let vocab := (get_tokenizer stories).1 in
  let token_to_id := (get_tokenizer stories).2 in
  (∀ stories',
     (∀ t, t ∈ tokens_all stories' ↔ t ∈ tokens) →
     get_tokenizer stories' = get_tokenizer stories) ∧
  (∃ rest,
     vocab = PAD_TOKEN :: rest ∧
     StronglySorted String.le rest ∧ NoDup rest ∧
     (∀ t, t ∈ rest ↔ t ∈ tokens) ∧
     (∀ i t, rest !! i = Some t →
             token_to_id !! t = Some (Z.of_nat i + 1))) ∧
  length vocab = S (unique_tokens tokens) ∧
  (PAD_TOKEN ∉ tokens →
   length vocab = S (unique_non_pad tokens) ∧
   token_to_id !! PAD_TOKEN = Some 0) ∧
  (PAD_TOKEN ∈ tokens →
   length vocab = S (S (unique_non_pad tokens))) ∧
  (∀ t, t ∈ tokens →
        ∃ i, token_to_id !! t = Some i ∧ 1 ≤ i ≤ len vocab - 1) ∧
  (∀ t1 t2, t1 ∈ tokens → t2 ∈ tokens →
            token_to_id !! t1 = token_to_id !! t2 → t1 = t2).
Proof.
  intros tokens vocab token_to_id.
  assert (Hlen : length vocab = S (unique_tokens tokens)).
  { subst vocab. simpl. by rewrite sorted_set_length. }
  assert (Hid : ∀ t, t ∈ tokens →
            ∃ i, sorted_set tokens !! i = Some t ∧
                 token_to_id !! t = Some (Z.of_nat i + 1)).
  { intros t [i Hi]%sorted_set_elem%list_elem_of_lookup_1.
    exists i. split; [done|].
    apply dict_of_enumerate_rest; [apply sorted_set_NoDup | done]. }
  split; [|split; [|split; [|split; [|split; [|split]]]]].
  - intros stories' Hsame. unfold get_tokenizer.
    by rewrite (sorted_set_ext _ _ Hsame).
  - exists (sorted_set tokens). split; [done|].
    split; [apply sorted_set_sorted|]. split; [apply sorted_set_NoDup|].
    split; [apply sorted_set_elem|].
    intros i t Hi. apply dict_of_enumerate_rest; [apply sorted_set_NoDup | done].
  - done.
  - intros Hpad. split.
    + by rewrite unique_non_pad_absent.
    + apply dict_of_enumerate_pad. by rewrite sorted_set_elem.
  - intros Hpad. by rewrite Hlen, unique_non_pad_present.
  - intros t Ht. destruct (Hid t Ht) as (i & Hi & Hd).
    exists (Z.of_nat i + 1). split; [done|].
    apply lookup_lt_Some in Hi. rewrite sorted_set_length in Hi.
    unfold len. lia.
  - intros t1 t2 Ht1 Ht2 Heq.
    destruct (Hid t1 Ht1) as (i1 & Hi1 & Hd1).
    destruct (Hid t2 Ht2) as (i2 & Hi2 & Hd2).
    rewrite Hd1, Hd2 in Heq. injection Heq as Heq.
    assert (i1 = i2) as -> by lia. congruence.
Qed.

(** The vocabulary of the three sample lines. *)
Lemma get_tokenizer_sample :
  ∃ stories,
    parse_stories sample_lines false = OK stories ∧
    (get_tokenizer stories).1
      = [ "_PAD"; "."; "?"; "bathroom"; "hallway"; "is"; "john"; "mary";
          "moved"; "the"; "to"; "went"; "where" ] ∧
    (get_tokenizer stories).2 !! "_PAD" = Some 0 ∧
    (get_tokenizer stories).2 !! "." = Some 1 ∧
    (get_tokenizer stories).2 !! "where" = Some 12 ∧
    (get_tokenizer stories).2 !! "Mary" = None.
Proof. eexists. split; [reflexivity|]. repeat split; by vm_compute. Qed.

(** When an answer is the string of the pad token, the vocabulary holds
    it twice, and its length is 2 plus the number of unique tokens other
    than the pad token. *)
Lemma get_tokenizer_pad_answer :
  (get_tokenizer pad_answer).1 = ["_PAD"; "_PAD"] ∧
  unique_non_pad (tokens_all pad_answer) = 0%nat ∧
  ¬ (length (get_tokenizer pad_answer).1
     = S (unique_non_pad (tokens_all pad_answer))).
Proof.
  assert (H1 : (get_tokenizer pad_answer).1 = ["_PAD"; "_PAD"])
    by (by vm_compute).
  assert (H2 : unique_non_pad (tokens_all pad_answer) = 0%nat)
    by (by vm_compute).
  split; [done|]. split; [done|]. by rewrite H1, H2.
Qed.

(** ** Properties of [pad_stories] *)

Lemma append_times_replicate {A} n (x : A) l :
  append_times n x l = l ++ replicate n x.
Proof.
  revert l. induction n as [|n IH]; intros l; simpl.
  - by rewrite app_nil_r.
  - by rewrite IH, <- app_assoc.
Qed.

Lemma pad_to_replicate {A} target (x : A) l :
  pad_to target x l = l ++ replicate (Z.to_nat (target - len l)) x.
Proof. apply append_times_replicate. Qed.

Lemma len_app {A} (l k : list A) : len (l ++ k) = len l + len k.
Proof. unfold len. rewrite length_app. lia. Qed.

Lemma len_replicate {A} n (x : A) : len (replicate n x) = Z.of_nat n.
Proof. unfold len. by rewrite length_replicate. Qed.

Lemma len_pad_to {A} target (x : A) l :
  len (pad_to target x l) = Z.max target (len l).
Proof.
  rewrite pad_to_replicate, len_app, len_replicate.
  pose proof (len_nonneg l). lia.
Qed.

Lemma assert_OK b u : assert b = OK u ↔ b = true.
Proof. destruct b, u; simpl; split; done. Qed.

Lemma assert_Raise b e : assert b = Raise e → e = AssertionError.
Proof. destruct b; simpl; [done|]. by intros [= <-]. Qed.

Lemma pad_sentence_OK msl sentence out :
  pad_sentence msl sentence = OK out ↔
  len sentence ≤ msl ∧
  out = sentence ++ replicate (Z.to_nat (msl - len sentence)) PAD_ID.
Proof.
  unfold pad_sentence.
  pose proof (len_pad_to msl PAD_ID sentence) as Hlen.
  destruct (Z.eqb_spec (len (pad_to msl PAD_ID sentence)) msl) as [E|E]; simpl.
  - rewrite pad_to_replicate. split.
    + intros [= <-]. split; [lia | done].
    + by intros [_ ->].
  - split; [done|]. intros [Hle _]. lia.
Qed.

Lemma pad_sentence_Raise msl sentence e :
  pad_sentence msl sentence = Raise e → e = AssertionError.
Proof.
  unfold pad_sentence. destruct (assert _) eqn:E; simpl; [done|].
  intros [= <-]. by eapply assert_Raise.
Qed.

Lemma mapM_pad_sentence_OK msl story out :
  mapM (pad_sentence msl) story = OK out ↔
  Forall (fun sentence => len sentence ≤ msl) story ∧
  out = (fun sentence =>
           sentence ++ replicate (Z.to_nat (msl - len sentence)) PAD_ID)
        <$> story.
Proof.
  rewrite mapM_OK. revert out.
  induction story as [|sentence story IH]; intros out.
  - split.
    + by inversion 1.
    + intros [_ ->]. constructor.
  - split.
    + inversion 1 as [|? y ? ys Hy Hys]; subst.
      apply pad_sentence_OK in Hy as [Hle ->].
      apply IH in Hys as [Hall ->]. split; [by constructor | done].
    + intros [[Hle Hall]%Forall_cons_1 ->]. simpl. constructor.
      * by apply pad_sentence_OK.
      * by apply IH.
Qed.

Lemma pad_story_OK msl mstl mql ex out :
  pad_story msl mstl mql ex = OK out ↔
  fits msl mstl mql ex ∧ padded msl mstl mql ex out.
Proof.
  destruct ex as [[story query] answer], out as [[story' query'] answer'].
  unfold pad_story, fits, padded.
  destruct (mapM (pad_sentence msl) story) as [story1|e] eqn:Es; simpl.
  - apply mapM_pad_sentence_OK in Es as [Hall ->].
    pose proof (len_pad_to mstl (replicate (Z.to_nat msl) PAD_ID)
      ((fun sentence =>
          sentence ++ replicate (Z.to_nat (msl - len sentence)) PAD_ID)
       <$> story)) as Hs.
    pose proof (len_pad_to mql PAD_ID query) as Hq.
    rewrite !pad_to_replicate in *. rewrite !len_fmap in Hs |- *.
    destruct (Z.eqb_spec
      (len (((fun sentence =>
          sentence ++ replicate (Z.to_nat (msl - len sentence)) PAD_ID)
       <$> story)
       ++ replicate (Z.to_nat (mstl - len story))
            (replicate (Z.to_nat msl) PAD_ID))) mstl) as [E1|E1]; simpl.
    + destruct (Z.eqb_spec
        (len (query ++ replicate (Z.to_nat (mql - len query)) PAD_ID)) mql)
        as [E2|E2]; simpl.
      * split.
        -- intros [= <- <- <-]. repeat split; [done|lia|lia].
        -- by intros (_ & -> & -> & ->).
      * split; [done|]. intros ((_ & _ & Hle) & _). lia.
    + split; [done|]. intros ((_ & Hle & _) & _). lia.
  - split; [done|]. intros ((Hall & _) & _).
    assert (H : mapM (pad_sentence msl) story = OK
      ((fun sentence =>
          sentence ++ replicate (Z.to_nat (msl - len sentence)) PAD_ID)
       <$> story)) by (by apply mapM_pad_sentence_OK).
    rewrite H in Es. done.
Qed.

Lemma pad_story_Raise msl mstl mql ex e :
  pad_story msl mstl mql ex = Raise e → e = AssertionError.
Proof.
  destruct ex as [[story query] answer]. unfold pad_story.
  destruct (mapM (pad_sentence msl) story) as [story1|e1] eqn:Es; simpl.
  - destruct (assert _) eqn:E1; simpl.
    + destruct (assert (len (pad_to mql PAD_ID query) =? mql)) eqn:E2;
        simpl; [done|].
      intros [= <-]. by eapply assert_Raise.
    + intros [= <-]. by eapply assert_Raise.
  - intros [= <-]. apply mapM_Raise in Es as (x & _ & Hx).
    by eapply pad_sentence_Raise.
Qed.

Lemma padded_uniform msl mstl mql ex out :
  0 ≤ msl →
  fits msl mstl mql ex → padded msl mstl mql ex out →
  uniform msl mstl mql out.
Proof.
  destruct ex as [[story query] answer], out as [[story' query'] answer'].
  intros Hmsl (Hall & Hs & Hq) (-> & -> & ->). repeat split.
  - apply Forall_app. split.
    + apply Forall_fmap. eapply Forall_impl; [exact Hall|].
      intros sentence Hle. simpl in *. rewrite len_app, len_replicate. lia.
    + apply Forall_replicate. rewrite len_replicate. lia.
  - rewrite len_app, len_fmap, len_replicate. lia.
  - rewrite len_app, len_replicate. lia.
Qed.

(** [pad_stories] on values: padded and of uniform lengths when nothing
    is over its target, [AssertionError] otherwise. *)
Lemma pad_stories_values (stories : list encoded)
    (max_sentence_length max_story_length max_query_length : Z) :
  0 ≤ max_sentence_length →
  (Forall (fits max_sentence_length max_story_length max_query_length)
     stories →
   ∃ out,
     pad_stories stories
       max_sentence_length max_story_length max_query_length = OK out ∧
     Forall2 (padded max_sentence_length max_story_length max_query_length)
       stories out ∧
     Forall (uniform max_sentence_length max_story_length max_query_length)
       out) ∧
  (¬ Forall (fits max_sentence_length max_story_length max_query_length)
       stories →
   pad_stories stories
     max_sentence_length max_story_length max_query_length
   = Raise AssertionError).
Proof.
  intros Hmsl. unfold pad_stories. split.
  - intros Hfits.
    destruct (mapM_total
      (pad_story max_sentence_length max_story_length max_query_length)
      stories) as [out Hout].
    { eapply Forall_impl; [exact Hfits|].
      intros [[story query] answer] Hex.
      eexists (_, _, _). apply pad_story_OK. split; [exact Hex|].
      repeat split. }
    exists out. split; [done|].
    apply mapM_OK in Hout.
    assert (Hpad : Forall2
      (fun ex o =>
         fits max_sentence_length max_story_length max_query_length ex ∧
         padded max_sentence_length max_story_length max_query_length ex o)
      stories out).
    { eapply Forall2_impl; [exact Hout|]. intros ??. apply pad_story_OK. }
    split.
    + eapply Forall2_impl; [exact Hpad|]. by intros ?? [_ ?].
    + clear -Hpad Hmsl. induction Hpad as [|ex o l k [Hf Hp] _ IH];
        constructor; [by eapply padded_uniform | done].
  - intros Hnot.
    destruct (mapM _ stories) as [out|e] eqn:E.
    + destruct Hnot. apply mapM_OK in E.
      clear -E. induction E as [|ex o l k Hex _ IH]; constructor; [|done].
      by apply pad_story_OK in Hex as [? _].
    + apply mapM_Raise in E as (ex & _ & Hex).
      by apply pad_story_Raise in Hex as ->.
Qed.

(** The run on that example, and one on a sentence that is too long. *)
Lemma pad_stories_sample :
  pad_stories [([[7; 8]], [5], 4)] 3 2 2
    = OK [([[7; 8; 0]; [0; 0; 0]], [5; 0], 4)] ∧
  pad_stories [([[7; 8; 9; 1]], [5], 4)] 3 2 2 = Raise AssertionError.
Proof. split; reflexivity. Qed.


(** ** [pad_stories] in place *)

Lemma elem_of_concat {A} (x : A) (ls : list (list A)) :
  x ∈ concat ls ↔ ∃ l, x ∈ l ∧ l ∈ ls.
Proof.
  induction ls as [|l ls IH]; simpl.
  - split; [by intros ?%elem_of_nil | by intros (l & _ & ?%elem_of_nil)].
  - rewrite elem_of_app, IH. split.
    + intros [Hx|(l' & Hx & Hl')].
      * exists l. split; [done | apply list_elem_of_here].
      * exists l'. split; [done | by apply list_elem_of_further].
    + intros (l' & Hx & [->|Hl']%elem_of_cons); [by left|].
      right. by exists l'.
Qed.

Module InPlaceFacts.
Import InPlace.

Lemma append_pad_times_spec n r h :
  ids (append_pad_times n r h)
    = alter (fun l => l ++ replicate n PAD_ID) r (ids h) ∧
  sentences (append_pad_times n r h) = sentences h.
Proof.
  revert h. induction n as [|n IH]; intros h; simpl.
  - split; [|done]. symmetry. apply list_alter_id. intros l. apply app_nil_r.
  - destruct (IH (append_id r PAD_ID h)) as [-> ->]. split; [|done].
    simpl. rewrite list_alter_alter_eq. apply list_alter_ext; [|done].
    intros l _. simpl. by rewrite <- app_assoc.
Qed.

Lemma pad_ids_spec target r h :
  ids (pad_ids target r h) = alter (pad_to target PAD_ID) r (ids h) ∧
  sentences (pad_ids target r h) = sentences h.
Proof.
  unfold pad_ids.
  destruct (append_pad_times_spec
              (Z.to_nat (target - len (ids h !!! r))) r h) as [-> ->].
  split; [|done]. apply list_alter_ext; [|done].
  intros l Hl. rewrite pad_to_replicate.
  by rewrite (list_lookup_total_correct _ _ _ Hl).
Qed.

Lemma pad_ids_length target r h :
  length (ids (pad_ids target r h)) = length (ids h).
Proof. destruct (pad_ids_spec target r h) as [-> _]. apply length_alter. Qed.

Lemma pad_ids_lookup target r h :
  (r < length (ids h))%nat →
  ids (pad_ids target r h) !!! r = pad_to target PAD_ID (ids h !!! r).
Proof.
  intros Hr. destruct (pad_ids_spec target r h) as [-> _].
  by apply list_lookup_total_alter_eq.
Qed.

Lemma pad_ids_lookup_ne target r a h :
  r ≠ a → ids (pad_ids target r h) !!! a = ids h !!! a.
Proof.
  intros Hr. destruct (pad_ids_spec target r h) as [-> _].
  by apply list_lookup_total_alter_ne.
Qed.

(** The loop over the sentences of a story whose sentences are distinct
    lists: what [mapM pad_sentence] computes on their values. *)
Lemma pad_sentences_spec msl story :
  ∀ h,
    NoDup story →
    Forall (fun a => (a < length (ids h))%nat) story →
    match mapM (pad_sentence msl) ((fun a => ids h !!! a) <$> story) with
    | OK out =>
        ∃ h', pad_sentences msl story h = OK h' ∧
              sentences h' = sentences h ∧
              length (ids h') = length (ids h) ∧
              (fun a => ids h' !!! a) <$> story = out ∧
              (∀ a, a ∉ story → ids h' !!! a = ids h !!! a)
    | Raise e => pad_sentences msl story h = Raise e
    end.
Proof.
  induction story as [|r story IH]; intros h Hnd Hin.
  - simpl. by exists h.
  - apply NoDup_cons in Hnd as [Hr Hnd].
    apply Forall_cons_1 in Hin as [Hrin Hin].
    cbn [fmap list_fmap mapM pad_sentences].
    unfold pad_sentence at 1. rewrite (pad_ids_lookup msl r h Hrin).
    destruct (assert (len (pad_to msl PAD_ID (ids h !!! r)) =? msl))
      as [[]|e]; simpl; [|done].
    assert (Hsame : (fun a => ids (pad_ids msl r h) !!! a) <$> story
                    = (fun a => ids h !!! a) <$> story).
    { apply list_fmap_ext. intros i a Ha.
      apply pad_ids_lookup_ne. intros ->.
      apply Hr. by eapply list_elem_of_lookup_2. }
    specialize (IH (pad_ids msl r h) Hnd).
    rewrite pad_ids_length, Hsame in IH. specialize (IH Hin).
    destruct (mapM (pad_sentence msl) ((fun a => ids h !!! a) <$> story))
      as [out|e]; simpl; [|done].
    destruct IH as (h' & -> & Hs & Hl & Hout & Hframe).
    exists h'. split; [done|].
    destruct (pad_ids_spec msl r h) as [_ Hs'].
    split; [congruence|]. split; [done|]. split.
    + rewrite Hframe by done. by rewrite (pad_ids_lookup msl r h Hrin), Hout.
    + intros a [Hne Ha]%not_elem_of_cons.
      rewrite Hframe by done. by apply pad_ids_lookup_ne.
Qed.

Lemma append_sentence_times_spec n story msl :
  ∀ h,
    ids (append_sentence_times n story msl h)
      = ids h ++ replicate n (replicate (Z.to_nat msl) PAD_ID) ∧
    sentences (append_sentence_times n story msl h)
      = alter (fun l => l ++ seq (length (ids h)) n) story (sentences h).
Proof.
  induction n as [|n IH]; intros h; simpl.
  - rewrite app_nil_r. split; [done|].
    symmetry. apply list_alter_id. intros l. apply app_nil_r.
  - destruct (IH (append_sentence story msl h)) as [-> ->]. simpl. split.
    + by rewrite <- app_assoc.
    + rewrite list_alter_alter_eq. apply list_alter_ext; [|done].
      intros l _. simpl. rewrite <- app_assoc. simpl.
      rewrite length_app. simpl. do 3 f_equal. lia.
Qed.

Lemma fresh_lookups {A} `{!Inhabited A} (l : list A) n (x : A) :
  (fun a => (l ++ replicate n x) !!! a) <$> seq (length l) n = replicate n x.
Proof.
  apply list_eq. intros i. rewrite list_lookup_fmap.
  destruct (decide (i < n)%nat) as [Hi|Hi].
  - rewrite lookup_seq_lt by done. simpl.
    rewrite lookup_total_app_r by lia.
    rewrite lookup_replicate_2 by done. f_equal.
    apply list_lookup_total_correct. apply lookup_replicate_2. lia.
  - rewrite lookup_ge_None_2 by (rewrite length_seq; lia).
    rewrite lookup_ge_None_2 by (rewrite length_replicate; lia). done.
Qed.

(** The body of the loop, on an example made of distinct lists of the
    store: the result is the one of [pad_story] on the value of the
    example, and nothing else in the store changes. *)
Lemma pad_example_spec msl mstl mql ex h :
  (ex.1.1 < length (sentences h))%nat →
  NoDup (cells h ex) →
  Forall (fun a => (a < length (ids h))%nat) (cells h ex) →
  match pad_story msl mstl mql (read h ex) with
  | OK out =>
      ∃ h', pad_example msl mstl mql ex h = OK h' ∧
            read h' ex = out ∧
            length (sentences h') = length (sentences h) ∧
            (length (ids h) ≤ length (ids h'))%nat ∧
            (∀ s, s ≠ ex.1.1 → sentences h' !!! s = sentences h !!! s) ∧
            (∀ a, (a < length (ids h))%nat → a ∉ cells h ex →
                  ids h' !!! a = ids h !!! a) ∧
            Forall (fun a => (a < length (ids h'))%nat ∧
                             (a ∈ cells h ex ∨ (length (ids h) ≤ a)%nat))
                   (cells h' ex)
  | Raise e => pad_example msl mstl mql ex h = Raise e
  end.
Proof.
  destruct ex as [[story query] answer]. unfold cells. simpl.
  intros Hst [Hnd [Hq _]]%NoDup_app [Hin Hqin]%Forall_app.
  apply Forall_cons_1 in Hqin as [Hqin _].
  assert (Hq' : query ∉ sentences h !!! story).
  { intros Hc. by apply (Hq query Hc), list_elem_of_here. }
  clear Hq.
  pose proof (pad_sentences_spec msl _ h Hnd Hin) as Hloop.
  destruct (mapM (pad_sentence msl)
              ((fun a => ids h !!! a) <$> sentences h !!! story))
    as [out1|e] eqn:E1; simpl; [|by rewrite Hloop].
  destruct Hloop as (h1 & -> & Hs1 & Hl1 & Hout1 & Hframe1). simpl.
  rewrite Hs1.
  set (refs := sentences h !!! story) in *.
  set (n := Z.to_nat (mstl - len refs)).
  set (blank := replicate (Z.to_nat msl) PAD_ID).
  destruct (append_sentence_times_spec n story msl h1) as [Hi2 Hs2].
  set (h2 := append_sentence_times n story msl h1) in *.
  destruct (pad_ids_spec mql query h2) as [Hi3 Hs3].
  pose proof (pad_ids_length mql query h2) as Hl3.
  set (h3 := pad_ids mql query h2) in *.
  assert (Hlen1 : len out1 = len refs).
  { rewrite <- Hout1. apply len_fmap. }
  assert (Hstory3 : sentences h3 !!! story = refs ++ seq (length (ids h)) n).
  { rewrite Hs3, Hs2, Hs1, <- Hl1.
    by rewrite list_lookup_total_alter_eq. }
  assert (Hq2 : ids h2 !!! query = ids h !!! query).
  { rewrite Hi2, lookup_total_app_l by lia. by apply Hframe1. }
  assert (Hq3 : ids h3 !!! query = pad_to mql PAD_ID (ids h !!! query)).
  { rewrite Hi3, list_lookup_total_alter_eq; [by rewrite Hq2|].
    rewrite Hi2, length_app. lia. }
  assert (Hold : ∀ a, (a < length (ids h))%nat → a ≠ query →
                      ids h3 !!! a = ids h1 !!! a).
  { intros a Ha Hne. rewrite Hi3, list_lookup_total_alter_ne by done.
    rewrite Hi2. apply lookup_total_app_l. lia. }
  assert (Hvals : (fun a => ids h3 !!! a) <$> sentences h3 !!! story
                  = pad_to mstl blank out1).
  { rewrite Hstory3, fmap_app, pad_to_replicate, Hlen1. f_equal.
    - rewrite <- Hout1. apply list_fmap_ext. intros i a Ha.
      apply list_elem_of_lookup_2 in Ha.
      apply Hold.
      + rewrite Forall_forall in Hin. by apply Hin.
      + by intros ->.
    - fold n. rewrite <- (fresh_lookups (ids h1) n blank), Hl1.
      apply list_fmap_ext. intros i a [-> Hi]%lookup_seq.
      rewrite Hi3, list_lookup_total_alter_ne by lia. by rewrite Hi2. }
  assert (Hl : len (sentences h3 !!! story) = len (pad_to mstl blank out1)).
  { rewrite <- Hvals. symmetry. apply len_fmap. }
  rewrite Hl, Hq3.
  destruct (assert (len (pad_to mstl blank out1) =? mstl)) as [[]|e];
    simpl; [|done].
  destruct (assert (len (pad_to mql PAD_ID (ids h !!! query)) =? mql))
    as [[]|e]; simpl; [|done].
  exists h3. split; [done|]. split; [by rewrite Hvals, Hq3|].
  split; [by rewrite Hs3, Hs2, length_alter, Hs1|].
  split; [rewrite Hl3, Hi2, length_app; lia|].
  split; [|split].
  - intros s Hne. rewrite Hs3, Hs2, Hs1.
    by apply list_lookup_total_alter_ne.
  - intros a Ha [Ha1 Ha2%not_elem_of_cons]%not_elem_of_app.
    rewrite Hold by tauto. by apply Hframe1.
  - rewrite Hstory3, Hl3, Hi2, length_app, length_replicate, Hl1.
    apply Forall_app. split; [apply Forall_app; split|].
    + apply Forall_forall. intros a Ha.
      rewrite Forall_forall in Hin. specialize (Hin a Ha). simpl in Hin.
      split; [lia|]. left. apply elem_of_app. by left.
    + apply Forall_forall. intros a [Ha1 Ha2]%elem_of_seq.
      split; [lia | right; lia].
    + constructor; [|done]. split; [lia|]. left.
      apply elem_of_app. right. apply list_elem_of_here.
Qed.

(** The value of an example depends on its own lists only. *)
Lemma read_ext h h' ex :
  sentences h' !!! ex.1.1 = sentences h !!! ex.1.1 →
  (∀ a, a ∈ cells h ex → ids h' !!! a = ids h !!! a) →
  read h' ex = read h ex.
Proof.
  destruct ex as [[story query] answer]. unfold cells, read. simpl.
  intros -> Hids. do 2 f_equal.
  - apply list_fmap_ext. intros i a Ha. apply Hids.
    apply elem_of_app. left. by eapply list_elem_of_lookup_2.
  - apply Hids. apply elem_of_app. right. apply list_elem_of_here.
Qed.

Lemma separated_cons h ex stories :
  separated h (ex :: stories) →
  (ex.1.1 < length (sentences h))%nat ∧
  NoDup (cells h ex) ∧
  Forall (fun a => (a < length (ids h))%nat) (cells h ex) ∧
  Forall (fun ex' : example_ref => ex'.1.1 ≠ ex.1.1) stories ∧
  (∀ a, a ∈ cells h ex → a ∉ concat (cells h <$> stories)) ∧
  separated h stories.
Proof.
  intros (Hs & Hsin & Hc & Hcin). simpl in *.
  apply NoDup_cons in Hs as [Hs1 Hs2].
  apply Forall_cons_1 in Hsin as [Hsin1 Hsin2].
  apply NoDup_app in Hc as (Hc1 & Hc2 & Hc3).
  apply Forall_app in Hcin as [Hcin1 Hcin2].
  repeat split; try done.
  apply Forall_forall. intros ex' Hex' Heq. apply Hs1.
  rewrite <- Heq. apply list_elem_of_fmap. by exists ex'.
Qed.

Lemma stored_lookups {A} `{!Inhabited A} (l k m : list A) :
  (fun a => (l ++ k ++ m) !!! a) <$> seq (length l) (length k) = k.
Proof.
  apply list_eq. intros i. rewrite list_lookup_fmap.
  destruct (decide (i < length k)%nat) as [Hi|Hi].
  - rewrite lookup_seq_lt by done. simpl.
    rewrite lookup_total_app_r by lia.
    replace (length l + i - length l)%nat with i by lia.
    rewrite lookup_total_app_l by done.
    symmetry. by apply list_lookup_lookup_total_lt.
  - rewrite lookup_ge_None_2 by (rewrite length_seq; lia).
    rewrite lookup_ge_None_2 by lia. done.
Qed.

(** Examples stored one after the other are made of distinct lists, and
    their values are the examples. *)
Lemma store_all_spec stories :
  ∀ h h' refs,
    store_all stories h = (h', refs) →
    (∃ i s, ids h' = ids h ++ i ∧ sentences h' = sentences h ++ s) ∧
    read h' <$> refs = stories ∧
    NoDup ((fun ex : example_ref => ex.1.1) <$> refs) ∧
    Forall (fun ex : example_ref =>
              (length (sentences h) ≤ ex.1.1 < length (sentences h'))%nat)
           refs ∧
    NoDup (concat (cells h' <$> refs)) ∧
    Forall (fun a => (length (ids h) ≤ a < length (ids h'))%nat)
           (concat (cells h' <$> refs)).
Proof.
  induction stories as [|[[story query] answer] stories IH];
    intros h h' refs; simpl.
  - intros [= <- <-]. simpl. split; [|repeat split; constructor].
    exists [], []. by rewrite !app_nil_r.
  - destruct (store_all stories _) as [h2 rs] eqn:E.
    intros [= <- <-].
    apply IH in E as ((i2 & s2 & Hi2 & Hs2) & Hread & Hnds & Hsin & Hndc & Hcin).
    simpl in Hi2, Hs2, Hsin, Hcin.
    set (base := length (ids h)) in *. set (n := length story) in *.
    assert (Hst : sentences h2 !!! length (sentences h) = seq base n).
    { rewrite Hs2, lookup_total_app_l by (rewrite length_app; simpl; lia).
      rewrite lookup_total_app_r by lia. by rewrite Nat.sub_diag. }
    assert (Hcells : cells h2 (length (sentences h), (base + n)%nat, answer)
                     = seq base (S n)).
    { unfold cells. cbn [fst snd]. rewrite Hst. symmetry. apply seq_S. }
    split; [|split; [|split; [|split; [|split]]]].
    + exists ((story ++ [query]) ++ i2), ([seq base n] ++ s2).
      by rewrite Hi2, Hs2, <- !app_assoc.
    + cbn [fmap list_fmap]. f_equal; [|done].
      unfold read. rewrite Hst. do 2 f_equal.
      * etrans; [|apply (stored_lookups (ids h) story [query])].
        apply list_fmap_ext. intros i a [-> Hi]%lookup_seq.
        rewrite Hi2. apply lookup_total_app_l.
        rewrite !length_app. simpl. lia.
      * rewrite Hi2, lookup_total_app_l by (rewrite !length_app; simpl; lia).
        rewrite lookup_total_app_r by lia.
        replace (base + n - length (ids h))%nat with n by lia.
        rewrite lookup_total_app_r by lia. by rewrite Nat.sub_diag.
    + cbn [fmap list_fmap]. apply NoDup_cons. split; [|done]. simpl.
      intros (ex & Heq & Hex)%list_elem_of_fmap.
      rewrite Forall_forall in Hsin. specialize (Hsin ex Hex). simpl in Hsin.
      rewrite length_app in Hsin. simpl in Hsin. lia.
    + constructor.
      * simpl. rewrite Hs2, !length_app. simpl. lia.
      * eapply Forall_impl; [exact Hsin|]. intros ex Hex. simpl in *.
        rewrite length_app in Hex. simpl in Hex. lia.
    + cbn [fmap list_fmap concat]. rewrite Hcells.
      apply NoDup_app. split; [apply NoDup_seq|]. split; [|done].
      intros a [Ha1 Ha2]%elem_of_seq Hc.
      rewrite Forall_forall in Hcin. specialize (Hcin a Hc). simpl in Hcin.
      rewrite !length_app in Hcin. simpl in Hcin. lia.
    + cbn [fmap list_fmap concat]. rewrite Hcells.
      apply Forall_app. split.
      * apply Forall_forall. intros a [Ha1 Ha2]%elem_of_seq.
        rewrite Hi2, !length_app. simpl. lia.
      * eapply Forall_impl; [exact Hcin|]. intros a Ha. simpl in *.
        rewrite !length_app in Ha. simpl in Ha. lia.
Qed.

Lemma store_all_separated stories h refs :
  store_all stories empty = (h, refs) →
  read h <$> refs = stories ∧ separated h refs.
Proof.
  intros (_ & Hread & Hnds & Hsin & Hndc & Hcin)%store_all_spec.
  split; [done|]. repeat split; try done.
  - eapply Forall_impl; [exact Hsin|]. intros ex Hex. simpl in *. lia.
  - eapply Forall_impl; [exact Hcin|]. intros a Ha. simpl in *. lia.
Qed.

End InPlaceFacts.

(** On examples made of distinct lists, the loop in place computes what
    [pad_stories] computes on their values, and touches nothing else. *)
Lemma pad_stories_in_place_spec msl mstl mql stories :
  ∀ h,
    InPlace.separated h stories →
    match pad_stories (InPlace.read h <$> stories) msl mstl mql with
    | OK out =>
        ∃ h', InPlace.pad_stories stories msl mstl mql h = OK h' ∧
              InPlace.read h' <$> stories = out ∧
              length (InPlace.sentences h') = length (InPlace.sentences h) ∧
              (length (InPlace.ids h) ≤ length (InPlace.ids h'))%nat ∧
              (∀ s, s ∉ (fun ex : InPlace.example_ref => ex.1.1) <$> stories →
                    InPlace.sentences h' !!! s = InPlace.sentences h !!! s) ∧
              (∀ a, (a < length (InPlace.ids h))%nat →
                    a ∉ concat (InPlace.cells h <$> stories) →
                    InPlace.ids h' !!! a = InPlace.ids h !!! a)
    | Raise e => InPlace.pad_stories stories msl mstl mql h = Raise e
    end.
Proof.
  unfold pad_stories.
  induction stories as [|ex stories IH]; intros h Hsep.
  - simpl. by exists h.
  - apply InPlaceFacts.separated_cons in Hsep
      as (Hst & Hnd & Hin & Hother & Hdisj & Hsep).
    pose proof (InPlaceFacts.pad_example_spec msl mstl mql ex h Hst Hnd Hin)
      as Hex.
    cbn [fmap list_fmap mapM InPlace.pad_stories].
    destruct (pad_story msl mstl mql (InPlace.read h ex)) as [o|e];
      simpl; [|by rewrite Hex].
    destruct Hex as (h1 & -> & Hread & Hls & Hli & Hfs & Hfi & Hcells).
    simpl.
    assert (Hcells1 : InPlace.cells h1 <$> stories
                      = InPlace.cells h <$> stories).
    { apply list_fmap_ext. intros i ex' Hex'.
      apply list_elem_of_lookup_2 in Hex'.
      rewrite Forall_forall in Hother. unfold InPlace.cells.
      by rewrite Hfs by by apply Hother. }
    assert (Hin' : Forall (fun a => (a < length (InPlace.ids h))%nat)
                     (concat (InPlace.cells h <$> stories)))
      by apply Hsep.
    assert (Hreads : InPlace.read h1 <$> stories
                     = InPlace.read h <$> stories).
    { apply list_fmap_ext. intros i ex' Hex'.
      apply list_elem_of_lookup_2 in Hex'.
      apply InPlaceFacts.read_ext.
      - rewrite Forall_forall in Hother. by apply Hfs, Hother.
      - intros a Ha.
        assert (Hc : a ∈ concat (InPlace.cells h <$> stories)).
        { apply elem_of_concat. exists (InPlace.cells h ex').
          split; [done|]. apply list_elem_of_fmap. by exists ex'. }
        apply Hfi.
        + rewrite Forall_forall in Hin'. by apply Hin'.
        + intros Ha'. by apply (Hdisj a Ha'). }
    assert (Hsep1 : InPlace.separated h1 stories).
    { destruct Hsep as (H1 & H2 & H3 & H4).
      unfold InPlace.separated. rewrite Hcells1, Hls.
      split; [done|]. split; [done|]. split; [done|].
      eapply Forall_impl; [exact H4|]. intros a Ha. simpl in *. lia. }
    specialize (IH h1 Hsep1). rewrite Hreads in IH.
    destruct (mapM (pad_story msl mstl mql) (InPlace.read h <$> stories))
      as [out|e]; simpl; [|done].
    destruct IH as (h' & -> & Hread' & Hls' & Hli' & Hfs' & Hfi').
    exists h'. split; [done|]. split; [|split; [|split; [|split]]].
    + f_equal; [|done]. rewrite <- Hread.
      destruct Hsep as (_ & _ & _ & _).
      apply InPlaceFacts.read_ext.
      * apply Hfs'. intros (ex' & Heq & Hex')%list_elem_of_fmap.
        rewrite Forall_forall in Hother. by apply (Hother ex' Hex').
      * intros a Ha. rewrite Forall_forall in Hcells.
        destruct (Hcells a Ha) as [Hlt Hor]. apply Hfi'; [done|].
        rewrite Hcells1. intros Hc. destruct Hor as [Hor|Hor].
        -- by apply (Hdisj a Hor).
        -- rewrite Forall_forall in Hin'. specialize (Hin' a Hc).
           simpl in Hin'. lia.
    + congruence.
    + lia.
    + intros s [Hs1 Hs2]%not_elem_of_cons.
      rewrite Hfs' by done. by apply Hfs.
    + intros a Ha [Ha1 Ha2]%not_elem_of_app.
      rewrite Hfi'; [by apply Hfi | lia | by rewrite Hcells1].
Qed.

(** The loop in place, on examples that are made of lists of their own:
    it succeeds when [pad_stories] does on the values, leaving the result
    of [pad_stories] in the store, and raises what [pad_stories] raises. *)
Lemma pad_stories_in_place (stories : list encoded)
    (max_sentence_length max_story_length max_query_length : Z) :
  ∀ h refs,
    InPlace.store_all stories InPlace.empty = (h, refs) →
    InPlace.read h <$> refs = stories ∧
    InPlace.separated h refs ∧
    match pad_stories stories
            max_sentence_length max_story_length max_query_length with
    | OK out =>
        ∃ h', InPlace.pad_stories refs
                max_sentence_length max_story_length max_query_length h
              = OK h' ∧
              InPlace.read h' <$> refs = out
    | Raise e =>
        InPlace.pad_stories refs
          max_sentence_length max_story_length max_query_length h
        = Raise e
    end.
Proof.
  intros h refs [Hread Hsep]%InPlaceFacts.store_all_separated.
  split; [done|]. split; [done|].
  pose proof (pad_stories_in_place_spec
                max_sentence_length max_story_length max_query_length
                refs h Hsep) as H.
  rewrite Hread in H.
  destruct (pad_stories stories _ _ _) as [out|e]; [|done].
  destruct H as (h' & H1 & H2 & _). by exists h'.
Qed.

(** A list that is the sentence of a story and its query at once is
    padded as the sentence first, and may then be too long a query: the
    lists of an example have to be distinct objects. *)
Lemma pad_stories_shared_list :
  InPlace.read InPlace.shared (0%nat, 0%nat, 0) = ([[7; 8]], [7; 8], 0) ∧
  pad_stories [([[7; 8]], [7; 8], 0)] 3 1 2 = OK [([[7; 8; 0]], [7; 8], 0)] ∧
  InPlace.pad_stories [(0%nat, 0%nat, 0)] 3 1 2 InPlace.shared
    = Raise AssertionError ∧
  ¬ InPlace.separated InPlace.shared [(0%nat, 0%nat, 0)].
Proof.
  split; [reflexivity|]. split; [reflexivity|]. split; [reflexivity|].
  intros (_ & _ & Hnd & _). vm_compute in Hnd.
  apply NoDup_cons in Hnd as [Hnd _]. apply Hnd, list_elem_of_here.
Qed.

(** C1: with target lengths (the sentence length not negative), when no
    sentence, story or query is longer than its target [pad_stories]
    returns the examples padded: the contents are kept, what is appended
    is the pad id 0 and all-pad sentences, and every sentence, story and
    query has its target length; when some length is over its target the
    call raises [AssertionError], and nothing is cut.  Both for the loop
    written on values and for the loop in place, run on the examples
    stored as lists of their own. *)
Theorem pad_stories_lengths (stories : list encoded)
    (max_sentence_length max_story_length max_query_length : Z) :
  0 ≤ max_sentence_length →
  (Forall (fits max_sentence_length max_story_length max_query_length)
     stories →
   ∃ out,
     pad_stories stories
       max_sentence_length max_story_length max_query_length = OK out ∧
     Forall2 (padded max_sentence_length max_story_length max_query_length)
       stories out ∧
     Forall (uniform max_sentence_length max_story_length max_query_length)
       out ∧
     ∀ h refs,
       InPlace.store_all stories InPlace.empty = (h, refs) →
       ∃ h',
         InPlace.pad_stories refs
           max_sentence_length max_story_length max_query_length h = OK h' ∧
         InPlace.read h' <$> refs = out) ∧
  (¬ Forall (fits max_sentence_length max_story_length max_query_length)
       stories →
   pad_stories stories
     max_sentence_length max_story_length max_query_length
   = Raise AssertionError ∧
   ∀ h refs,
     InPlace.store_all stories InPlace.empty = (h, refs) →
     InPlace.pad_stories refs
       max_sentence_length max_story_length max_query_length h
     = Raise AssertionError).
Proof.
  intros Hmsl.
  destruct (pad_stories_values stories
              max_sentence_length max_story_length max_query_length Hmsl)
    as [Hfit Hover].
  split.
  - intros (out & Hout & Hpad & Huni)%Hfit. exists out.
    split; [done|]. split; [done|]. split; [done|].
    intros h refs Hstore.
    destruct (pad_stories_in_place stories
                max_sentence_length max_story_length max_query_length
                h refs Hstore) as (_ & _ & H).
    by rewrite Hout in H.
  - intros Hraise%Hover. split; [done|].
    intros h refs Hstore.
    destruct (pad_stories_in_place stories
                max_sentence_length max_story_length max_query_length
                h refs Hstore) as (_ & _ & H).
    by rewrite Hraise in H.
Qed.

Lemma pad_stories_lengths_witness :
  0 ≤ 3 ∧
  Forall (fits 3 2 2) [([[7; 8]], [5], 4)] ∧
  ∃ out,
    pad_stories [([[7; 8]], [5], 4)] 3 2 2 = OK out ∧
    Forall2 (padded 3 2 2) [([[7; 8]], [5], 4)] out ∧
    Forall (uniform 3 2 2) out ∧
    ∀ h refs,
      InPlace.store_all [([[7; 8]], [5], 4)] InPlace.empty = (h, refs) →
      ∃ h', InPlace.pad_stories refs 3 2 2 h = OK h' ∧
            InPlace.read h' <$> refs = out.
Proof.
  assert (H0 : 0 ≤ 3) by lia.
  assert (H1 : Forall (fits 3 2 2) [([[7; 8]], [5], 4)]).
  { repeat constructor; vm_compute; congruence. }
  split; [exact H0|]. split; [exact H1|].
  exact (proj1 (pad_stories_lengths _ 3 2 2 H0) H1).
Defined.

(* ================================================================= *)
(** * Further properties *)

(** ** [tokenize]: the kinds of tokens *)


Lemma word_not_space c : Py.is_word c = true → Py.is_space c = false.
Proof.
  intros Hw. destruct (Py.is_space c) eqn:E; [|done].
  apply PyFacts.space_not_word in E. congruence.
Qed.


















(** ** [parse_stories]: what it raises *)

Lemma digits_Raise s : ∀ acc b e, Py.digits acc b s = Raise e → e = ValueError.
Proof.
  induction s as [|c s IH]; intros acc b e; simpl.
  - destruct b; [done|]. by intros [= <-].
  - destruct (Py.is_digit c); [apply IH|].
    destruct (Ascii.eqb c "_" && b); [apply IH|]. by intros [= <-].
Qed.

Lemma int_Raise s e : Py.int s = Raise e → e = ValueError.
Proof.
  unfold Py.int.
  destruct (Py.rstrip (Py.lstrip (Py.chars s))) as [|c t];
    [apply digits_Raise|].
  destruct c as [[] [] [] [] [] [] [] []]; try apply digits_Raise.
  destruct (Py.digits 0 false t) as [n|e'] eqn:E; simpl; [done|].
  intros [= <-]. by eapply digits_Raise.
Qed.

Lemma unpack2_Raise {A} (l : list A) e : Py.unpack2 l = Raise e → e = ValueError.
Proof. destruct l as [|a [|b [|c l]]]; simpl; by intros [= <-]. Qed.

Lemma unpack3_Raise {A} (l : list A) e : Py.unpack3 l = Raise e → e = ValueError.
Proof. destruct l as [|a [|b [|c [|d l]]]]; simpl; by intros [= <-]. Qed.

Lemma unpack3_OK {A} (l : list A) a b c :
  Py.unpack3 l = OK (a, b, c) ↔ l = [a; b; c].
Proof.
  destruct l as [|a' [|b' [|c' [|d l]]]]; simpl; split; try done.
  - by intros [= -> -> ->].
  - by intros [= -> -> ->].
Qed.

Lemma getitem_Raise {A} (l : list A) i e :
  Py.getitem l i = Raise e → e = IndexError.
Proof.
  unfold Py.getitem. destruct (_ || _); [by intros [= <-]|].
  destruct (l !! _); [done | by intros [= <-]].
Qed.

Lemma line_number_Raise line e : line_number line = Raise e → e = ValueError.
Proof.
  unfold line_number.
  destruct (Py.unpack2 _) as [[nid rest]|e'] eqn:E1; simpl.
  - destruct (Py.int nid) as [n|e'] eqn:E2; simpl; [done|].
    intros [= <-]. by eapply int_Raise.
  - intros [= <-]. by eapply unpack2_Raise.
Qed.

Lemma select_Raise only story supporting e :
  select only story supporting = Raise e →
  only = true ∧ (e = ValueError ∨ e = IndexError).
Proof.
  unfold select. destruct only; [|done].
  intros (tok & _ & H)%mapM_Raise. split; [done|].
  destruct (Py.int tok) as [i|e'] eqn:E; simpl in H.
  - right. by eapply getitem_Raise.
  - left. injection H as <-. by eapply int_Raise.
Qed.

Lemma parse_line_Raise only st line e :
  parse_line only st line = Raise e →
  e = ValueError ∨ (only = true ∧ e = IndexError).
Proof.
  destruct st as [stories story]. unfold parse_line.
  destruct (line_number line) as [[nid rest]|e'] eqn:E1; simpl.
  - destruct (Py.contains Py.TAB rest); [|done].
    destruct (Py.unpack3 _) as [[[query answer] supporting]|e'] eqn:E2; simpl.
    + destruct (select only _ supporting) as [sub|e'] eqn:E3; simpl; [done|].
      intros [= <-]. apply select_Raise in E3 as [-> [->| ->]]; auto.
    + intros [= <-]. left. by eapply unpack3_Raise.
  - intros [= <-]. left. by eapply line_number_Raise.
Qed.

Lemma parse_loop_Raise only lines :
  ∀ st e, parse_loop only st lines = Raise e →
          e = ValueError ∨ (only = true ∧ e = IndexError).
Proof.
  induction lines as [|line lines IH]; intros st e; cbn [parse_loop]; [done|].
  destruct (parse_line only st line) as [st'|e'] eqn:E; simpl.
  - apply IH.
  - intros [= <-]. by eapply parse_line_Raise.
Qed.

Lemma split1_go_absent sep s :
  ∀ acc, existsb (Ascii.eqb sep) s = false →
         Py.split1_go sep acc s = [rev acc ++ s].
Proof.
  induction s as [|c s IH]; intros acc; simpl.
  - by rewrite app_nil_r.
  - intros [Hc Hs]%orb_false_elim. rewrite Ascii.eqb_sym, Hc.
    rewrite IH by done. simpl. by rewrite <- app_assoc.
Qed.

Lemma line_number_no_space line :
  Py.contains " " (Py.strip line) = false →
  line_number line = Raise ValueError.
Proof.
  intros H. unfold line_number, Py.split1.
  unfold Py.contains in H. by rewrite split1_go_absent.
Qed.

(** X4: what [parse_stories] can raise.  Without [only_supporting] the
    only exception is [ValueError]; with it, [IndexError] (a supporting
    index outside the history) is the only other one.  A line without a
    space after stripping (a blank line, a number alone) raises
    [ValueError], and so does a question that does not have exactly three
    fields; the first line that raises ends the whole call, whatever was
    parsed before. *)
Theorem parse_stories_raises :
  (∀ lines e, parse_stories lines false = Raise e → e = ValueError) ∧
  (∀ lines e, parse_stories lines true = Raise e →
              e = ValueError ∨ e = IndexError) ∧
  (∀ only st line,
     Py.contains " " (Py.strip line) = false →
     parse_line only st line = Raise ValueError) ∧
  (∀ only st line nid rest,
     line_number line = OK (nid, rest) →
     Py.contains Py.TAB rest = true →
     length (Py.split Py.TAB rest) ≠ 3%nat →
     parse_line only st line = Raise ValueError) ∧
  (∀ only before line after st e,
     parse_loop only ([], []) before = OK st →
     parse_line only st line = Raise e →
     parse_stories (before ++ line :: after) only = Raise e).
Proof.
  split; [|split; [|split; [|split]]].
  - intros lines e. unfold parse_stories.
    destruct (parse_loop false ([], []) lines) as [[? ?]|e'] eqn:E;
      simpl; [done|].
    intros [= <-]. by apply parse_loop_Raise in E as [?|[? _]].
  - intros lines e. unfold parse_stories.
    destruct (parse_loop true ([], []) lines) as [[? ?]|e'] eqn:E;
      simpl; [done|].
    intros [= <-]. apply parse_loop_Raise in E as [?|[_ ?]]; auto.
  - intros only [stories story] line H. unfold parse_line.
    by rewrite line_number_no_space.
  - intros only [stories story] line nid rest Hn Htab Hlen.
    unfold parse_line. rewrite Hn. simpl. rewrite Htab.
    destruct (Py.unpack3 _) as [[[query answer] supporting]|e] eqn:E; simpl.
    + apply unpack3_OK in E. by rewrite E in Hlen.
    + by apply unpack3_Raise in E as ->.
  - intros only before line after st e Hpre Hline.
    unfold parse_stories. rewrite parse_loop_app, Hpre.
    cbn [bind parse_loop]. by rewrite Hline.
Qed.

(** ** [parse_stories]: sentences, questions, supporting facts *)

Lemma rstrip_snoc y c :
  Py.is_space c = false → Py.rstrip (y ++ [c]) = y ++ [c].
Proof.
  intros Hc. unfold Py.rstrip. rewrite rev_app_distr. simpl. rewrite Hc.
  simpl. by rewrite rev_involutive.
Qed.

Lemma rstrip_ends x :
  Py.rstrip x = [] ∨
  ∃ front c, Py.rstrip x = front ++ [c] ∧ Py.is_space c = false.
Proof.
  unfold Py.rstrip. pose proof (PyFacts.lstrip_no_lead (rev x)) as H.
  destruct (Py.lstrip (rev x)) as [|c y]; [by left|].
  right. exists (rev y), c. by split.
Qed.

Lemma split1_go_pair sep s :
  ∀ acc a b,
    Py.split1_go sep acc s = [a; b] →
    ∃ front, s = front ++ sep :: b ∧ a = rev acc ++ front.
Proof.
  induction s as [|c s IH]; intros acc a b; simpl; [done|].
  destruct (Ascii.eqb_spec c sep) as [->|Hne].
  - intros [= <- <-]. exists []. by rewrite app_nil_r.
  - intros (front & -> & ->)%IH. exists (c :: front). simpl.
    by rewrite <- app_assoc.
Qed.

Lemma last_after {A} (front : list A) x b solid c :
  front ++ x :: b = solid ++ [c] →
  (b = [] ∧ x = c) ∨ ∃ b', b = b' ++ [c].
Proof.
  destruct b as [|y b _] using rev_ind.
  - intros [_ ?]%app_inj_tail. by left.
  - intros H. right. exists b.
    change (front ++ x :: b ++ [y]) with (front ++ (x :: b) ++ [y]) in H.
    rewrite app_assoc in H. by apply app_inj_tail in H as [_ ->].
Qed.

Lemma line_number_rest line nid rest :
  line_number line = OK (nid, rest) → ends_solid rest.
Proof.
  unfold line_number, Py.split1, Py.strip. rewrite PyFacts.chars_str.
  destruct (Py.split1_go " " [] (Py.rstrip (Py.lstrip (Py.chars line))))
    as [|a [|b [|c l]]] eqn:E; simpl; try done.
  destruct (Py.int (Py.str a)) as [n|e]; simpl; [|done].
  intros [= <- <-]. apply split1_go_pair in E as (front & E & _).
  unfold ends_solid. rewrite PyFacts.chars_str.
  destruct (rstrip_ends (Py.lstrip (Py.chars line)))
    as [H|(solid & c & H & Hc)]; rewrite H in E.
  - by destruct front.
  - symmetry in E. apply last_after in E as [[_ <-]|[b' ->]]; [done|].
    by exists b', c.
Qed.

Lemma runs_last s c :
  ∀ acc,
    (∃ p, p ++ [c] ∈ Py.word_run acc (s ++ [c])) ∧
    (∃ p, p ++ [c] ∈ Py.sep_run acc (s ++ [c])).
Proof.
  induction s as [|d s IH]; intros acc; simpl.
  - destruct (Py.is_word c); simpl; split.
    + exists (rev acc). apply list_elem_of_here.
    + exists []. apply list_elem_of_further, list_elem_of_here.
    + exists []. apply list_elem_of_further, list_elem_of_here.
    + exists (rev acc). apply list_elem_of_here.
  - destruct (Py.is_word d); split.
    + apply (IH (d :: acc)).
    + destruct (IH [d]) as [[p Hp] _]. exists p.
      by apply list_elem_of_further.
    + destruct (IH [d]) as [_ [p Hp]]. exists p.
      by apply list_elem_of_further.
    + apply (IH (d :: acc)).
Qed.

(** A string that ends in a character that is not white space has a
    token. *)
Lemma tokenize_nonempty s : ends_solid s → tokenize s ≠ [].
Proof.
  intros (front & c & Hs & Hc). unfold tokenize, Py.re_split.
  rewrite Hs. destruct (runs_last front c []) as [[p Hp] _].
  intros Hnil. apply fmap_nil_inv in Hnil.
  assert (Hin : Py.str (p ++ [c])
                ∈ filter (fun token => Py.truthy (Py.strip token))
                    (map Py.str (Py.word_run [] (front ++ [c])))).
  { apply list_elem_of_filter. split.
    - unfold Py.strip. rewrite PyFacts.chars_str.
      rewrite PyFacts.lstrip_snoc, rstrip_snoc by done.
      apply PyFacts.truthy_spec. intros H.
      apply (f_equal Py.chars) in H. rewrite PyFacts.chars_str in H.
      by destruct (Py.lstrip p).
    - apply list_elem_of_fmap. by exists (p ++ [c]). }
  rewrite Hnil in Hin. by apply elem_of_nil in Hin.
Qed.

Lemma parse_line_entries only stories story line stories' story' :
  parse_line only (stories, story) line = OK (stories', story') →
  Forall (fun x => x = Blank ∨ sentence_entry x) story →
  Forall (fun x => x = Blank ∨ sentence_entry x) story'.
Proof.
  intros Hstep Hall.
  apply parse_line_history in Hstep as (nid & rest & x & Hn & -> & ->).
  apply Forall_app. split.
  - unfold restart. by destruct (nid =? 1).
  - constructor; [|done]. destruct (Py.contains Py.TAB rest); [by left|].
    right. exists (tokenize rest). split; [done|].
    by eapply tokenize_nonempty, line_number_rest.
Qed.

Lemma parse_loop_entries only lines :
  ∀ stories story stories' story',
    parse_loop only (stories, story) lines = OK (stories', story') →
    Forall (fun x => x = Blank ∨ sentence_entry x) story →
    Forall (fun x => x = Blank ∨ sentence_entry x) story'.
Proof.
  induction lines as [|line lines IH]; intros stories story stories' story';
    cbn [parse_loop].
  - by intros [= <- <-].
  - destruct (parse_line only (stories, story) line) as [[s1 h1]|e] eqn:E;
      simpl; [|done].
    intros Hloop Hall. eapply IH; [exact Hloop|].
    by eapply parse_line_entries.
Qed.

Lemma filter_truthy_words story :
  Forall (fun x => x = Blank ∨ sentence_entry x) story →
  filter (fun x => entry_truthy x) story = filter (fun x => is_words x) story.
Proof.
  induction 1 as [|x l Hx _ IH]; [done|].
  destruct Hx as [->|(tokens & -> & Hne)].
  - rewrite !filter_cons_False by exact id. exact IH.
  - destruct tokens as [|t tokens]; [done|].
    rewrite !filter_cons_True by exact I. by rewrite IH.
Qed.

(** X5: a line that parses up to its number always has a token after it,
    so a narrative line never leaves an empty sentence in the history,
    and the story of a question, without [only_supporting], is every
    narrative sentence of its block so far, in order: the test [if x]
    drops the [''] of the questions and nothing else. *)
Theorem parse_stories_sentences :
  (∀ line nid rest,
     line_number line = OK (nid, rest) → tokenize rest ≠ []) ∧
  (∀ only lines stories story,
     parse_loop only ([], []) lines = OK (stories, story) →
     Forall (fun x => x = Blank ∨ sentence_entry x) story) ∧
  (∀ before line stories story stories' story',
     parse_loop false ([], []) before = OK (stories, story) →
     parse_line false (stories, story) line = OK (stories', story') →
     is_question line = true →
     ∃ nid rest query answer,
       line_number line = OK (nid, rest) ∧
       stories'
       = stories ++ [(filter (fun x => is_words x) (restart nid story),
                      query, answer)]).
Proof.
  split; [|split].
  - intros line nid rest H. by eapply tokenize_nonempty, line_number_rest.
  - intros only lines stories story H.
    by eapply parse_loop_entries in H.
  - intros before line stories story stories' story' Hpre Hline Hq.
    apply parse_loop_entries in Hpre; [|done].
    unfold is_question in Hq. unfold parse_line in Hline.
    destruct (line_number line) as [[nid rest]|e]; [|done].
    simpl in Hline. rewrite Hq in Hline.
    destruct (Py.unpack3 _) as [[[query answer] supporting]|e];
      simpl in Hline; [|done].
    injection Hline as <- <-.
    exists nid, rest, (tokenize query), answer. split; [done|].
    rewrite filter_truthy_words; [done|].
    unfold restart. by destruct (nid =? 1).
Qed.

Lemma parse_line_count only stories story line stories' story' :
  parse_line only (stories, story) line = OK (stories', story') →
  length stories'
  = (length stories + if is_question line then 1 else 0)%nat.
Proof.
  unfold parse_line, is_question.
  destruct (line_number line) as [[nid rest]|e]; simpl; [|done].
  destruct (Py.contains Py.TAB rest).
  - destruct (Py.unpack3 _) as [[[query answer] supporting]|e]; simpl; [|done].
    destruct (select only _ supporting) as [sub|e]; simpl; [|done].
    intros [= <- <-]. rewrite length_app. simpl. lia.
  - intros [= <- <-]. lia.
Qed.

Lemma parse_loop_count only lines :
  ∀ stories story stories' story',
    parse_loop only (stories, story) lines = OK (stories', story') →
    length stories'
    = (length stories + length (filter (fun l => is_question l) lines))%nat.
Proof.
  induction lines as [|line lines IH]; intros stories story stories' story';
    cbn [parse_loop].
  - intros [= <- <-]. simpl. lia.
  - destruct (parse_line only (stories, story) line) as [[s1 h1]|e] eqn:E;
      simpl; [|done].
    intros Hloop. apply IH in Hloop. apply parse_line_count in E.
    rewrite Hloop, E. destruct (is_question line) eqn:Hq.
    + rewrite filter_cons_True by (by rewrite Hq). simpl. lia.
    + rewrite filter_cons_False by (rewrite Hq; exact id). lia.
Qed.

(** X6: when [parse_stories] returns, it returns one example for each
    question line (a line with a TAB after its number), and none for the
    other lines. *)
Theorem parse_stories_count (lines : list string) (only_supporting : bool)
    (stories : list example) :
  parse_stories lines only_supporting = OK stories →
  length stories = length (filter (fun l => is_question l) lines).
Proof.
  unfold parse_stories.
  destruct (parse_loop only_supporting ([], []) lines) as [[out h]|e] eqn:E;
    simpl; [|done].
  intros [= <-]. by apply parse_loop_count in E.
Qed.

Lemma parse_stories_count_witness :
  ∃ stories,
    parse_stories two_questions true = OK stories ∧
    length stories = length (filter (fun l => is_question l) two_questions) ∧
    length stories = 2%nat.
Proof.
  eexists. split; [vm_compute; reflexivity|].
  split; [|reflexivity].
  apply (parse_stories_count two_questions true). vm_compute. reflexivity.
Defined.

Lemma parse_line_supporting stories1 stories2 story line stories1' story' :
  parse_line true (stories1, story) line = OK (stories1', story') →
  asked <$> stories1 = asked <$> stories2 →
  ∃ stories2',
    parse_line false (stories2, story) line = OK (stories2', story') ∧
    asked <$> stories1' = asked <$> stories2'.
Proof.
  unfold parse_line.
  destruct (line_number line) as [[nid rest]|e]; cbn [bind]; [|done].
  destruct (Py.contains Py.TAB rest).
  - destruct (Py.unpack3 _) as [[[query answer] supporting]|e];
      cbn [bind]; [|done].
    destruct (select true (restart nid story) supporting) as [sub|e];
      cbn [bind]; [|done].
    intros [= <- <-] Heq. eexists. split; [reflexivity|].
    rewrite !fmap_app, Heq. done.
  - intros [= <- <-] Heq. by exists stories2.
Qed.

Lemma parse_loop_supporting lines :
  ∀ stories1 stories2 story stories1' story',
    parse_loop true (stories1, story) lines = OK (stories1', story') →
    asked <$> stories1 = asked <$> stories2 →
    ∃ stories2',
      parse_loop false (stories2, story) lines = OK (stories2', story') ∧
      asked <$> stories1' = asked <$> stories2'.
Proof.
  induction lines as [|line lines IH];
    intros stories1 stories2 story stories1' story'; cbn [parse_loop].
  - intros [= <- <-] Heq. by exists stories2.
  - destruct (parse_line true (stories1, story) line) as [[s1 h1]|e] eqn:E;
      cbn [bind]; [|done].
    intros Hloop Heq.
    destruct (parse_line_supporting _ stories2 _ _ _ _ E Heq)
      as (s2 & -> & Heq').
    cbn [bind]. by eapply IH.
Qed.

(** X7: [only_supporting] changes the stories and nothing else: lines
    that parse with it parse without it, to as many examples, with the
    same queries and answers at the same places. *)
Theorem parse_stories_supporting (lines : list string)
    (supported : list example) :
  parse_stories lines true = OK supported →
  ∃ full,
    parse_stories lines false = OK full ∧
    asked <$> supported = asked <$> full.
Proof.
  unfold parse_stories.
  destruct (parse_loop true ([], []) lines) as [[out h]|e] eqn:E;
    simpl; [|done].
  intros [= <-].
  destruct (parse_loop_supporting lines [] [] [] out h E eq_refl)
    as (full & -> & Heq).
  by exists full.
Qed.

Lemma parse_stories_supporting_witness :
  ∃ supported full,
    parse_stories two_questions true = OK supported ∧
    parse_stories two_questions false = OK full ∧
    asked <$> supported = asked <$> full.
Proof.
  eexists.
  assert (H : parse_stories two_questions true
              = OK (match parse_stories two_questions true with
                    | OK l => l
                    | Raise _ => []
                    end)) by (vm_compute; reflexivity).
  destruct (parse_stories_supporting _ _ H) as (full & Hfull & Heq).
  exists full. split; [exact H|]. by split.
Defined.

Lemma getitem_spec {A} (l : list A) (i : Z) :
  (0 ≤ i < len l →
   ∃ x, l !! Z.to_nat i = Some x ∧ Py.getitem l i = OK x) ∧
  (- len l ≤ i < 0 →
   ∃ x, l !! Z.to_nat (len l + i) = Some x ∧ Py.getitem l i = OK x) ∧
  (i < - len l ∨ len l ≤ i → Py.getitem l i = Raise IndexError).
Proof.
  unfold Py.getitem, len. split; [|split].
  - intros Hi. destruct (Z.ltb_spec i 0) as [?|_]; [lia|].
    destruct (Z.ltb_spec i 0) as [?|_]; [lia|].
    destruct (Z.leb_spec (Z.of_nat (length l)) i) as [?|_]; [lia|]. simpl.
    destruct (l !! Z.to_nat i) as [x|] eqn:E; [by exists x|].
    apply lookup_ge_None in E. lia.
  - intros Hi. destruct (Z.ltb_spec i 0) as [_|?]; [|lia].
    destruct (Z.ltb_spec (i + Z.of_nat (length l)) 0) as [?|_]; [lia|].
    destruct (Z.leb_spec (Z.of_nat (length l)) (i + Z.of_nat (length l)))
      as [?|_]; [lia|]. simpl.
    replace (Z.of_nat (length l) + i) with (i + Z.of_nat (length l)) by lia.
    destruct (l !! Z.to_nat (i + Z.of_nat (length l))) as [x|] eqn:E;
      [by exists x|].
    apply lookup_ge_None in E. lia.
  - intros Hi. destruct (Z.ltb_spec i 0) as [?|?].
    + destruct (Z.ltb_spec (i + Z.of_nat (length l)) 0) as [?|?]; [done|lia].
    + destruct (Z.ltb_spec i 0) as [?|_]; [lia|].
      destruct (Z.leb_spec (Z.of_nat (length l)) i) as [?|?]; [done|lia].
Qed.

(** X8: how a supporting index is used, for a supporting field of one
    index [k].  From 1 to the length of the history it selects the k-th
    entry; 0 and the negative indices down to minus the length plus one
    do not raise: [story[k - 1]] counts them from the end of the history,
    0 being its last entry; any other index raises [IndexError]. *)
Theorem select_index (story : list entry) (supporting tok : string) (k : Z) :
  Py.words supporting = [tok] →
  Py.int tok = OK k →
  (1 ≤ k ≤ len story →
   ∃ x, story !! Z.to_nat (k - 1) = Some x ∧
        select true story supporting = OK [x]) ∧
  (- len story < k ≤ 0 →
   ∃ x, story !! Z.to_nat (len story + k - 1) = Some x ∧
        select true story supporting = OK [x]) ∧
  (k ≤ - len story ∨ len story < k →
   select true story supporting = Raise IndexError).
Proof.
  intros Hw Hk. unfold select. rewrite Hw. cbn [mapM]. rewrite Hk.
  cbn [bind]. destruct (getitem_spec story (k - 1)) as (H1 & H2 & H3).
  split; [|split].
  - intros Hr. destruct H1 as (x & Hx & ->); [lia|]. by exists x.
  - intros Hr. destruct H2 as (x & Hx & ->); [lia|]. exists x.
    split; [|done]. rewrite <- Hx. f_equal. lia.
  - intros Hr. by rewrite H3 by lia.
Qed.

Lemma select_index_witness :
  Py.words "0" = ["0"] ∧ Py.int "0" = OK 0 ∧
  select true [Words ["a"]; Blank; Words ["b"]] "0" = OK [Words ["b"]].
Proof.
  assert (Hw : Py.words "0" = ["0"]) by reflexivity.
  assert (Hk : Py.int "0" = OK 0) by reflexivity.
  split; [exact Hw|]. split; [exact Hk|].
  destruct (select_index [Words ["a"]; Blank; Words ["b"]] "0" "0" 0 Hw Hk)
    as (_ & H & _).
  destruct H as (x & Hx & ->); [vm_compute; split; congruence|].
  vm_compute in Hx. by injection Hx as <-.
Defined.

(** ** [truncate_stories]: every bound *)

Lemma slice_from_suffix {A} (i : Z) (l : list A) :
  Py.slice_from i l `suffix_of` l.
Proof. unfold Py.slice_from. apply suffix_drop. Qed.

(** X9: whatever the bound (also 0 or negative), [truncate_stories]
    returns as many examples, each with its query and its answer, and a
    story that is a suffix of the one it had: sentences are dropped from
    the front only, none is changed, moved or added. *)
Theorem truncate_stories_suffix {S Q A : Type}
    (stories : list (list S * Q * A)) (max_length : Z) :
  Forall2 (fun ex out =>
             out.1.2 = ex.1.2 ∧ out.2 = ex.2 ∧ out.1.1 `suffix_of` ex.1.1)
          stories (truncate_stories stories max_length).
Proof.
  unfold truncate_stories.
  induction stories as [|[[story query] answer] stories IH]; simpl;
    constructor; [|done].
  simpl. repeat split. apply slice_from_suffix.
Qed.

Lemma slice_from_twice {A} (n m : Z) (l : list A) :
  0 < n → 0 < m →
  Py.slice_from (- m) (Py.slice_from (- n) l) = Py.slice_from (- Z.min n m) l.
Proof.
  intros Hn Hm. rewrite !slice_from_last by lia.
  rewrite drop_drop, length_drop. f_equal. lia.
Qed.

Lemma slice_from_within {A} (n : Z) (l : list A) :
  0 < n → len l ≤ n → Py.slice_from (- n) l = l.
Proof.
  intros Hn Hl. rewrite slice_from_last by done. unfold len in Hl.
  replace (length l - Z.to_nat n)%nat with 0%nat by lia. apply drop_0.
Qed.

(** X10: for bounds of at least 1, truncating twice is truncating once
    with the smaller bound, and truncating stories that are within the
    bound changes nothing. *)
Theorem truncate_stories_twice {S Q A : Type}
    (stories : list (list S * Q * A)) (n m : Z) :
  0 < n → 0 < m →
  truncate_stories (truncate_stories stories n) m
    = truncate_stories stories (Z.min n m) ∧
  (Forall (fun ex => len ex.1.1 ≤ n) stories →
   truncate_stories stories n = stories).
Proof.
  intros Hn Hm. unfold truncate_stories. split.
  - induction stories as [|[[story query] answer] stories IH]; simpl; [done|].
    by rewrite IH, slice_from_twice.
  - induction 1 as [|[[story query] answer] stories Hex _ IH]; simpl; [done|].
    simpl in Hex. by rewrite IH, slice_from_within.
Qed.

Lemma truncate_stories_twice_witness :
  0 < 3 ∧ 0 < 2 ∧
  truncate_stories (truncate_stories [([1; 2; 3; 4], 0, 0)] 3) 2
    = truncate_stories [([1; 2; 3; 4], 0, 0)] (Z.min 3 2).
Proof.
  assert (H3 : 0 < 3) by lia. assert (H2 : 0 < 2) by lia.
  split; [exact H3|]. split; [exact H2|].
  exact (proj1 (truncate_stories_twice [([1; 2; 3; 4], 0, 0)] 3 2 H3 H2)).
Defined.

(** X11: with a negative bound [story[-max_length:]] is a slice from a
    positive index: [truncate_stories] drops that many sentences from the
    front of each story and keeps the rest, however long. *)
Theorem truncate_stories_negative {S Q A : Type}
    (stories : list (list S * Q * A)) (max_length : Z) :
  max_length < 0 →
  truncate_stories stories max_length
  = (fun '(story, query, answer) =>
       (drop (Z.to_nat (- max_length)) story, query, answer)) <$> stories.
Proof.
  intros Hn. unfold truncate_stories.
  induction stories as [|[[story query] answer] stories IH]; simpl; [done|].
  rewrite IH. do 3 f_equal. unfold Py.slice_from.
  destruct (Z.ltb_spec (- max_length) 0) as [?|_]; [lia|].
  destruct (Z.min_spec (- max_length) (Z.of_nat (length story)))
    as [[_ ->]|[Hle ->]]; [done|].
  rewrite Nat2Z.id, !drop_ge by lia. done.
Qed.

Lemma truncate_stories_negative_witness :
  -1 < 0 ∧
  truncate_stories [([1; 2; 3], 0, 0)] (-1) = [([2; 3], 0, 0)].
Proof.
  assert (H : -1 < 0) by lia. split; [exact H|].
  exact (truncate_stories_negative [([1; 2; 3], 0, 0)] (-1) H).
Defined.

(** ** [get_tokenizer] and [tokenize_stories] together *)

Lemma last_occurrence {A} `{EqDecision A} (l : list A) t :
  t ∈ l → ∃ j, l !! j = Some t ∧ t ∉ drop (S j) l.
Proof.
  induction l as [|x l IH]; [by intros ?%elem_of_nil|].
  intros Hin. destruct (decide (t ∈ l)) as [Hl|Hl].
  - destruct (IH Hl) as (j & Hj & Hlast). by exists (S j).
  - apply elem_of_cons in Hin as [->|?]; [|done].
    exists 0%nat. split; [done|]. simpl. by rewrite drop_0.
Qed.

(** Every entry of the dictionary of an enumeration points at its key. *)
Lemma dict_of_enumerate_lookup (vocab : list string) t i :
  dict_of_enumerate vocab !! t = Some i →
  0 ≤ i < len vocab ∧ vocab !! Z.to_nat i = Some t.
Proof.
  unfold dict_of_enumerate, enumerate.
  destruct (dict_fold_lookup vocab ∅ 0) as [Habsent Hlast].
  destruct (decide (t ∈ vocab)) as [Hin|Hout].
  - destruct (last_occurrence vocab t Hin) as (j & Hj & Hl).
    rewrite (Hlast j t Hj Hl). intros [= <-].
    apply lookup_lt_Some in Hj as Hlt. unfold len.
    split; [lia|]. by rewrite Z.add_0_l, Nat2Z.id.
  - by rewrite (Habsent t Hout), lookup_empty.
Qed.

Lemma dict_of_enumerate_keys (vocab : list string) t :
  is_Some (dict_of_enumerate vocab !! t) ↔ t ∈ vocab.
Proof.
  split.
  - intros [i Hi]. apply dict_of_enumerate_lookup in Hi as [_ Hi].
    by eapply list_elem_of_lookup_2.
  - intros Hin. unfold dict_of_enumerate, enumerate.
    destruct (dict_fold_lookup vocab ∅ 0) as [_ Hlast].
    destruct (last_occurrence vocab t Hin) as (j & Hj & Hl).
    rewrite (Hlast j t Hj Hl). by eexists.
Qed.

(** X12: the vocabulary decodes what the dictionary encodes: every entry
    [token_to_id[t] = i] of the dictionary has [0 <= i < len(vocab)] and
    [vocab[i] = t]; its keys are the pad token and the tokens of the
    examples, and no other string. *)
Theorem get_tokenizer_round_trip (stories : list example) :
  let vocab := (get_tokenizer stories).1 in
  let token_to_id := (get_tokenizer stories).2 in
  (∀ t i, token_to_id !! t = Some i →
          0 ≤ i < len vocab ∧ vocab !! Z.to_nat i = Some t) ∧
  (∀ t, is_Some (token_to_id !! t) ↔
        t = PAD_TOKEN ∨ t ∈ tokens_all stories).
Proof.
  simpl. split.
  - intros t i. apply dict_of_enumerate_lookup.
  - intros t. rewrite dict_of_enumerate_keys, elem_of_cons.
    by rewrite sorted_set_elem.
Qed.

Lemma ids_of_tokens d tokens ids :
  ids_of d tokens ids →
  Forall (fun i => ∃ t, t ∈ tokens ∧ d !! t = Some i) ids.
Proof.
  induction 1 as [|t i tokens ids Hti _ IH]; constructor.
  - exists t. split; [apply list_elem_of_here | done].
  - eapply Forall_impl; [exact IH|]. intros j (t' & Ht' & Hj).
    exists t'. split; [by apply list_elem_of_further | done].
Qed.

Lemma encodes_ids d ex out :
  encodes d ex out →
  Forall (fun i => ∃ t, t ∈ example_tokens ex ∧ d !! t = Some i)
         (encoded_ids out).
Proof.
  destruct ex as [[story query] answer], out as [[story' query'] answer'].
  intros (H1 & H2 & H3). unfold encoded_ids, example_tokens.
  rewrite !Forall_app. split; [|split].
  - clear -H1. induction H1 as [|x y l k Hxy _ IH]; simpl; [done|].
    apply Forall_app. split.
    + apply ids_of_tokens in Hxy.
      eapply Forall_impl; [exact Hxy|]. intros i (t & Ht & Hi).
      exists t. split; [|done]. rewrite !elem_of_app. auto.
    + eapply Forall_impl; [exact IH|]. intros i (t & Ht & Hi).
      exists t. split; [|done].
      rewrite !elem_of_app in Ht. rewrite !elem_of_app. tauto.
  - apply ids_of_tokens in H2.
    eapply Forall_impl; [exact H2|]. intros i (t & Ht & Hi).
    exists t. split; [|done]. rewrite !elem_of_app. auto.
  - constructor; [|done]. exists answer. split; [|done].
    rewrite !elem_of_app. right. right. apply list_elem_of_here.
Qed.

Lemma tokens_all_elem stories t :
  t ∈ tokens_all stories ↔ ∃ ex, ex ∈ stories ∧ t ∈ example_tokens ex.
Proof.
  unfold tokens_all. rewrite elem_of_concat. split.
  - intros (l & Ht & (ex & -> & Hex)%list_elem_of_fmap). by exists ex.
  - intros (ex & Hex & Ht). exists (example_tokens ex). split; [done|].
    apply list_elem_of_fmap. by exists ex.
Qed.

Lemma get_tokenizer_id (population : list example) t :
  t ∈ tokens_all population →
  ∃ i, (get_tokenizer population).2 !! t = Some i ∧
       1 ≤ i ≤ len (get_tokenizer population).1 - 1.
Proof.
  intros [j Hj]%sorted_set_elem%list_elem_of_lookup_1. simpl.
  exists (Z.of_nat j + 1). split.
  - apply dict_of_enumerate_rest; [apply sorted_set_NoDup | done].
  - apply lookup_lt_Some in Hj. unfold len. simpl. lia.
Qed.

(** X13: encoding with the dictionary of [get_tokenizer] succeeds exactly
    when every token to encode is the pad token or a token the dictionary
    was built from; a token that was not seen makes it raise [KeyError]. *)
Theorem tokenize_stories_vocabulary (population stories : list example) :
  ((∀ t, t ∈ tokens_all stories →
         t = PAD_TOKEN ∨ t ∈ tokens_all population) →
   ∃ out, tokenize_stories stories (get_tokenizer population).2 = OK out) ∧
  (¬ (∀ t, t ∈ tokens_all stories →
           t = PAD_TOKEN ∨ t ∈ tokens_all population) →
   tokenize_stories stories (get_tokenizer population).2 = Raise KeyError).
Proof.
  assert (Hiff : all_known (get_tokenizer population).2 (tokens_all stories)
                 ↔ ∀ t, t ∈ tokens_all stories →
                        t = PAD_TOKEN ∨ t ∈ tokens_all population).
  { unfold all_known. rewrite Forall_forall.
    split; intros H t Ht; specialize (H t Ht); simpl in *.
    - apply dict_of_enumerate_keys in H.
      apply elem_of_cons in H. by rewrite sorted_set_elem in H.
    - apply dict_of_enumerate_keys, elem_of_cons.
      by rewrite sorted_set_elem. }
  split.
  - intros H%Hiff. by apply tokenize_stories_total.
  - intros Hnot.
    destruct (tokenize_stories stories _) as [out|e] eqn:E.
    + destruct Hnot. by apply Hiff, (tokenize_stories_known _ _ out).
    + by apply tokenize_stories_Raise in E as ->.
Qed.

Lemma tokenize_stories_population (population stories : list example) :
  (∀ ex, ex ∈ stories → ex ∈ population) →
  ∃ out,
    tokenize_stories stories (get_tokenizer population).2 = OK out ∧
    Forall (fun o =>
              Forall (fun i => 1 ≤ i ≤ len (get_tokenizer population).1 - 1)
                     (encoded_ids o))
           out.
Proof.
  intros Hsub.
  assert (Htok : ∀ t, t ∈ tokens_all stories → t ∈ tokens_all population).
  { intros t (ex & Hex & Ht)%tokens_all_elem.
    apply tokens_all_elem. exists ex. auto. }
  destruct (tokenize_stories_total stories (get_tokenizer population).2)
    as [out Hout].
  { apply Forall_forall. intros t Ht.
    destruct (get_tokenizer_id population t (Htok t Ht)) as (i & Hi & _).
    by exists i. }
  exists out. split; [done|].
  apply tokenize_stories_OK in Hout.
  induction Hout as [|ex o l k Hex _ IH]; constructor.
  - apply encodes_ids in Hex.
    eapply Forall_impl; [exact Hex|]. intros i (t & Ht & Hi).
    destruct (get_tokenizer_id population t) as (i' & Hi' & Hr).
    { apply Htok, tokens_all_elem. exists ex.
      split; [apply list_elem_of_here | done]. }
    rewrite Hi in Hi'. by injection Hi' as <-.
  - apply IH.
    + intros ex' Hex'. by apply Hsub, list_elem_of_further.
    + intros t (ex' & Hex' & Ht)%tokens_all_elem. apply Htok, tokens_all_elem.
      exists ex'. split; [by apply list_elem_of_further | done].
Qed.

(** X14: encoding examples with a dictionary built from a population
    that holds them (themselves, or train and test together) never
    raises, and every id it writes is between 1 and the vocabulary size
    minus 1: the pad id 0 is never the id of a token of the data. *)
Theorem tokenize_stories_own_vocabulary (population stories : list example) :
  (∀ ex, ex ∈ stories → ex ∈ population) →
  ∃ out,
    tokenize_stories stories (get_tokenizer population).2 = OK out ∧
    Forall (fun o =>
              Forall (fun i => 1 ≤ i ≤ len (get_tokenizer population).1 - 1)
                     (encoded_ids o))
           out.
Proof. apply tokenize_stories_population. Qed.

Lemma tokenize_stories_own_vocabulary_witness :
  (∀ ex, ex ∈ [([Words ["a"]], ["b"], "_PAD")] →
         ex ∈ [([Words ["a"]], ["b"], "_PAD"); ([], ["c"], "d")]) ∧
  ∃ out,
    tokenize_stories [([Words ["a"]], ["b"], "_PAD")]
      (get_tokenizer [([Words ["a"]], ["b"], "_PAD"); ([], ["c"], "d")]).2
    = OK out ∧
    Forall (fun o =>
              Forall (fun i =>
                        1 ≤ i ≤
                        len (get_tokenizer
                               [([Words ["a"]], ["b"], "_PAD");
                                ([], ["c"], "d")]).1 - 1)
                     (encoded_ids o))
           out.
Proof.
  assert (H : ∀ ex, ex ∈ [([Words ["a"]], ["b"], "_PAD")] →
                    ex ∈ [([Words ["a"]], ["b"], "_PAD"); ([], ["c"], "d")]).
  { intros ex ->%list_elem_of_singleton. apply list_elem_of_here. }
  split; [exact H|]. exact (tokenize_stories_own_vocabulary _ _ H).
Defined.

(** ** [pad_stories]: padded input, and what the loop in place leaves alone *)

Lemma pad_story_uniform msl mstl mql ex :
  uniform msl mstl mql ex → pad_story msl mstl mql ex = OK ex.
Proof.
  destruct ex as [[story query] answer]. intros (Hall & Hs & Hq).
  apply pad_story_OK. split.
  - repeat split; [|lia|lia].
    eapply Forall_impl; [exact Hall|]. intros s Hs'. simpl in Hs'. lia.
  - unfold padded. rewrite Hs, Hq, !Z.sub_diag. simpl.
    rewrite !app_nil_r. split; [|done].
    symmetry. etrans; [|apply list_fmap_id].
    apply list_fmap_ext. intros i s Hi.
    rewrite Forall_forall in Hall.
    rewrite (Hall s) by (by eapply list_elem_of_lookup_2).
    rewrite Z.sub_diag. simpl. apply app_nil_r.
Qed.

Lemma pad_stories_fixed msl mstl mql stories :
  Forall (uniform msl mstl mql) stories →
  pad_stories stories msl mstl mql = OK stories.
Proof.
  intros H. apply mapM_OK.
  induction H as [|ex l Hex _ IH]; constructor; [|done].
  by apply pad_story_uniform.
Qed.

Lemma pad_stories_OK_uniform msl mstl mql stories out :
  0 ≤ msl →
  pad_stories stories msl mstl mql = OK out →
  Forall2 (padded msl mstl mql) stories out ∧
  Forall (fits msl mstl mql) stories ∧
  Forall (uniform msl mstl mql) out.
Proof.
  intros Hmsl H%mapM_OK.
  induction H as [|ex o l k Hex _ (IH1 & IH2 & IH3)]; [done|].
  apply pad_story_OK in Hex as [Hf Hp].
  repeat split; constructor; try done. by eapply padded_uniform.
Qed.

(** X15: padding is stable: examples that already have the three target
    lengths are returned as they are, so padding the result of
    [pad_stories] again with the same targets changes nothing (and does
    not raise). *)
Theorem pad_stories_again (stories : list encoded)
    (max_sentence_length max_story_length max_query_length : Z) :
  0 ≤ max_sentence_length →
  (Forall (uniform max_sentence_length max_story_length max_query_length)
     stories →
   pad_stories stories max_sentence_length max_story_length max_query_length
   = OK stories) ∧
  (∀ out,
     pad_stories stories
       max_sentence_length max_story_length max_query_length = OK out →
     pad_stories out max_sentence_length max_story_length max_query_length
     = OK out).
Proof.
  intros Hmsl. split; [apply pad_stories_fixed|].
  intros out (_ & _ & Huni)%pad_stories_OK_uniform; [|done].
  by apply pad_stories_fixed.
Qed.

Lemma pad_stories_again_witness :
  0 ≤ 3 ∧
  pad_stories [([[7; 8]], [5], 4)] 3 2 2
    = OK [([[7; 8; 0]; [0; 0; 0]], [5; 0], 4)] ∧
  pad_stories [([[7; 8; 0]; [0; 0; 0]], [5; 0], 4)] 3 2 2
    = OK [([[7; 8; 0]; [0; 0; 0]], [5; 0], 4)].
Proof.
  assert (H0 : 0 ≤ 3) by lia.
  assert (H1 : pad_stories [([[7; 8]], [5], 4)] 3 2 2
               = OK [([[7; 8; 0]; [0; 0; 0]], [5; 0], 4)]) by reflexivity.
  split; [exact H0|]. split; [exact H1|].
  exact (proj2 (pad_stories_again _ 3 2 2 H0) _ H1).
Defined.

(** X16: the loop in place, on examples made of distinct lists of the
    store, changes those lists only: the value it leaves for the examples
    is the result of [pad_stories] on the values they had; every other
    list of ids that was in the store, and every other story, is as
    before; no list is removed. *)
Theorem pad_stories_in_place_frame (h h' : InPlace.heap)
    (refs : list InPlace.example_ref)
    (max_sentence_length max_story_length max_query_length : Z) :
  InPlace.separated h refs →
  InPlace.pad_stories refs
    max_sentence_length max_story_length max_query_length h = OK h' →
  pad_stories (InPlace.read h <$> refs)
    max_sentence_length max_story_length max_query_length
  = OK (InPlace.read h' <$> refs) ∧
  length (InPlace.sentences h') = length (InPlace.sentences h) ∧
  (length (InPlace.ids h) ≤ length (InPlace.ids h'))%nat ∧
  (∀ s, s ∉ (fun ex : InPlace.example_ref => ex.1.1) <$> refs →
        InPlace.sentences h' !!! s = InPlace.sentences h !!! s) ∧
  (∀ a, (a < length (InPlace.ids h))%nat →
        a ∉ concat (InPlace.cells h <$> refs) →
        InPlace.ids h' !!! a = InPlace.ids h !!! a).
Proof.
  intros Hsep Hrun.
  pose proof (pad_stories_in_place_spec
                max_sentence_length max_story_length max_query_length
                refs h Hsep) as H.
  destruct (pad_stories (InPlace.read h <$> refs) _ _ _) as [out|e].
  - destruct H as (h'' & Hrun' & Hread & Hrest).
    rewrite Hrun in Hrun'. injection Hrun' as <-.
    split; [by rewrite Hread | exact Hrest].
  - rewrite Hrun in H. done.
Qed.

Lemma pad_stories_in_place_frame_witness :
  InPlace.separated spare_store [(0%nat, 2%nat, 4)] ∧
  ∃ h',
    InPlace.pad_stories [(0%nat, 2%nat, 4)] 3 2 2 spare_store = OK h' ∧
    InPlace.read h' <$> [(0%nat, 2%nat, 4)]
      = [([[7; 8; 0]; [0; 0; 0]], [5; 0], 4)] ∧
    InPlace.ids h' !!! 0%nat = [9].
Proof.
  assert (Hsep : InPlace.separated spare_store [(0%nat, 2%nat, 4)]).
  { unfold InPlace.separated.
    repeat split; simpl; apply (bool_decide_unpack _); by vm_compute. }
  split; [exact Hsep|].
  eexists. split; [reflexivity|].
  pose proof (pad_stories_in_place_frame spare_store _
                [(0%nat, 2%nat, 4)] 3 2 2 Hsep eq_refl) as (_ & _ & _ & _ & H).
  split; [reflexivity|].
  rewrite H; [reflexivity | simpl; lia |].
  apply (bool_decide_unpack _). by vm_compute.
Defined.

(** ** [parse_data]: the stages together *)

(** [parse_data] is the lookup of the task, the two members of the
    archive, their parsing, and [assemble]. *)
Lemma parse_data_stages (FLAGS : flags) :
  parse_data FLAGS
  = let* task_name :=
      match task_names_dict !! dataset_id FLAGS with
      | Some name => OK name
      | None => Raise KeyError
      end in
    let* f_train :=
      extractfile FLAGS (stories_path FLAGS task_name "_train.txt") in
    let* f_test :=
      extractfile FLAGS (stories_path FLAGS task_name "_test.txt") in
    let* stories_train := parse_stories f_train false in
    let* stories_test := parse_stories f_test false in
    assemble (truncated_story_length (dataset_id FLAGS))
      stories_train stories_test.
Proof. reflexivity. Qed.

Lemma foldl_max_spec (l : list Z) :
  ∀ a, let m := foldl Z.max a l in
       m ∈ a :: l ∧ a ≤ m ∧ Forall (fun x => x ≤ m) l.
Proof.
  induction l as [|x l IH]; intros a; simpl.
  - split; [apply list_elem_of_here|]. split; [lia | done].
  - destruct (IH (Z.max a x)) as (Hin & Hle & Hall).
    split; [|split].
    + apply elem_of_cons in Hin as [Heq|Hin].
      * rewrite Heq. destruct (Z.max_spec a x) as [[_ ->]|[_ ->]].
        -- apply list_elem_of_further, list_elem_of_here.
        -- apply list_elem_of_here.
      * by do 2 apply list_elem_of_further.
    + lia.
    + constructor; [lia | done].
Qed.

Lemma py_max_OK (l : list Z) :
  l ≠ [] → ∃ m, py_max l = OK m ∧ m ∈ l ∧ Forall (fun x => x ≤ m) l.
Proof.
  destruct l as [|a l]; [done|]. intros _. simpl.
  destruct (foldl_max_spec l a) as (Hin & Hle & Hall).
  eexists. split; [done|]. split; [done|]. by constructor.
Qed.

Lemma py_max_nil : py_max [] = Raise ValueError.
Proof. reflexivity. Qed.

Lemma tokens_all_app l1 l2 : tokens_all (l1 ++ l2) = tokens_all l1 ++ tokens_all l2.
Proof. unfold tokens_all. by rewrite map_app, concat_app. Qed.

(** The maxima of lines 250-254 exist as soon as one story has a
    sentence, and every example fits them. *)
Lemma maxima_fit (all : list encoded) :
  Exists (fun o : encoded => o.1.1 ≠ []) all →
  ∃ msl mstl mql,
    py_max (concat (map (fun '(story, _, _) => map len story) all)) = OK msl ∧
    py_max (map (fun '(story, _, _) => len story) all) = OK mstl ∧
    py_max (map (fun '(_, query, _) => len query) all) = OK mql ∧
    Forall (fits msl mstl mql) all ∧
    0 ≤ msl ∧
    (∃ o, o ∈ all ∧ len o.1.1 = mstl) ∧
    (∃ o s, o ∈ all ∧ s ∈ o.1.1 ∧ len s = msl).
Proof.
  intros Hex.
  assert (Hne : all ≠ []) by (intros ->; by apply Exists_nil in Hex).
  destruct (py_max_OK (concat (map (fun '(story, _, _) => map len story) all)))
    as (msl & -> & Hmsl & Hallmsl).
  { apply Exists_exists in Hex as ([[story query] answer] & Hin & Hs).
    simpl in Hs. destruct story as [|s story]; [done|].
    intros Hnil.
    assert (Hc : len s ∈ concat
              (map (fun '(story, _, _) => map len story) all)).
    { apply elem_of_concat. exists (map len (s :: story)).
      split; [apply list_elem_of_here|].
      apply list_elem_of_fmap. by exists (s :: story, query, answer). }
    rewrite Hnil in Hc. by apply elem_of_nil in Hc. }
  destruct (py_max_OK (map (fun '(story, _, _) => len story) all))
    as (mstl & -> & Hmstl & Hallmstl).
  { by destruct all. }
  destruct (py_max_OK (map (fun '(_, query, _) => len query) all))
    as (mql & -> & Hmql & Hallmql).
  { by destruct all. }
  exists msl, mstl, mql. repeat split; try done.
  - apply Forall_forall. intros [[story query] answer] Hin.
    rewrite Forall_forall in Hallmsl, Hallmstl, Hallmql.
    repeat split.
    + apply Forall_forall. intros s Hs. apply Hallmsl.
      apply elem_of_concat. exists (map len story).
      split; [by apply list_elem_of_fmap; exists s|].
      apply list_elem_of_fmap. by exists (story, query, answer).
    + apply Hallmstl, list_elem_of_fmap. by exists (story, query, answer).
    + apply Hallmql, list_elem_of_fmap. by exists (story, query, answer).
  - apply elem_of_concat in Hmsl as (l & Hl & Hin).
    apply list_elem_of_fmap in Hin as ([[story query] answer] & -> & _).
    apply list_elem_of_fmap in Hl as (s & -> & _). apply len_nonneg.
  - apply list_elem_of_fmap in Hmstl as ([[story query] answer] & -> & Hin).
    by exists (story, query, answer).
  - apply elem_of_concat in Hmsl as (l & Hl & Hin).
    apply list_elem_of_fmap in Hin as ([[story query] answer] & -> & Hin).
    apply list_elem_of_fmap in Hl as (s & -> & Hs).
    by exists (story, query, answer), s.
Qed.

Lemma maxima_none (all : list encoded) :
  Forall (fun o : encoded => o.1.1 = []) all →
  py_max (concat (map (fun '(story, _, _) => map len story) all))
  = Raise ValueError.
Proof.
  intros H.
  assert (E : concat (map (fun '(story, _, _) => map len story) all) = []).
  { induction H as [|[[story query] answer] l Hs _ IH]; [done|].
    simpl in *. by rewrite Hs, IH. }
  by rewrite E.
Qed.

Lemma padded_ids (P : Z → Prop) msl mstl mql ex out :
  padded msl mstl mql ex out →
  P PAD_ID →
  Forall P (encoded_ids ex) → Forall P (encoded_ids out).
Proof.
  destruct ex as [[story query] answer], out as [[story' query'] answer'].
  intros (-> & -> & ->) H0. unfold encoded_ids.
  rewrite !Forall_app. intros (Hs & Hq & Ha).
  rewrite concat_app, Forall_app. repeat split; try done.
  - apply Forall_concat. apply Forall_concat in Hs.
    apply Forall_fmap. eapply Forall_impl; [exact Hs|].
    intros s Hs'. simpl. apply Forall_app. split; [done|].
    by apply Forall_replicate.
  - apply Forall_concat. apply Forall_replicate.
    by apply Forall_replicate.
  - by apply Forall_replicate.
Qed.

Lemma truncate_stories_bounded {S Q A : Type}
    (stories : list (list S * Q * A)) (bound : Z) :
  0 < bound →
  Forall (fun ex => len ex.1.1 ≤ bound) (truncate_stories stories bound).
Proof.
  intros Hb. unfold truncate_stories.
  induction stories as [|[[story query] answer] stories IH]; simpl;
    constructor; [|done].
  simpl. rewrite slice_from_last by done. unfold len.
  rewrite length_drop. lia.
Qed.

Lemma truncate_stories_nonempty {S Q A : Type}
    (stories : list (list S * Q * A)) (bound : Z) :
  0 < bound →
  Exists (fun ex => ex.1.1 ≠ []) stories →
  Exists (fun ex => ex.1.1 ≠ []) (truncate_stories stories bound).
Proof.
  intros Hb. unfold truncate_stories.
  induction 1 as [[[story query] answer] l Hs|ex l _ IH]; simpl.
  - left. simpl in *. rewrite slice_from_last by done.
    intros Hnil. apply (f_equal length) in Hnil.
    rewrite length_drop in Hnil. simpl in Hnil.
    destruct story; [done|]. simpl in Hnil. lia.
  - right. destruct ex as [[? ?] ?]. exact IH.
Qed.

Lemma truncate_stories_empty {S Q A : Type}
    (stories : list (list S * Q * A)) (bound : Z) :
  Forall (fun ex => ex.1.1 = []) stories →
  Forall (fun ex => ex.1.1 = []) (truncate_stories stories bound).
Proof.
  unfold truncate_stories.
  induction 1 as [|[[story query] answer] l Hs _ IH]; simpl;
    constructor; [|done].
  simpl in *. rewrite Hs. unfold Py.slice_from. by rewrite drop_nil.
Qed.

Lemma truncate_stories_entries (stories : list example) (bound : Z) :
  Forall (fun ex : example => Forall sentence_entry ex.1.1) stories →
  Forall (fun ex : example => Forall sentence_entry ex.1.1)
         (truncate_stories stories bound).
Proof.
  unfold truncate_stories.
  induction 1 as [|[[story query] answer] l Hs _ IH]; simpl;
    constructor; [|done].
  simpl in *. unfold Py.slice_from. by apply Forall_drop.
Qed.

Lemma encodes_story_length d ex o :
  encodes d ex o → length o.1.1 = length ex.1.1.
Proof. intros H%encodes_same_shape. destruct ex as [[??]?], o as [[??]?]. apply H. Qed.

Lemma encodes_nonempty d l k :
  Forall2 (encodes d) l k →
  Exists (fun ex : example => ex.1.1 ≠ []) l →
  Exists (fun o : encoded => o.1.1 ≠ []) k.
Proof.
  induction 1 as [|ex o l k Hex _ IH]; intros He; [by apply Exists_nil in He|].
  apply Exists_cons in He as [He|He]; [left|right; by apply IH].
  apply encodes_story_length in Hex. intros Hnil. apply He.
  rewrite Hnil in Hex. by destruct (ex.1.1).
Qed.

Lemma encodes_bounded d (b : Z) l k :
  Forall2 (encodes d) l k →
  Forall (fun ex : example => len ex.1.1 ≤ b) l →
  Forall (fun o : encoded => len o.1.1 ≤ b) k.
Proof.
  induction 1 as [|ex o l k Hex _ IH]; [done|].
  intros [H1 H2]%Forall_cons_1. constructor; [|by apply IH].
  apply encodes_story_length in Hex. unfold len in *. lia.
Qed.

Lemma encodes_sentences d l k :
  Forall2 (encodes d) l k →
  Forall (fun ex : example => Forall sentence_entry ex.1.1) l →
  Forall (fun o : encoded => Forall (fun s => 1 ≤ len s) o.1.1) k.
Proof.
  induction 1 as [|ex o l k Hex _ IH]; [done|].
  intros [H1 H2]%Forall_cons_1. constructor; [|by apply IH].
  destruct ex as [[story query] answer], o as [[story' query'] answer'].
  destruct Hex as (Hs & _ & _). simpl in *. clear -Hs H1.
  induction Hs as [|x y l k Hxy _ IH]; [done|].
  apply Forall_cons_1 in H1 as [(tokens & -> & Hne) H1].
  constructor; [|by apply IH].
  unfold ids_of in Hxy. apply Forall2_length in Hxy. simpl in Hxy.
  unfold len. destruct tokens; [done|]. simpl in Hxy. lia.
Qed.

(** [assemble] on parsed splits of which one story at least has a
    sentence: neither the encoding nor the padding raises. *)
Lemma assemble_returns (bound : Z) (st ste : list example) :
  0 < bound →
  Forall (fun ex : example => Forall sentence_entry ex.1.1) (st ++ ste) →
  Exists (fun ex : example => ex.1.1 ≠ []) (st ++ ste) →
  ∃ etr ete train test p,
    assemble bound st ste = OK (train, test, p) ∧
    tokenize_stories (truncate_stories st bound)
      (get_tokenizer (truncate_stories st bound
                      ++ truncate_stories ste bound)).2 = OK etr ∧
    tokenize_stories (truncate_stories ste bound)
      (get_tokenizer (truncate_stories st bound
                      ++ truncate_stories ste bound)).2 = OK ete ∧
    Forall2 (padded (max_sentence_length p) (story_maxlen p) (query_maxlen p))
      etr train ∧
    Forall2 (padded (max_sentence_length p) (story_maxlen p) (query_maxlen p))
      ete test ∧
    Forall (uniform (max_sentence_length p) (story_maxlen p) (query_maxlen p))
      (train ++ test) ∧
    vocab_size p
      = len (get_tokenizer (truncate_stories st bound
                            ++ truncate_stories ste bound)).1 ∧
    Forall (fun o => Forall (fun i => 0 ≤ i < vocab_size p) (encoded_ids o))
      (train ++ test) ∧
    0 < max_sentence_length p ∧
    0 < story_maxlen p ≤ bound ∧
    0 ≤ query_maxlen p ∧
    Forall (fun o : encoded => 1 ≤ o.2 < vocab_size p) (train ++ test).
Proof.
  intros Hb Hent Hex. unfold assemble.
  assert (Happ : truncate_stories (st ++ ste) bound
                 = truncate_stories st bound ++ truncate_stories ste bound)
    by apply map_app.
  apply (truncate_stories_nonempty _ bound Hb) in Hex.
  apply (truncate_stories_entries _ bound) in Hent.
  pose proof (truncate_stories_bounded (st ++ ste) bound Hb) as Hbound.
  rewrite Happ in Hex, Hent, Hbound. clear Happ.
  set (tr := truncate_stories st bound) in *.
  set (te := truncate_stories ste bound) in *.
  destruct (tokenize_stories_population (tr ++ te) tr) as (etr & Hetr & Hidtr).
  { intros ex Hin. apply elem_of_app. by left. }
  destruct (tokenize_stories_population (tr ++ te) te) as (ete & Hete & Hidte).
  { intros ex Hin. apply elem_of_app. by right. }
  remember (get_tokenizer (tr ++ te)) as g eqn:Eg.
  destruct g as [vocab d]. simpl in Hetr, Hete, Hidtr, Hidte.
  rewrite Hetr, Hete. cbn [bind].
  assert (Henc : Forall2 (encodes d) (tr ++ te) (etr ++ ete)).
  { apply Forall2_app; by apply tokenize_stories_OK. }
  destruct (maxima_fit (etr ++ ete))
    as (msl & mstl & mql & -> & -> & -> & Hfits & Hmsl0 & Hmstl & Hmsl).
  { by eapply encodes_nonempty. }
  cbn [bind]. apply Forall_app in Hfits as [Hfitr Hfite].
  destruct (pad_stories_values etr msl mstl mql Hmsl0) as [Hp _].
  destruct (Hp Hfitr) as (train & -> & Hptr & Hutr). clear Hp.
  destruct (pad_stories_values ete msl mstl mql Hmsl0) as [Hp _].
  destruct (Hp Hfite) as (test & -> & Hpte & Hute). clear Hp.
  cbn [bind]. exists etr, ete, train, test. eexists.
  split; [reflexivity|]. cbn [max_sentence_length story_maxlen query_maxlen
                              vocab_size fst snd].
  split; [done|]. split; [done|]. split; [done|]. split; [done|].
  split; [by apply Forall_app|]. split; [done|].
  assert (Hv : 1 ≤ len vocab).
  { unfold get_tokenizer in Eg. injection Eg as -> _.
    unfold len. simpl length. lia. }
  assert (Hids : ∀ e o,
            Forall (fun o => Forall (fun i => 1 ≤ i ≤ len vocab - 1)
                               (encoded_ids o)) e →
            Forall2 (padded msl mstl mql) e o →
            Forall (fun o => Forall (fun i => 0 ≤ i < len vocab)
                               (encoded_ids o)) o).
  { intros e o He Hpad. induction Hpad as [|x y l k Hxy _ IH]; [done|].
    apply Forall_cons_1 in He as [Hx He]. constructor; [|by apply IH].
    eapply (padded_ids _ _ _ _ _ _ Hxy).
    - unfold PAD_ID. lia.
    - eapply Forall_impl; [exact Hx|]. intros i Hi. simpl in Hi. lia. }
  split; [apply Forall_app; split; eauto|].
  assert (Hans : ∀ e o,
            Forall (fun o => Forall (fun i => 1 ≤ i ≤ len vocab - 1)
                               (encoded_ids o)) e →
            Forall2 (padded msl mstl mql) e o →
            Forall (fun o : encoded => 1 ≤ o.2 < len vocab) o).
  { intros e o He Hpad. induction Hpad as [|x y l k Hxy _ IH]; [done|].
    apply Forall_cons_1 in He as [Hx He]. constructor; [|by apply IH].
    destruct x as [[story query] answer], y as [[story' query'] answer'].
    destruct Hxy as (_ & _ & ->). unfold encoded_ids in Hx.
    rewrite !Forall_app, Forall_singleton in Hx. simpl. lia. }
  assert (Ha : Forall (fun o : encoded => 1 ≤ o.2 < len vocab) (train ++ test))
    by (apply Forall_app; split; eauto).
  pose proof (encodes_nonempty _ _ _ Henc Hex) as Hex'.
  pose proof (encodes_sentences _ _ _ Henc Hent) as Hent'.
  pose proof (encodes_bounded _ bound _ _ Henc Hbound) as Hbound'.
  assert (Hfits : Forall (fits msl mstl mql) (etr ++ ete))
    by by apply Forall_app.
  apply Exists_exists in Hex' as ([[story query] answer] & Hin & Hs).
  rewrite Forall_forall in Hfits, Hent', Hbound'.
  pose proof (Hfits _ Hin) as (Hf1 & Hf2 & Hf3).
  pose proof (Hent' _ Hin) as Hlen. simpl in Hs, Hlen.
  destruct story as [|s story]; [done|].
  apply Forall_cons_1 in Hf1 as [Hf1 _].
  apply Forall_cons_1 in Hlen as [Hlen _].
  split; [lia|]. split; [|split; [|exact Ha]].
  - split.
    + unfold len in Hf2. simpl in Hf2. lia.
    + destruct Hmstl as (o & Ho & <-). by apply (Hbound' o).
  - pose proof (len_nonneg query). lia.
Qed.

(** [assemble] on splits without any sentence: the first [max] raises. *)
Lemma assemble_no_sentence (bound : Z) (st ste : list example) :
  Forall (fun ex : example => ex.1.1 = []) (st ++ ste) →
  assemble bound st ste = Raise ValueError.
Proof.
  intros Hempty. unfold assemble.
  assert (Happ : truncate_stories (st ++ ste) bound
                 = truncate_stories st bound ++ truncate_stories ste bound)
    by apply map_app.
  apply (truncate_stories_empty _ bound) in Hempty. rewrite Happ in Hempty.
  set (tr := truncate_stories st bound) in *.
  set (te := truncate_stories ste bound) in *.
  destruct (tokenize_stories_population (tr ++ te) tr) as (etr & Hetr & _).
  { intros ex Hin. apply elem_of_app. by left. }
  destruct (tokenize_stories_population (tr ++ te) te) as (ete & Hete & _).
  { intros ex Hin. apply elem_of_app. by right. }
  remember (get_tokenizer (tr ++ te)) as g eqn:Eg.
  destruct g as [vocab d]. simpl in Hetr, Hete.
  rewrite Hetr, Hete. cbn [bind].
  assert (Henc : Forall2 (encodes d) (tr ++ te) (etr ++ ete)).
  { apply Forall2_app; by apply tokenize_stories_OK. }
  rewrite maxima_none; [done|].
  clear -Henc Hempty. induction Henc as [|ex o l k Hex _ IH]; [done|].
  apply Forall_cons_1 in Hempty as [H1 H2]. constructor; [|by apply IH].
  apply encodes_story_length in Hex. rewrite H1 in Hex.
  by destruct (o.1.1).
Qed.

Lemma parse_line_examples stories story line stories' story' :
  parse_line false (stories, story) line = OK (stories', story') →
  Forall (fun x => x = Blank ∨ sentence_entry x) story →
  Forall (fun ex : example => Forall sentence_entry ex.1.1) stories →
  Forall (fun ex : example => Forall sentence_entry ex.1.1) stories'.
Proof.
  unfold parse_line.
  destruct (line_number line) as [[nid rest]|e]; simpl; [|done].
  destruct (Py.contains Py.TAB rest); simpl.
  - destruct (Py.unpack3 _) as [[[query answer] supporting]|e]; simpl; [|done].
    intros [= <- <-] Hstory Hall.
    apply Forall_app. split; [done|]. constructor; [|done]. simpl.
    assert (Hr : Forall (fun x => x = Blank ∨ sentence_entry x)
                        (restart nid story)).
    { unfold restart. by destruct (nid =? 1). }
    rewrite (filter_truthy_words _ Hr).
    induction Hr as [|x l Hx _ IH]; [done|].
    destruct Hx as [->|Hx].
    + rewrite filter_cons_False by exact id. exact IH.
    + destruct Hx as (tokens & -> & Hne).
      rewrite filter_cons_True by exact I.
      constructor; [by exists tokens | exact IH].
  - by intros [= <- <-].
Qed.

Lemma parse_loop_examples lines :
  ∀ stories story stories' story',
    parse_loop false (stories, story) lines = OK (stories', story') →
    Forall (fun x => x = Blank ∨ sentence_entry x) story →
    Forall (fun ex : example => Forall sentence_entry ex.1.1) stories →
    Forall (fun ex : example => Forall sentence_entry ex.1.1) stories'.
Proof.
  induction lines as [|line lines IH]; intros stories story stories' story';
    cbn [parse_loop].
  - by intros [= <- <-].
  - destruct (parse_line false (stories, story) line) as [[s1 h1]|e] eqn:E;
      simpl; [|done].
    intros Hloop Hstory Hall. eapply IH; [exact Hloop| |].
    + by eapply parse_line_entries.
    + by eapply parse_line_examples.
Qed.

(** Every sentence of every story [parse_stories] returns, without
    [only_supporting], is a non-empty list of tokens. *)
Lemma parse_stories_examples lines stories :
  parse_stories lines false = OK stories →
  Forall (fun ex : example => Forall sentence_entry ex.1.1) stories.
Proof.
  unfold parse_stories.
  destruct (parse_loop false ([], []) lines) as [[out story]|e] eqn:E;
    simpl; [|done].
  intros [= <-]. by eapply parse_loop_examples.
Qed.

Lemma parse_stories_false_Raise lines e :
  parse_stories lines false = Raise e → e = ValueError.
Proof.
  unfold parse_stories.
  destruct (parse_loop false ([], []) lines) as [[out story]|e'] eqn:E;
    simpl; [done|].
  intros [= <-]. by apply parse_loop_Raise in E as [->|[? _]].
Qed.

Lemma no_story_or_some {S Q A : Type} (l : list (list S * Q * A)) :
  Forall (fun ex => ex.1.1 = []) l ∨ Exists (fun ex => ex.1.1 ≠ []) l.
Proof.
  induction l as [|[[story query] answer] l [IH|IH]].
  - by left.
  - destruct story as [|x story].
    + left. by constructor.
    + right. by left.
  - right. by right.
Qed.

Lemma truncated_story_length_pos task_id : 0 < truncated_story_length task_id.
Proof. unfold truncated_story_length. destruct (String.eqb _ _); lia. Qed.

Lemma task_names_dict_None task_id :
  task_names_dict !! task_id = None ↔ task_id ∉ task_ids.
Proof.
  unfold task_names_dict. symmetry.
  exact (not_elem_of_list_to_map (zip task_ids task_names) task_id).
Qed.

(** What a call of [parse_data] that returns went through. *)
Lemma parse_data_OK_stages (FLAGS : flags) r :
  parse_data FLAGS = OK r →
  ∃ task_name f_train f_test stories_train stories_test,
    task_names_dict !! dataset_id FLAGS = Some task_name ∧
    source FLAGS (stories_path FLAGS task_name "_train.txt") = Some f_train ∧
    source FLAGS (stories_path FLAGS task_name "_test.txt") = Some f_test ∧
    parse_stories f_train false = OK stories_train ∧
    parse_stories f_test false = OK stories_test ∧
    Exists (fun ex : example => ex.1.1 ≠ []) (stories_train ++ stories_test) ∧
    assemble (truncated_story_length (dataset_id FLAGS))
      stories_train stories_test = OK r.
Proof.
  rewrite parse_data_stages. unfold extractfile.
  destruct (task_names_dict !! dataset_id FLAGS) as [task_name|] eqn:Ename;
    cbn [bind]; [|done].
  destruct (source FLAGS (stories_path FLAGS task_name "_train.txt"))
    as [f_train|] eqn:Etr; cbn [bind]; [|done].
  destruct (source FLAGS (stories_path FLAGS task_name "_test.txt"))
    as [f_test|] eqn:Ete; cbn [bind]; [|done].
  destruct (parse_stories f_train false) as [stories_train|e] eqn:Eptr;
    cbn [bind]; [|done].
  destruct (parse_stories f_test false) as [stories_test|e] eqn:Epte;
    cbn [bind]; [|done].
  intros H. exists task_name, f_train, f_test, stories_train, stories_test.
  repeat (split; [done|]). split; [|done].
  destruct (no_story_or_some (stories_train ++ stories_test)) as [Hn|Hs];
    [|done].
  by rewrite (assemble_no_sentence _ _ _ Hn) in H.
Qed.

(** X17: [parse_data] returns as soon as the task is one of the twenty,
    both files are in the archive and parse, and some question has a
    sentence before it.  What it returns is the parsed stories cut to
    their last 70 (130 for [qa3]) sentences, encoded with the vocabulary
    of the two splits together (no token is missing from it) and padded
    to the maxima over both splits (no assertion fails): one example per
    question, all of the lengths in [params], every id in
    [0, vocab_size) and every answer id above the pad id, the sentence
    and story lengths at least 1 and the story length at most the cut. *)
Theorem parse_data_returns (FLAGS : flags) (task_name : string)
    (f_train f_test : list string) (stories_train stories_test : list example) :
  task_names_dict !! dataset_id FLAGS = Some task_name →
  source FLAGS (stories_path FLAGS task_name "_train.txt") = Some f_train →
  source FLAGS (stories_path FLAGS task_name "_test.txt") = Some f_test →
  parse_stories f_train false = OK stories_train →
  parse_stories f_test false = OK stories_test →
  Exists (fun ex : example => ex.1.1 ≠ []) (stories_train ++ stories_test) →
  let bound := truncated_story_length (dataset_id FLAGS) in
  let cut_train := truncate_stories stories_train bound in
  let cut_test := truncate_stories stories_test bound in
  let tokenizer := get_tokenizer (cut_train ++ cut_test) in
  ∃ ids_train ids_test train test p,
    parse_data FLAGS = OK (train, test, p) ∧
    tokenize_stories cut_train tokenizer.2 = OK ids_train ∧
    tokenize_stories cut_test tokenizer.2 = OK ids_test ∧
    Forall2 (padded (max_sentence_length p) (story_maxlen p) (query_maxlen p))
      ids_train train ∧
    Forall2 (padded (max_sentence_length p) (story_maxlen p) (query_maxlen p))
      ids_test test ∧
    Forall (uniform (max_sentence_length p) (story_maxlen p) (query_maxlen p))
      (train ++ test) ∧
    length train = length stories_train ∧
    length test = length stories_test ∧
    vocab_size p = len tokenizer.1 ∧
    Forall (fun o => Forall (fun i => 0 ≤ i < vocab_size p) (encoded_ids o))
      (train ++ test) ∧
    Forall (fun o : encoded => 1 ≤ o.2 < vocab_size p) (train ++ test) ∧
    0 < max_sentence_length p ∧
    0 < story_maxlen p ≤ bound ∧
    0 ≤ query_maxlen p.
Proof.
  intros Hname Htr Hte Hptr Hpte Hex bound cut_train cut_test tokenizer.
  assert (Hent : Forall (fun ex : example => Forall sentence_entry ex.1.1)
                        (stories_train ++ stories_test)).
  { apply Forall_app. split; by eapply parse_stories_examples. }
  destruct (assemble_returns bound stories_train stories_test
              (truncated_story_length_pos _) Hent Hex)
    as (ids_train & ids_test & train & test & p & Hasm & Hitr & Hite
        & Hpadtr & Hpadte & Huni & Hvocab & Hids & Hmsl & Hmstl & Hmql
        & Hans).
  exists ids_train, ids_test, train, test, p.
  split.
  { rewrite parse_data_stages, Hname. unfold extractfile.
    cbn [bind]. rewrite Htr. cbn [bind]. rewrite Hte. cbn [bind].
    rewrite Hptr. cbn [bind]. rewrite Hpte. cbn [bind]. exact Hasm. }
  repeat (split; [done|]).
  split; [|split; [|done]].
  - apply Forall2_length in Hpadtr. rewrite <- Hpadtr.
    apply tokenize_stories_OK, Forall2_length in Hitr. rewrite <- Hitr.
    apply length_map.
  - apply Forall2_length in Hpadte. rewrite <- Hpadte.
    apply tokenize_stories_OK, Forall2_length in Hite. rewrite <- Hite.
    apply length_map.
Qed.

Lemma parse_data_returns_witness :
  ∃ train test p,
    parse_data sample_flags = OK (train, test, p) ∧
    length train = 3%nat ∧ length test = 1%nat ∧
    0 < story_maxlen p ≤ 70.
Proof.
  edestruct (parse_data_returns sample_flags)
    as (ids_train & ids_test & train & test & p & Hp & _ & _ & _ & _ & _
        & Hltr & Hlte & _ & _ & _ & _ & Hs & _).
  - reflexivity.
  - reflexivity.
  - reflexivity.
  - vm_compute. reflexivity.
  - vm_compute. reflexivity.
  - apply Exists_cons_hd. simpl. discriminate.
  - exists train, test, p.
    split; [exact Hp|]. split; [exact Hltr|]. split; [exact Hlte|]. exact Hs.
Defined.



(** X19: the other way round, in the order of the code.  A task id out
    of the twenty raises [KeyError] whatever the archive holds; a missing
    file raises [KeyError] before any line is parsed, so also when the
    other file is malformed; a file that does not parse raises
    [ValueError]; and two files that parse but give no sentence to any
    question (say, no question at all) raise [ValueError]. *)
Theorem parse_data_failures (FLAGS : flags) :
  (dataset_id FLAGS ∉ task_ids → parse_data FLAGS = Raise KeyError) ∧
  (∀ task_name,
     task_names_dict !! dataset_id FLAGS = Some task_name →
     source FLAGS (stories_path FLAGS task_name "_train.txt") = None ∨
     source FLAGS (stories_path FLAGS task_name "_test.txt") = None →
     parse_data FLAGS = Raise KeyError) ∧
  (∀ task_name f_train f_test,
     task_names_dict !! dataset_id FLAGS = Some task_name →
     source FLAGS (stories_path FLAGS task_name "_train.txt") = Some f_train →
     source FLAGS (stories_path FLAGS task_name "_test.txt") = Some f_test →
     (∀ e, parse_stories f_train false = Raise e →
           parse_data FLAGS = Raise ValueError) ∧
     (∀ stories_train e,
        parse_stories f_train false = OK stories_train →
        parse_stories f_test false = Raise e →
        parse_data FLAGS = Raise ValueError) ∧
     (∀ stories_train stories_test,
        parse_stories f_train false = OK stories_train →
        parse_stories f_test false = OK stories_test →
        Forall (fun ex : example => ex.1.1 = [])
               (stories_train ++ stories_test) →
        parse_data FLAGS = Raise ValueError) ∧
     (parse_stories f_train false = OK [] →
      parse_stories f_test false = OK [] →
      parse_data FLAGS = Raise ValueError)).
Proof.
  split; [|split].
  - intros Hid%task_names_dict_None. by rewrite parse_data_stages, Hid.
  - intros task_name Hname Hnone.
    rewrite parse_data_stages, Hname. unfold extractfile. cbn [bind].
    destruct Hnone as [Hn|Hn].
    + by rewrite Hn.
    + rewrite Hn.
      by destruct (source FLAGS (stories_path FLAGS task_name "_train.txt")).
  - intros task_name f_train f_test Hname Htr Hte.
    assert (Hstages :
              parse_data FLAGS
              = let* stories_train := parse_stories f_train false in
                let* stories_test := parse_stories f_test false in
                assemble (truncated_story_length (dataset_id FLAGS))
                  stories_train stories_test).
    { rewrite parse_data_stages, Hname. unfold extractfile. cbn [bind].
      rewrite Htr. cbn [bind]. by rewrite Hte. }
    rewrite Hstages. clear Hstages.
    split; [|split; [|split]].
    + intros e He. rewrite He. cbn [bind].
      by rewrite (parse_stories_false_Raise _ _ He).
    + intros stories_train e Hs He. rewrite Hs, He. cbn [bind].
      by rewrite (parse_stories_false_Raise _ _ He).
    + intros stories_train stories_test Hs Hs' Hn. rewrite Hs, Hs'.
      cbn [bind]. by apply assemble_no_sentence.
    + intros Hs Hs'. rewrite Hs, Hs'. cbn [bind].
      by apply assemble_no_sentence.
Qed.

(** What [parse_data] returns, read off the result alone. *)
Lemma parse_data_OK_shape (FLAGS : flags) train test p :
  parse_data FLAGS = OK (train, test, p) →
  Forall (uniform (max_sentence_length p) (story_maxlen p) (query_maxlen p))
    (train ++ test) ∧
  Forall (fun o => Forall (fun i => 0 ≤ i < vocab_size p) (encoded_ids o))
    (train ++ test) ∧
  Forall (fun o : encoded => 1 ≤ o.2 < vocab_size p) (train ++ test) ∧
  0 < max_sentence_length p ∧
  0 < story_maxlen p ≤ truncated_story_length (dataset_id FLAGS) ∧
  0 ≤ query_maxlen p.
Proof.
  intros (task_name & f_train & f_test & stories_train & stories_test
          & _ & _ & _ & Hptr & Hpte & Hex & Hasm)%parse_data_OK_stages.
  assert (Hent : Forall (fun ex : example => Forall sentence_entry ex.1.1)
                        (stories_train ++ stories_test)).
  { apply Forall_app. split; by eapply parse_stories_examples. }
  destruct (assemble_returns _ stories_train stories_test
              (truncated_story_length_pos (dataset_id FLAGS)) Hent Hex)
    as (ids_train & ids_test & train' & test' & p' & Hasm' & _ & _
        & _ & _ & Huni & _ & Hids & Hmsl & Hmstl & Hmql & Hans).
  rewrite Hasm in Hasm'. injection Hasm' as <- <- <-. done.
Qed.

Lemma split_arrays_zero stories :
  split_arrays stories 0 = Raise ZeroDivisionError.
Proof. reflexivity. Qed.

Lemma slice_to_all {A} (k : Z) (l : list A) :
  len l ≤ k → Py.slice_to k l = l.
Proof.
  intros Hk. unfold Py.slice_to. fold (len l).
  pose proof (len_nonneg l).
  destruct (Z.ltb_spec k 0) as [?|_]; [lia|].
  rewrite Z.min_r by lia. unfold len. rewrite Nat2Z.id. apply take_ge. lia.
Qed.

Lemma split_arrays_negative stories batch_size :
  batch_size < 0 →
  split_arrays stories batch_size = OK (arrays_of stories).
Proof.
  intros Hb. unfold split_arrays, py_mod.
  destruct (Z.eqb_spec batch_size 0) as [?|_]; [lia|]. cbn [bind].
  rewrite len_fmap.
  pose proof (Z.mod_neg_bound (len stories) batch_size Hb) as Hmod.
  unfold encoded in Hmod. unfold arrays_of. by rewrite !slice_to_all by (rewrite len_fmap; lia).
Qed.

Lemma first_batches_short stories batch_size :
  len stories < batch_size → first_batches batch_size stories = [].
Proof.
  intros Hb. pose proof (len_nonneg stories). unfold first_batches.
  rewrite Z.mod_small by lia. by rewrite Z.sub_diag.
Qed.

(** With a batch size other than 0, the three arrays of a split are
    those of one and the same prefix of its examples. *)
Lemma split_arrays_prefix stories batch_size :
  batch_size ≠ 0 →
  ∃ kept,
    kept `prefix_of` stories ∧
    split_arrays stories batch_size = OK (arrays_of kept).
Proof.
  intros Hb. destruct (Z.lt_ge_cases batch_size 0).
  - exists stories. split; [done|]. by apply split_arrays_negative.
  - exists (first_batches batch_size stories).
    split; [apply prefix_take|]. apply split_arrays_trim. lia.
Qed.

(** X20: [get_data] raises exactly when [parse_data] does, with its
    exception, or when the batch size is 0: [ZeroDivisionError], from the
    first [%], after the whole archive has been parsed and padded.  For
    every other batch size, negative ones too, it returns. *)
Theorem get_data_raises (FLAGS : flags) (batch_size : Z) (e : exn) :
  get_data FLAGS batch_size = Raise e ↔
  parse_data FLAGS = Raise e ∨
  ((∃ r, parse_data FLAGS = OK r) ∧ batch_size = 0 ∧ e = ZeroDivisionError).
Proof.
  unfold get_data.
  destruct (parse_data FLAGS) as [[[train test] p]|e'] eqn:Hparse;
    cbn [bind].
  - destruct (Z.eq_dec batch_size 0) as [->|Hb].
    + rewrite split_arrays_zero. cbn [bind]. split.
      * intros [= <-]. right. eauto.
      * intros [?|(_ & _ & ->)]; done.
    + destruct (split_arrays_prefix train batch_size Hb) as (k1 & _ & ->).
      destruct (split_arrays_prefix test batch_size Hb) as (k2 & _ & ->).
      cbn [bind]. split; [done|]. intros [?|(_ & ? & _)]; done.
  - split.
    + intros [= <-]. by left.
    + intros [[= <-]|([r ?] & _)]; done.
Qed.

(** X21: whatever the batch size, the arrays [get_data] returns are
    rectangular and aligned: for each split the three arrays are the
    stories, queries and answers of one prefix of the examples of
    [parse_data], so they have one length; every story has
    [story_maxlen] sentences of [max_sentence_length] ids, every query
    [query_maxlen] ids, and every answer is an id of [1, vocab_size),
    never the pad id. *)
Theorem get_data_arrays (FLAGS : flags) (batch_size : Z)
    (x tx : list (list (list Z))) (xq txq : list (list Z)) (y ty : list Z)
    (p : params) :
  get_data FLAGS batch_size = OK ((x, xq, y), (tx, txq, ty), p) →
  (∃ train test kept_train kept_test,
     parse_data FLAGS = OK (train, test, p) ∧
     kept_train `prefix_of` train ∧ kept_test `prefix_of` test ∧
     (x, xq, y) = arrays_of kept_train ∧
     (tx, txq, ty) = arrays_of kept_test) ∧
  length x = length xq ∧ length xq = length y ∧
  length tx = length txq ∧ length txq = length ty ∧
  Forall (fun story =>
            len story = story_maxlen p ∧
            Forall (fun sentence => len sentence = max_sentence_length p)
                   story)
         (x ++ tx) ∧
  Forall (fun query => len query = query_maxlen p) (xq ++ txq) ∧
  Forall (fun answer => 1 ≤ answer < vocab_size p) (y ++ ty).
Proof.
  unfold get_data.
  destruct (parse_data FLAGS) as [[[train test] p']|e'] eqn:Hparse;
    cbn [bind]; [|done].
  destruct (Z.eq_dec batch_size 0) as [->|Hb];
    [by rewrite split_arrays_zero|].
  destruct (split_arrays_prefix train batch_size Hb) as (k1 & Hk1 & ->).
  destruct (split_arrays_prefix test batch_size Hb) as (k2 & Hk2 & ->).
  cbn [bind]. unfold arrays_of. intros [= <- <- <- <- <- <- ->].
  apply parse_data_OK_shape in Hparse as Hshape.
  destruct Hshape as (Huni & _ & Hans & _).
  assert (Hsub : ∀ o, o ∈ k1 ++ k2 → o ∈ train ++ test).
  { intros o [Ho|Ho]%elem_of_app; apply elem_of_app; [left|right].
    - destruct Hk1 as [rest ->]. apply elem_of_app. by left.
    - destruct Hk2 as [rest ->]. apply elem_of_app. by left. }
  rewrite Forall_forall in Huni, Hans.
  split; [by exists train, test, k1, k2|].
  rewrite !length_map. repeat (split; [done|]).
  rewrite <- !map_app. split; [|split].
  - apply Forall_forall. intros story (o & -> & Ho)%list_elem_of_fmap.
    specialize (Huni o (Hsub o Ho)). destruct o as [[s q] a].
    destruct Huni as (H1 & H2 & _). done.
  - apply Forall_forall. intros query (o & -> & Ho)%list_elem_of_fmap.
    specialize (Huni o (Hsub o Ho)). destruct o as [[s q] a].
    destruct Huni as (_ & _ & H3). done.
  - apply Forall_forall. intros answer (o & -> & Ho)%list_elem_of_fmap.
    specialize (Hans o (Hsub o Ho)). by destruct o as [[s q] a].
Qed.

Lemma get_data_arrays_witness :
  ∃ x xq y tx txq ty p,
    get_data sample_flags 2 = OK ((x, xq, y), (tx, txq, ty), p) ∧
    length x = length y ∧
    Forall (fun answer => 1 ≤ answer < vocab_size p) (y ++ ty).
Proof.
  assert (H : ∃ x xq y tx txq ty p,
             get_data sample_flags 2 = OK ((x, xq, y), (tx, txq, ty), p)).
  { eexists _, _, _, _, _, _, _. vm_compute. reflexivity. }
  destruct H as (x & xq & y & tx & txq & ty & p & H).
  exists x, xq, y, tx, txq, ty, p. split; [exact H|].
  destruct (get_data_arrays _ _ _ _ _ _ _ _ _ H)
    as (_ & H1 & H2 & _ & _ & _ & _ & H3).
  split; [by rewrite H1 | exact H3].
Defined.

(** X22: a negative batch size trims nothing: [n % batch_size] is then
    0 or negative, the bound of the slice is at least [n], and every
    example of both splits is returned. *)
Theorem get_data_negative_batch (FLAGS : flags) (batch_size : Z)
    (train test : list encoded) (p : params) :
  batch_size < 0 →
  parse_data FLAGS = OK (train, test, p) →
  get_data FLAGS batch_size = OK (arrays_of train, arrays_of test, p).
Proof.
  intros Hb Hparse. unfold get_data. rewrite Hparse. cbn [bind].
  by rewrite !split_arrays_negative.
Qed.

Lemma get_data_negative_batch_witness :
  ∃ train test p,
    -2 < 0 ∧
    parse_data sample_flags = OK (train, test, p) ∧
    length train = 3%nat ∧
    get_data sample_flags (-2) = OK (arrays_of train, arrays_of test, p).
Proof.
  assert (H : ∃ train test p,
             parse_data sample_flags = OK (train, test, p) ∧
             length train = 3%nat).
  { eexists _, _, _. split; [vm_compute; reflexivity | reflexivity]. }
  destruct H as (train & test & p & H & Hlen).
  exists train, test, p. split; [lia|]. split; [exact H|].
  split; [exact Hlen|]. apply (get_data_negative_batch _ (-2)); [lia|exact H].
Defined.

(** X23: a split with fewer examples than the batch size is dropped
    whole, without an error: its three arrays are empty, whatever the
    other split holds. *)
Theorem get_data_short_split (FLAGS : flags) (batch_size : Z)
    (train test : list encoded) (p : params) :
  parse_data FLAGS = OK (train, test, p) →
  (len train < batch_size →
   ∃ test_arrays,
     get_data FLAGS batch_size = OK (([], [], []), test_arrays, p)) ∧
  (len test < batch_size →
   ∃ train_arrays,
     get_data FLAGS batch_size = OK (train_arrays, ([], [], []), p)).
Proof.
  intros Hparse. unfold get_data. rewrite Hparse. cbn [bind].
  split; intros Hshort.
  - pose proof (len_nonneg train).
    rewrite !split_arrays_trim by lia.
    rewrite (first_batches_short train) by done. cbn [bind]. eauto.
  - pose proof (len_nonneg test).
    rewrite !split_arrays_trim by lia.
    rewrite (first_batches_short test) by done. cbn [bind]. eauto.
Qed.

Lemma get_data_short_split_witness :
  ∃ train_arrays p,
    get_data sample_flags 2 = OK (train_arrays, ([], [], []), p).
Proof.
  assert (H : ∃ train test p,
             parse_data sample_flags = OK (train, test, p) ∧
             len test = 1).
  { eexists _, _, _. split; [vm_compute; reflexivity | reflexivity]. }
  destruct H as (train & test & p & H & Hlen).
  destruct (get_data_short_split sample_flags 2 train test p H) as [_ Hs].
  destruct Hs as [train_arrays Hs]; [lia|].
  by exists train_arrays, p.
Defined.

(** ** [pad_stories] with a negative sentence length *)

(** X24: with a negative [max_sentence_length] no sentence passes its
    assertion, so examples with a sentence make [pad_stories] raise
    [AssertionError]; but the sentences that pad a story are not
    asserted: when the call returns, every story is made of
    [max_story_length] empty sentences, of length 0 and not of the
    length asked for. *)
Theorem pad_stories_negative_sentence_length (stories : list encoded)
    (max_sentence_length max_story_length max_query_length : Z) :
  max_sentence_length < 0 →
  (Exists (fun o : encoded => o.1.1 ≠ []) stories →
   pad_stories stories max_sentence_length max_story_length max_query_length
   = Raise AssertionError) ∧
  (∀ out,
     pad_stories stories
       max_sentence_length max_story_length max_query_length = OK out →
     Forall (fun o : encoded =>
               len o.1.1 = max_story_length ∧
               Forall (fun sentence => sentence = []) o.1.1)
            out).
Proof.
  intros Hneg.
  assert (Hfit : ∀ ex, fits max_sentence_length max_story_length
                         max_query_length ex →
                       ex.1.1 = [] ∧ 0 ≤ max_story_length).
  { intros [[story query] answer] (Hs & Hl & _). simpl.
    destruct story as [|s story].
    - split; [done|]. exact Hl.
    - apply Forall_cons_1 in Hs as [Hs _]. pose proof (len_nonneg s). lia. }
  split.
  - intros Hex. unfold pad_stories.
    destruct (mapM _ stories) as [out|e] eqn:E.
    + apply mapM_OK in E. exfalso.
      induction E as [|x y l k Hxy _ IH]; [by apply Exists_nil in Hex|].
      apply Exists_cons in Hex as [Hx|Hex]; [|by apply IH].
      apply pad_story_OK in Hxy as [Hxy _]. by apply Hfit in Hxy as [? _].
    + apply mapM_Raise in E as (x & _ & Hx).
      by rewrite (pad_story_Raise _ _ _ _ _ Hx).
  - intros out E. unfold pad_stories in E. apply mapM_OK in E.
    induction E as [|x y l k Hxy _ IH]; [done|]. constructor; [|exact IH].
    apply pad_story_OK in Hxy as [Hx Hxy]. apply Hfit in Hx as [Hx Hl].
    destruct x as [[story query] answer], y as [[story' query'] answer'].
    simpl in Hx. subst story. destruct Hxy as (-> & _ & _). simpl.
    rewrite (Z2Nat.nonpos max_sentence_length) by lia. simpl. split.
    + rewrite len_replicate. unfold len. simpl. lia.
    + apply Forall_replicate. done.
Qed.

Lemma pad_stories_negative_sentence_length_witness :
  -1 < 0 ∧
  pad_stories [([], [5], 1)] (-1) 2 1 = OK [([[]; []], [5], 1)] ∧
  Forall (fun o : encoded =>
            len o.1.1 = 2 ∧ Forall (fun sentence => sentence = []) o.1.1)
         [([[]; []], [5], 1)].
Proof.
  split; [lia|]. split; [reflexivity|].
  apply (pad_stories_negative_sentence_length [([], [5], 1)] (-1) 2 1);
    [lia | reflexivity].
Defined.

(** ** [save_dataset] *)

Lemma rows_concat (width : nat) (story : list (list Z)) :
  Forall (fun sentence => length sentence = width) story →
  rows width (length story) (concat story) = story.
Proof.
  induction 1 as [|s story Hs _ IH]; [done|]. simpl.
  rewrite take_app_length', drop_app_length' by done. by rewrite IH.
Qed.

Lemma length_concat_rows (width : nat) (story : list (list Z)) :
  Forall (fun sentence => length sentence = width) story →
  length (concat story) = (length story * width)%nat.
Proof.
  induction 1 as [|s story Hs _ IH]; [done|]. simpl.
  rewrite length_app, IH, Hs. lia.
Qed.

(** X25: [save_dataset] builds one record for each example, in order,
    with the three features [story], [query] and [answer] and no other;
    the answer is a list of one id and the story is flattened.  The
    flattening forgets where the sentences end (two sentences and their
    concatenation give the same record), and it is the padding that
    keeps it: for an example with the lengths of [pad_stories] the flat
    story has [max_story_length * max_sentence_length] ids, and cut into
    rows of [max_sentence_length] it is the story again. *)
Theorem save_dataset_records :
  (∀ stories, length (save_dataset stories) = length stories) ∧
  (∀ stories (i : nat) story query answer,
     stories !! i = Some (story, query, answer) →
     ∃ record,
       save_dataset stories !! i = Some record ∧
       record !! "story" = Some (concat story) ∧
       record !! "query" = Some query ∧
       record !! "answer" = Some [answer] ∧
       ∀ key, is_Some (record !! key) →
              key = "story" ∨ key = "query" ∨ key = "answer") ∧
  (∀ first second rest query answer,
     example_features (first :: second :: rest, query, answer)
     = example_features ((first ++ second) :: rest, query, answer)) ∧
  (∀ msl mstl mql story query answer,
     uniform msl mstl mql (story, query, answer) →
     len (concat story) = mstl * msl ∧
     rows (Z.to_nat msl) (Z.to_nat mstl) (concat story) = story).
Proof.
  split; [|split; [|split]].
  - intros stories. apply length_map.
  - intros stories i story query answer Hi.
    exists (example_features (story, query, answer)).
    split.
    { unfold save_dataset.
      change ((example_features <$> stories) !! i
              = Some (example_features (story, query, answer))).
      rewrite list_lookup_fmap. exact (f_equal (fmap example_features) Hi). }
    unfold example_features.
    split; [done|]. split; [done|]. split; [done|].
    intros key [v Hv].
    destruct (decide (key = "answer")) as [->|H1]; [auto|].
    rewrite lookup_insert_ne in Hv by done.
    destruct (decide (key = "query")) as [->|H2]; [auto|].
    rewrite lookup_insert_ne in Hv by done.
    destruct (decide (key = "story")) as [->|H3]; [auto|].
    by rewrite lookup_insert_ne in Hv by done.
  - intros first second rest query answer. unfold example_features.
    simpl. by rewrite app_assoc.
  - intros msl mstl mql story query answer (Hs & Hl & _).
    assert (Hw : Forall (fun sentence => length sentence = Z.to_nat msl)
                        story).
    { eapply Forall_impl; [exact Hs|]. intros s Hlen. simpl in Hlen.
      unfold len in Hlen. lia. }
    split.
    + unfold len in *. rewrite (length_concat_rows _ _ Hw).
      destruct story as [|s story]; [simpl in *; lia|].
      apply Forall_cons_1 in Hs as [Hs _]. simpl in Hs. unfold len in Hs.
      lia.
    + unfold len in Hl. rewrite <- Hl, Nat2Z.id. by apply rows_concat.
Qed.

(** ** The order of the ids *)

Lemma sorted_lookup_le (l : list string) :
  StronglySorted String.le l →
  ∀ j1 j2 t1 t2,
    l !! j1 = Some t1 → l !! j2 = Some t2 → (j1 ≤ j2)%nat → String.le t1 t2.
Proof.
  induction 1 as [|a l _ IH Ha]; intros j1 j2 t1 t2 H1 H2 Hj; [done|].
  destruct j1 as [|j1], j2 as [|j2]; simpl in H1, H2.
  - injection H1 as <-. injection H2 as <-. done.
  - injection H1 as <-. rewrite Forall_forall in Ha. apply Ha.
    by eapply list_elem_of_lookup_2.
  - lia.
  - eapply IH; [exact H1 | exact H2 | lia].
Qed.

(** X26: the ids follow the order of the tokens: of two tokens of the
    examples, the one that sorts first (by character codes, as [sorted]
    does) has the smaller id. *)
Theorem get_tokenizer_order (stories : list example) (t1 t2 : string)
    (i1 i2 : Z) :
  t1 ∈ tokens_all stories →
  t2 ∈ tokens_all stories →
  (get_tokenizer stories).2 !! t1 = Some i1 →
  (get_tokenizer stories).2 !! t2 = Some i2 →
  (i1 ≤ i2 ↔ String.le t1 t2).
Proof.
  intros Ht1 Ht2 H1 H2.
  assert (Hid : ∀ t, t ∈ tokens_all stories →
            ∃ j, sorted_set (tokens_all stories) !! j = Some t ∧
                 (get_tokenizer stories).2 !! t = Some (Z.of_nat j + 1)).
  { intros t [j Hj]%sorted_set_elem%list_elem_of_lookup_1.
    exists j. split; [done|].
    apply dict_of_enumerate_rest; [apply sorted_set_NoDup | done]. }
  destruct (Hid t1 Ht1) as (j1 & Hj1 & E1).
  destruct (Hid t2 Ht2) as (j2 & Hj2 & E2).
  rewrite H1 in E1. rewrite H2 in E2.
  injection E1 as ->. injection E2 as ->.
  pose proof (sorted_lookup_le _ (sorted_set_sorted (tokens_all stories)))
    as Hle.
  split.
  - intros Hi. eapply Hle; [exact Hj1 | exact Hj2 | lia].
  - intros Ht. destruct (Nat.le_gt_cases j1 j2) as [?|Hgt]; [lia|].
    assert (Ht' : String.le t2 t1)
      by (eapply Hle; [exact Hj2 | exact Hj1 | lia]).
    assert (t1 = t2) as -> by (by apply (anti_symm String.le)).
    rewrite H1 in H2. injection H2. lia.
Qed.

Lemma get_tokenizer_order_witness :
  (get_tokenizer [([Words ["b"; "a"]], ["c"], "a")]).2 !! "a" = Some 1 ∧
  (get_tokenizer [([Words ["b"; "a"]], ["c"], "a")]).2 !! "b" = Some 2 ∧
  (1 ≤ 2 ↔ String.le "a" "b").
Proof.
  split; [reflexivity|]. split; [reflexivity|].
  apply (get_tokenizer_order [([Words ["b"; "a"]], ["c"], "a")] "a" "b").
  - apply (bool_decide_unpack _). by vm_compute.
  - apply (bool_decide_unpack _). by vm_compute.
  - reflexivity.
  - reflexivity.
Defined.

(** ** White space around a line *)

Lemma parse_line_strip only st a b :
  Py.strip a = Py.strip b → parse_line only st a = parse_line only st b.
Proof.
  intros Hs. destruct st as [stories story]. unfold parse_line, line_number.
  by rewrite Hs.
Qed.

Lemma chars_app (a b : string) :
  Py.chars (a +:+ b) = Py.chars a ++ Py.chars b.
Proof.
  induction a as [|c a IH]; [done|].
  rewrite PyFacts.string_app_cons. simpl. by rewrite IH.
Qed.

Lemma lstrip_snoc_space l c :
  Py.is_space c = true →
  Py.lstrip (l ++ [c])
  = match Py.lstrip l with [] => [] | _ :: _ => Py.lstrip l ++ [c] end.
Proof.
  intros Hc. induction l as [|d l IH]; simpl.
  - by rewrite Hc.
  - destruct (Py.is_space d); [exact IH | done].
Qed.

Lemma rstrip_snoc_space l c :
  Py.is_space c = true → Py.rstrip (l ++ [c]) = Py.rstrip l.
Proof.
  intros Hc. unfold Py.rstrip. rewrite rev_app_distr. simpl. by rewrite Hc.
Qed.

Lemma strip_with_newline line : Py.strip (with_newline line) = Py.strip line.
Proof.
  unfold Py.strip, with_newline. rewrite chars_app.
  change (Py.chars (String "010" "")) with ["010"%char].
  rewrite lstrip_snoc_space by reflexivity.
  destruct (Py.lstrip (Py.chars line)) as [|c l]; [done|].
  by rewrite rstrip_snoc_space.
Qed.

(** X27: [parse_stories] reads each line through [line.strip()] only:
    two lists of lines that agree line by line after stripping give the
    same result, and raise alike.  So the end of line that [readlines()]
    keeps makes no difference, nor does stripping the lines first. *)
Theorem parse_stories_strip :
  (∀ lines lines' only_supporting,
     Forall2 (fun a b => Py.strip a = Py.strip b) lines lines' →
     parse_stories lines only_supporting
     = parse_stories lines' only_supporting) ∧
  (∀ lines only_supporting,
     parse_stories (with_newline <$> lines) only_supporting
     = parse_stories lines only_supporting) ∧
  (∀ lines only_supporting,
     parse_stories (Py.strip <$> lines) only_supporting
     = parse_stories lines only_supporting).
Proof.
  assert (Hgen : ∀ lines lines' only_supporting,
            Forall2 (fun a b => Py.strip a = Py.strip b) lines lines' →
            parse_stories lines only_supporting
            = parse_stories lines' only_supporting).
  { intros lines lines' only_supporting H. unfold parse_stories.
    assert (Hloop : ∀ st, parse_loop only_supporting st lines
                          = parse_loop only_supporting st lines').
    { induction H as [|a b l l' Hab _ IH]; intros st; cbn [parse_loop];
        [done|].
      rewrite (parse_line_strip _ _ a b Hab).
      destruct (parse_line only_supporting st b) as [st'|e]; cbn [bind];
        [apply IH | done]. }
    by rewrite Hloop. }
  split; [exact Hgen|]. split.
  - intros lines only_supporting. apply Hgen.
    induction lines as [|line lines IH]; constructor; [|exact IH].
    apply strip_with_newline.
  - intros lines only_supporting. apply Hgen.
    induction lines as [|line lines IH]; constructor; [|exact IH].
    apply PyFacts.strip_idem.
Qed.
